(** * BEDOW: Behance gallery downloader

    A shallow embedding of the quota tracker and request handler of
    [src/pages/api/download.ts], of the extraction helpers of
    [src/utils/behanceExtractor.ts], of the download orchestration of
    [src/pages/index.tsx] and of the selection and filtering of
    [src/components/PreviewModal.tsx], with the properties of the
    specification, and further properties of the code, stated and proved
    over them.

    Conventions.
    - A JavaScript [Date] is its epoch time in milliseconds, a [Z].  The
      ISO strings kept in the store ([toISOString], then [new Date(iso)])
      carry exactly the millisecond value, so they are the same [Z].
    - A JavaScript string that the code scans or rewrites (URLs, titles,
      file names) is a list of characters, [list ascii], written with
      [lit "..."]; a string that is only passed around or used as a key
      (client addresses, messages) is a [string].  Characters are 8-bit:
      the strings covered are those of Latin-1 characters (code points up
      to U+00FF), on which [toLowerCase] stays within Latin-1.
    - The module-level object [rateLimitStore] is a [gmap string Entry],
      the entries the code has put there, threaded through every
      function that reads or writes it.  A read of the object also sees
      what every object inherits from its prototype ([Quota.slot]).
    - A function that can throw returns an [option], [None] standing for
      the exception, beside the store it leaves. *)

From stdpp Require Import gmap strings list.
From Stdlib Require Import ZArith Lia Ascii DecimalString DecimalNat.
From Equations Require Import Equations.

Local Open Scope Z_scope.

(** ** JavaScript string primitives *)

Module Js.

Definition lit (s : string) : list ascii := String.list_ascii_of_string s.

(** [s.startsWith(p)] *)
Fixpoint startsWith (s p : list ascii) {struct p} : bool :=
  match p, s with
  | [], _ => true
  | _ :: _, [] => false
  | a :: p', b :: s' => bool_decide (a = b) && startsWith s' p'
  end.

(** [s.includes(p)] *)
Fixpoint includes (s p : list ascii) : bool :=
  startsWith s p ||
  match s with
  | [] => false
  | _ :: s' => includes s' p
  end.

(** A regular expression is embedded as its matcher: [m s = Some n] when
    the expression matches at the head of [s], its match being the first
    [n] characters; [None] when it does not match there.  The end of the
    input is visible to the matcher, so [$] needs nothing more.  None of
    the expressions below matches the empty string. *)
Definition Matcher := list ascii → option nat.

(** [re.test(s)], [s.match(re)] being non-null: a match at some position. *)
Fixpoint test (m : Matcher) (s : list ascii) : bool :=
  match m s with
  | Some _ => true
  | None => match s with [] => false | _ :: s' => test m s' end
  end.

(** [s.replace(re, r)] without the [g] flag: the leftmost match only. *)
Fixpoint replaceFirst (m : Matcher) (r s : list ascii) : list ascii :=
  match m s with
  | Some n => r ++ drop n s
  | None => match s with [] => [] | c :: s' => c :: replaceFirst m r s' end
  end.

(** [s.replace(re, r)] with the [g] flag: every match, left to right, the
    scan resuming after each match ([skip] characters are still covered
    by the last one). *)
Fixpoint replaceAllFrom (m : Matcher) (r : list ascii) (skip : nat)
    (s : list ascii) : list ascii :=
  match s with
  | [] => []
  | c :: s' =>
      match skip with
      | S k => replaceAllFrom m r k s'
      | O =>
          match m s with
          | Some n => r ++ replaceAllFrom m r (Nat.pred n) s'
          | None => c :: replaceAllFrom m r 0 s'
          end
      end
  end.

Definition replaceAll (m : Matcher) (r s : list ascii) : list ascii :=
  replaceAllFrom m r 0 s.

(** An expression anchored by [^] can match at position 0 only. *)
Definition replaceAtStart (m : Matcher) (r s : list ascii) : list ascii :=
  match m s with
  | Some n => r ++ drop n s
  | None => s
  end.

(** The [g] replacement for an expression some of whose alternatives are
    anchored by [^]: [m_bos] is the whole expression as it matches at
    position 0, [m] the alternatives that can match further on. *)
Definition replaceAllBos (m_bos m : Matcher) (r s : list ascii) : list ascii :=
  match m_bos s with
  | Some n => r ++ replaceAllFrom m r n s
  | None => replaceAllFrom m r 0 s
  end.

(** A literal pattern. *)
Definition m_lit (p : list ascii) : Matcher :=
  λ s, if startsWith s p then Some (List.length p) else None.

(** [a|b], and [ab?] read as [ab|a]: the first alternative that matches. *)
Definition m_alt (m1 m2 : Matcher) : Matcher :=
  λ s, match m1 s with Some n => Some n | None => m2 s end.

Definition isDigit (c : ascii) : bool :=
  (48 <=? nat_of_ascii c)%nat && (nat_of_ascii c <=? 57)%nat.
Definition isLower (c : ascii) : bool :=
  (97 <=? nat_of_ascii c)%nat && (nat_of_ascii c <=? 122)%nat.
Definition isUpper (c : ascii) : bool :=
  (65 <=? nat_of_ascii c)%nat && (nat_of_ascii c <=? 90)%nat.

(** The characters [.] does not match. *)
Definition isLineTerminator (c : ascii) : bool :=
  (nat_of_ascii c =? 10)%nat || (nat_of_ascii c =? 13)%nat.

(** Latin-1 capitals other than the ASCII ones: U+00C0 to U+00DE
    without the multiplication sign U+00D7. *)
Definition isUpperLatin1 (c : ascii) : bool :=
  (192 <=? nat_of_ascii c)%nat && (nat_of_ascii c <=? 222)%nat &&
  negb (nat_of_ascii c =? 215)%nat.

Definition toLowerChar (c : ascii) : ascii :=
  if isUpper c || isUpperLatin1 c then ascii_of_nat (nat_of_ascii c + 32)
  else c.

(** [s.toLowerCase()] *)
Definition toLowerCase (s : list ascii) : list ascii := map toLowerChar s.

(** [s.substring(0, n)] *)
Definition substring0 (n : nat) (s : list ascii) : list ascii := take n s.

(** [s.split(sep)[0]] for a one-character separator. *)
Fixpoint splitHead (sep : ascii) (s : list ascii) : list ascii :=
  match s with
  | [] => []
  | c :: s' => if bool_decide (c = sep) then [] else c :: splitHead sep s'
  end.

(** A template literal's rendering of a non-negative integer. *)
Definition decimal (n : nat) : list ascii :=
  String.list_ascii_of_string (NilEmpty.string_of_uint (Nat.to_uint n)).

End Js.

(** ** src/types/index.ts *)

Module Types.

Record BehanceImage := {
  url : list ascii;
  filename : list ascii
}.

Record RateLimitInfo := {
  used : Z;
  limit : Z;
  remaining : Z;
  resetTime : Z
}.

End Types.

(** ** The quota tracker of src/pages/api/download.ts *)

Module Quota.

Definition HOURLY_LIMIT : Z := 20.
Definition RATE_LIMIT_WINDOW : Z := 60 * 60 * 1000.

(** date-fns: [addHours d n] adds [n * 3 600 000] ms, [subHours d n] is
    [addHours d (-n)]. *)
Definition MILLISECONDS_IN_HOUR : Z := 3600000.
Definition addHours (d amount : Z) : Z := d + amount * MILLISECONDS_IN_HOUR.
Definition subHours (d amount : Z) : Z := addHours d (- amount).

(** One value of [rateLimitStore]. *)
Record Entry := {
  downloads : list Z;
  resetTime : Z
}.

Definition fresh (now : Z) : Entry :=
  {| downloads := []; resetTime := addHours now 1 |}.

(** [rateLimitStore] is made by [{}], a plain object: besides the entries
    put there it answers to the names every object inherits from
    [Object.prototype]. *)
Definition inheritedKeys : list string :=
  ["constructor"; "__defineGetter__"; "__defineSetter__"; "hasOwnProperty";
   "__lookupGetter__"; "__lookupSetter__"; "isPrototypeOf";
   "propertyIsEnumerable"; "toString"; "valueOf"; "__proto__";
   "toLocaleString"].

(** What [rateLimitStore[clientIp]] evaluates to: the entry put there, a
    value inherited from the prototype (a function, or the prototype
    itself), or [undefined]. *)
Inductive Slot :=
| Own (store : Entry)
| Inherited
| Undefined.

Definition slot (rateLimitStore : gmap string Entry) (clientIp : string) : Slot :=
  match rateLimitStore !! clientIp with
  | Some store => Own store
  | None => if decide (clientIp ∈ inheritedKeys) then Inherited else Undefined
  end.

(** [getRateLimitInfo]; [now] is the value of [new Date()] on entry.  The
    result is [None] when the function throws.  An inherited value is
    truthy and has neither [resetTime] nor [downloads]:
    [new Date(undefined) < now] is false, and [store.downloads.filter]
    throws a [TypeError], before the store is touched. *)
Definition getRateLimitInfo (now : Z) (clientIp : string)
    (rateLimitStore : gmap string Entry)
  : option Types.RateLimitInfo * gmap string Entry :=
  let reset :=
    (Some {| Types.used := 0;
             Types.limit := HOURLY_LIMIT;
             Types.remaining := HOURLY_LIMIT;
             Types.resetTime := resetTime (fresh now) |},
     <[clientIp := fresh now]> rateLimitStore) in
  match slot rateLimitStore clientIp with
  | Undefined => reset
  | Inherited => (None, rateLimitStore)
  | Own store =>
      if decide (resetTime store < now) then reset
      else
        let kept := filter (λ timestamp, subHours now 1 < timestamp)
                           (downloads store) in
        let used := Z.of_nat (List.length kept) in
        (Some {| Types.used := used;
                 Types.limit := HOURLY_LIMIT;
                 Types.remaining := Z.max 0 (HOURLY_LIMIT - used);
                 Types.resetTime := resetTime store |},
         <[clientIp := {| downloads := kept; resetTime := resetTime store |}]>
           rateLimitStore)
  end.

(** [checkRateLimitOnly]; [None] when [getRateLimitInfo] throws. *)
Definition checkRateLimitOnly (now : Z) (clientIp : string)
    (rateLimitStore : gmap string Entry)
  : option (bool * Types.RateLimitInfo) * gmap string Entry :=
  match getRateLimitInfo now clientIp rateLimitStore with
  | (Some info, st) => (Some (bool_decide (0 < Types.remaining info), info), st)
  | (None, st) => (None, st)
  end.

(** [recordDownload].  There are two clock reads: [pushed] is the
    [new Date()] that is appended, [now] the one read by the final
    [getRateLimitInfo]; without an entry only the second happens.  For an
    inherited value [store.downloads.push] throws a [TypeError]. *)
Definition recordDownload (pushed now : Z) (clientIp : string)
    (rateLimitStore : gmap string Entry)
  : option Types.RateLimitInfo * gmap string Entry :=
  match slot rateLimitStore clientIp with
  | Undefined => getRateLimitInfo now clientIp rateLimitStore
  | Inherited => (None, rateLimitStore)
  | Own store =>
      getRateLimitInfo now clientIp
        (<[clientIp := {| downloads := downloads store ++ [pushed];
                          resetTime := resetTime store |}]> rateLimitStore)
  end.

(** [cleanupRateLimitStore], run by [setInterval] once per window. *)
Definition cleanupRateLimitStore (now : Z) (rateLimitStore : gmap string Entry)
  : gmap string Entry :=
  filter (λ kv, ¬ (resetTime kv.2 < now)) rateLimitStore.

End Quota.

(** ** src/utils/behanceExtractor.ts *)

Module Extractor.
Import Js.

(** The errors thrown, by kind (the message texts are not modelled). *)
Inductive Error :=
| SearchUrlError     (* 'Please provide a direct Behance project URL instead of a search URL...' *)
| InvalidUrlError    (* 'Invalid Behance URL. Please provide a direct project URL...' *)
| MissingIdError     (* 'Could not extract project ID from URL...' *)
| UpstreamLoadError  (* puppeteer: launch, navigation or evaluation failed *)
| NoImagesError.     (* 'No images found in the gallery...' *)

Definition isSlash (c : ascii) : bool := bool_decide (c = "/"%char).

(** [/\/+$/]: a non-empty run of slashes that reaches the end. *)
Definition re_trailing_slashes : Matcher :=
  λ s, match s with
       | [] => None
       | _ :: _ => if forallb isSlash s then Some (List.length s) else None
       end.

(** [/behance\.net\/gallery\/\d+$/] *)
Definition re_short_gallery : Matcher :=
  λ s, if startsWith s (lit "behance.net/gallery/") then
         match drop 20 s with
         | [] => None
         | d :: ds =>
             if forallb isDigit (d :: ds) then Some (List.length s) else None
         end
       else None.

(** [validateAndCleanUrl] *)
Definition validateAndCleanUrl (url : list ascii) : Error + list ascii :=
  let cleanUrl := replaceFirst re_trailing_slashes [] (splitHead "?" url) in
  if includes cleanUrl (lit "/search/projects") then inl SearchUrlError
  else if test re_short_gallery cleanUrl then inr cleanUrl
  else if includes cleanUrl (lit "behance.net/gallery/") then inr cleanUrl
  else inl InvalidUrlError.

(** The longest prefix of digits. *)
Fixpoint digits (s : list ascii) : list ascii :=
  match s with
  | c :: s' => if isDigit c then c :: digits s' else []
  | [] => []
  end.

(** [s.match(/gallery\/(\d+)/)]: the capture of the leftmost match. *)
Fixpoint matchGalleryId (s : list ascii) : option (list ascii) :=
  let here :=
    if startsWith s (lit "gallery/") then
      match digits (drop 8 s) with [] => None | d :: ds => Some (d :: ds) end
    else None in
  match here with
  | Some id => Some id
  | None => match s with [] => None | _ :: s' => matchGalleryId s' end
  end.

(** [extractProjectId] *)
Definition extractProjectId (url : list ascii) : Error + list ascii :=
  match validateAndCleanUrl url with
  | inl e => inl e
  | inr cleanUrl =>
      match matchGalleryId cleanUrl with
      | None => inl MissingIdError
      | Some id => inr id
      end
  end.

(** [[a-z0-9]] under the [i] flag. *)
Definition isAlnum (c : ascii) : bool := isLower c || isUpper c || isDigit c.

(** [/[^a-z0-9]/gi] *)
Definition re_non_alnum : Matcher :=
  λ s, match s with
       | c :: _ => if isAlnum c then None else Some 1%nat
       | [] => None
       end.

Fixpoint underscores (s : list ascii) : nat :=
  match s with
  | c :: s' => if bool_decide (c = "_"%char) then S (underscores s') else 0%nat
  | [] => 0%nat
  end.

(** [/_+/g]: a maximal run of underscores. *)
Definition re_underscores : Matcher :=
  λ s, match underscores s with O => None | S n => Some (S n) end.

(** [/_$/], the alternative of [/^_|_$/g] that is not anchored at the start. *)
Definition re_last_underscore : Matcher :=
  λ s, match s with
       | [c] => if bool_decide (c = "_"%char) then Some 1%nat else None
       | _ => None
       end.

(** [/^_|_$/] as it matches at position 0. *)
Definition re_edge_underscore_bos : Matcher :=
  m_alt (m_lit (lit "_")) re_last_underscore.

(** [sanitizeFilename] *)
Definition sanitizeFilename (name : list ascii) : list ascii :=
  let s :=
    substring0 50
      (replaceAllBos re_edge_underscore_bos re_last_underscore []
         (replaceAll re_underscores (lit "_")
            (replaceAll re_non_alnum (lit "_")
               (toLowerCase name)))) in
  match s with
  | [] => lit "image"
  | _ :: _ => s
  end.

(** The lazy [.*?] followed by a slash: the number of characters before the
    first slash, provided no line terminator comes before it. *)
Fixpoint lazyToSlash (s : list ascii) : option nat :=
  match s with
  | [] => None
  | c :: s' =>
      if isSlash c then Some 0%nat
      else if isLineTerminator c then None
      else option_map S (lazyToSlash s')
  end.

(** [/\/fs\/.*?\//] *)
Definition re_fs : Matcher :=
  λ s, if startsWith s (lit "/fs/") then
         option_map (λ n, (4 + n + 1)%nat) (lazyToSlash (drop 4 s))
       else None.

(** [/\/200H?\//] and its siblings, for the digits [n]. *)
Definition re_size_segment (n : string) : Matcher :=
  m_alt (m_lit (lit "/" ++ lit n ++ lit "H/")) (m_lit (lit "/" ++ lit n ++ lit "/")).

(** [/_200\./g] and its siblings. *)
Definition re_size_suffix (n : string) : Matcher :=
  m_lit (lit "_" ++ lit n ++ lit ".").

(** [getHighestQualityUrl] *)
Definition getHighestQualityUrl (url : list ascii) : list ascii :=
  match url with
  | [] => []
  | _ :: _ =>
      let cleanUrl := replaceAtStart (m_lit (lit "//")) (lit "https://") url in
      let u1 := replaceFirst re_fs (lit "/original/") cleanUrl in
      let u2 := replaceFirst (re_size_segment "200") (lit "/2000/") u1 in
      let u3 := replaceFirst (re_size_segment "400") (lit "/2000/") u2 in
      let u4 := replaceFirst (re_size_segment "600") (lit "/2000/") u3 in
      let u5 := replaceFirst (re_size_segment "800") (lit "/2000/") u4 in
      let u6 := replaceFirst (re_size_segment "1400") (lit "/2000/") u5 in
      let u7 := replaceAll (re_size_suffix "200") (lit "_2000.") u6 in
      let u8 := replaceAll (re_size_suffix "400") (lit "_2000.") u7 in
      let u9 := replaceAll (re_size_suffix "600") (lit "_2000.") u8 in
      let u10 := replaceAll (re_size_suffix "800") (lit "_2000.") u9 in
      replaceAll (re_size_suffix "1400") (lit "_2000.") u10
  end.

Definition extensions : list (list ascii) :=
  [lit ".jpg"; lit ".jpeg"; lit ".png"; lit ".gif"; lit ".webp"].

(** [getExtensionFromUrl] *)
Definition getExtensionFromUrl (url : list ascii) : list ascii :=
  let urlLower := toLowerCase url in
  match List.find (λ ext, includes urlLower ext) extensions with
  | Some ext => ext
  | None => lit ".jpg"
  end.

(** An [img] element as the page scripts read it: [img.src] (empty when
    there is none) and [img.getAttribute('data-src')]. *)
Record Img := {
  src : list ascii;
  data_src : option (list ascii)
}.

Definition assetHost : list ascii := lit "mir-s3-cdn-cf.behance.net".

(** The script run by [page.evaluate]: the source of every image that is
    served from the asset host, in document order. *)
Definition scanImages (imgs : list Img) : list (list ascii) :=
  omap (λ img,
          let s := match src img with
                   | [] => default [] (data_src img)
                   | _ :: _ => src img
                   end in
          match s with
          | [] => None
          | _ :: _ => if includes s assetHost then Some s else None
          end) imgs.

(** The state of the loops of [extractBehanceImages]. *)
Record Found := {
  images : list Types.BehanceImage;
  seen : gset (list ascii)
}.

Definition noneFound : Found := {| images := []; seen := ∅ |}.

(** The body of [for (const imageUrl of imageUrls)]. *)
Definition processImage (projectTitle : list ascii) (st : Found)
    (imageUrl : list ascii) : Found :=
  let highQualityUrl := getHighestQualityUrl imageUrl in
  match highQualityUrl with
  | [] => st
  | _ :: _ =>
      if decide (highQualityUrl ∈ seen st) then st
      else
        {| seen := {[highQualityUrl]} ∪ seen st;
           images :=
             images st ++
             [ {| Types.url := highQualityUrl;
                  Types.filename :=
                    sanitizeFilename projectTitle ++ lit "_" ++
                    decimal (List.length (images st) + 1) ++
                    getExtensionFromUrl highQualityUrl |} ] |}
  end.

Definition processImages (projectTitle : list ascii) (st : Found)
    (imageUrls : list (list ascii)) : Found :=
  foldl (processImage projectTitle) st imageUrls.

(** What the browser shows for a project page: its [og:title], the images
    on first load and the images after scrolling to the bottom. *)
Record Page := {
  ogTitle : option (list ascii);
  imgs : list Img;
  imgsAfterScroll : list Img
}.

(** [extractBehanceImages]; [load] stands for puppeteer ([None] when the
    browser or the navigation throws). *)
Definition extractBehanceImages (load : list ascii → option Page)
    (url : list ascii) : Error + list Types.BehanceImage :=
  match extractProjectId url with
  | inl e => inl e
  | inr projectId =>
      let projectUrl := lit "https://www.behance.net/gallery/" ++ projectId in
      match load projectUrl with
      | None => inl UpstreamLoadError
      | Some page =>
          let projectTitle :=
            match ogTitle page with
            | Some (c :: t) => c :: t
            | _ => lit "behance_project"
            end in
          let first := processImages projectTitle noneFound
                         (scanImages (imgs page)) in
          let found :=
            match images first with
            | [] => processImages projectTitle first
                      (scanImages (imgsAfterScroll page))
            | _ :: _ => first
            end in
          match images found with
          | [] => inl NoImagesError
          | i :: rest => inr (i :: rest)
          end
      end
  end.

End Extractor.

(** ** The request handler of src/pages/api/download.ts *)

Module Handler.
Import Js.

Inductive Method := GET | POST | OPTIONS | OtherMethod.

(** [req.headers['x-forwarded-for']]: a string or an array of strings. *)
Inductive Forwarded :=
| FwdString (s : string)
| FwdArray (l : list string).

(** The JSON body: [url] and [action] may be absent. *)
Record Body := {
  url : option (list ascii);
  action : option string
}.

Record Request := {
  method : Method;
  forwardedFor : option Forwarded;
  remoteAddress : option string;
  body : option Body
}.

(** The answers, by shape; every JSON answer of the handler carries the
    quota snapshot [rateLimit].  [Ended] is the empty answer to OPTIONS,
    [InternalServerError] the plain text Next.js sends with status 500
    when an exception leaves the handler. *)
Inductive Payload :=
| Ended
| ErrorJson (error : string) (rateLimit : Types.RateLimitInfo)
| ImagesJson (images : list Types.BehanceImage) (rateLimit : Types.RateLimitInfo)
| ClientDownloadJson (rateLimit : Types.RateLimitInfo)
| RecordedJson (rateLimit : Types.RateLimitInfo)
| ServerErrorJson (rateLimit : Types.RateLimitInfo)
| InternalServerError.

Record Response := {
  status : Z;
  payload : Payload
}.

(** The readings of [new Date()] during one request, in the order they are
    taken: by the first [getRateLimitInfo], by the push of
    [recordDownload], by the last [getRateLimitInfo]. *)
Record Times := {
  checked : Z;
  pushed : Z;
  answered : Z
}.

(** [getClientIp] *)
Definition getClientIp (req : Request) : string :=
  let ip :=
    match forwardedFor req with
    | Some (FwdString s) =>
        if decide (s = "") then remoteAddress req else Some s
    | Some (FwdArray l) => head l
    | None => remoteAddress req
    end in
  match ip with
  | Some s => if decide (s = "") then "unknown" else s
  | None => "unknown"
  end.

Definition rateLimitExceeded : string :=
  "Rate limit exceeded. Please try again later or upgrade to our Chrome extension for unlimited downloads.".

(** How a block of statements ends: with a [return res...json(...)], with
    an exception, or by running to its end; [Fell now] carries the
    reading the clock will give the statement that follows. *)
Inductive Flow :=
| Return (response : Response)
| Throw
| Fell (now : Z).

(** [return res.status(status).json({ ..., rateLimit: getRateLimitInfo(clientIp) })]:
    the snapshot is taken while the argument is built, so an exception of
    [getRateLimitInfo] leaves the statement before anything is sent. *)
Definition respond (status : Z) (body : Types.RateLimitInfo → Payload)
    (peek : option Types.RateLimitInfo * gmap string Quota.Entry)
  : Flow * gmap string Quota.Entry :=
  match peek with
  | (Some info, st) => (Return {| status := status; payload := body info |}, st)
  | (None, st) => (Throw, st)
  end.

(** A statement outside the [try]: its exception leaves the handler. *)
Definition uncaught (flow : Flow * gmap string Quota.Entry)
  : option Response * gmap string Quota.Entry :=
  match flow with
  | (Return response, st) => (Some response, st)
  | (_, st) => (None, st)
  end.

(** The final statement of [handler], reached by every request that no
    branch has answered. *)
Definition methodNotAllowed (now : Z) (req : Request)
    (rateLimitStore : gmap string Quota.Entry)
  : option Response * gmap string Quota.Entry :=
  uncaught (respond 405 (ErrorJson "Method not allowed")
              (Quota.getRateLimitInfo now (getClientIp req) rateLimitStore)).

(** The [catch] block of the POST branch. *)
Definition catchBlock (now : Z) (req : Request)
    (rateLimitStore : gmap string Quota.Entry)
  : option Response * gmap string Quota.Entry :=
  uncaught (respond 500 ServerErrorJson
              (Quota.getRateLimitInfo now (getClientIp req) rateLimitStore)).

(** [if (action === 'download') { ... }], the last statement of the
    [try] block; [now] is the reading left for the final statement when
    the block runs to its end. *)
Definition downloadBranch (t : Times) (now : Z) (req : Request)
    (action : string) (rateLimitStore : gmap string Quota.Entry)
  : Flow * gmap string Quota.Entry :=
  let clientIp := getClientIp req in
  if decide (action = "download") then
    match Quota.checkRateLimitOnly (checked t) clientIp rateLimitStore with
    | (None, st) => (Throw, st)
    | (Some (allowed, info), st) =>
        if negb allowed then
          (Return {| status := 429; payload := ErrorJson rateLimitExceeded info |},
           st)
        else
          respond 200 RecordedJson
            (Quota.recordDownload (pushed t) (answered t) clientIp st)
    end
  else (Fell now, rateLimitStore).

(** The [try] block of the POST branch, for a body [b]. *)
Definition tryBlock
    (extract : list ascii → Extractor.Error + list Types.BehanceImage)
    (t : Times) (req : Request) (b : Body)
    (rateLimitStore : gmap string Quota.Entry)
  : Flow * gmap string Quota.Entry :=
  let action := default "search" (action b) in
  let clientIp := getClientIp req in
  match url b with
  | None | Some [] =>
      respond 400 (ErrorJson "URL is required")
        (Quota.getRateLimitInfo (checked t) clientIp rateLimitStore)
  | Some (c :: u) =>
      let url := c :: u in
      if negb (includes url (lit "behance.net/gallery")) then
        respond 400 (ErrorJson "Invalid Behance gallery URL")
          (Quota.getRateLimitInfo (checked t) clientIp rateLimitStore)
      else if decide (action = "search") then
        match Quota.checkRateLimitOnly (checked t) clientIp rateLimitStore with
        | (None, st) => (Throw, st)
        | (Some (allowed, info), st) =>
            if negb allowed then
              (Return {| status := 429;
                         payload := ErrorJson rateLimitExceeded info |}, st)
            else
              match extract url with
              | inr (i :: rest) =>
                  (Return
                     {| status := 200;
                        payload :=
                          ImagesJson
                            (map (λ img,
                                    {| Types.url :=
                                         replaceAtStart (m_lit (lit "//"))
                                           (lit "https://") (Types.url img);
                                       Types.filename := Types.filename img |})
                                 (i :: rest))
                            info |}, st)
              | inr [] => downloadBranch t (answered t) req action st
              | inl _ =>
                  (Return {| status := 200; payload := ClientDownloadJson info |},
                   st)
              end
        end
      else downloadBranch t (checked t) req action rateLimitStore
  end.

(** [handler]; [extract] stands for [extractBehanceImages] with its
    browser ([inl] when it throws).  The answer is [None] when an
    exception leaves the handler. *)
Definition handler
    (extract : list ascii → Extractor.Error + list Types.BehanceImage)
    (t : Times) (req : Request) (rateLimitStore : gmap string Quota.Entry)
  : option Response * gmap string Quota.Entry :=
  match method req with
  | OPTIONS => (Some {| status := 200; payload := Ended |}, rateLimitStore)
  | POST =>
      match body req with
      | None =>
          (* destructuring [undefined] throws inside the [try] *)
          catchBlock (checked t) req rateLimitStore
      | Some b =>
          match tryBlock extract t req b rateLimitStore with
          | (Return response, st) => (Some response, st)
          | (Throw, st) => catchBlock (answered t) req st
          | (Fell now, st) => methodNotAllowed now req st
          end
      end
  | _ => methodNotAllowed (checked t) req rateLimitStore
  end.

End Handler.

(** ** The download orchestration of src/pages/index.tsx *)

Module Client.
Import Js.

Definition MAX_RETRIES : nat := 3.
Definition RETRY_DELAY : Z := 1000.

(** What [axios.get] resolves to: the bytes and the declared content type. *)
Record HttpResponse := {
  data : list ascii;
  contentType : option (list ascii)
}.

Record Blob := {
  blobData : list ascii;
  blobType : list ascii
}.

Inductive Mode := individual | zip.

(** The state of the [Home] component that the download functions touch.
    [downloadProgress] keeps the two integers the percentage
    [(completed / images.length) * 100] is computed from. *)
Record Home := {
  rateLimitInfo : option Types.RateLimitInfo;
  showRateLimitModal : bool;
  isPreviewMinimized : bool;
  isDownloading : bool;
  downloadedImages : list (list ascii);
  failedDownloads : list (list ascii);
  downloadProgress : nat * nat;
  downloadMode : Mode
}.

(** What the run does to the outside, in order. *)
Inductive Event :=
| Get (url : list ascii) (ok : bool)     (* axios.get(image.url) *)
| Post (status : Z)                      (* axios.post('/api/download', ...) *)
| Sleep (ms : Z)                         (* setTimeout *)
| ConsoleError (filename : list ascii) (attempt : nat)
| SaveFile (filename : list ascii)       (* link.click() *)
| SaveZip (name : list ascii) (entries : list (list ascii)).  (* saveAs *)

(** The API route as the page reaches it: a request arriving at the given
    time is answered and the server's store updated. *)
Definition Api : Type :=
  Handler.Request → Z → gmap string Quota.Entry →
  Handler.Response * gmap string Quota.Entry.

(** The route [/api/download] of this repository: [Handler.handler], all
    its clock readings being the arrival time.  When an exception leaves
    the handler Next.js answers with status 500. *)
Definition deployed
    (extract : list ascii → Extractor.Error + list Types.BehanceImage) : Api :=
  λ req now st,
    match
      Handler.handler extract
        {| Handler.checked := now; Handler.pushed := now; Handler.answered := now |}
        req st
    with
    | (Some response, st') => (response, st')
    | (None, st') =>
        ({| Handler.status := 500; Handler.payload := Handler.InternalServerError |},
         st')
    end.

(** The surroundings of the page: the image transport (the outcome of the
    [n]-th image request, [None] for a transport error or a status
    outside 2xx), the API behind [/api/download], and the address headers
    the server sees on the page's requests. *)
Record Env := {
  transport : list ascii → nat → option HttpResponse;
  api : Api;
  forwardedFor : option Handler.Forwarded;
  remoteAddress : option string
}.

Record World := {
  home : Home;
  rateLimitStore : gmap string Quota.Entry;   (* the API's store *)
  clock : Z;
  requests : nat;                             (* image requests so far *)
  trace : list Event
}.

Definition setHome (f : Home → Home) (w : World) : World :=
  {| home := f (home w); rateLimitStore := rateLimitStore w;
     clock := clock w; requests := requests w; trace := trace w |}.

Definition emit (e : Event) (w : World) : World :=
  {| home := home w; rateLimitStore := rateLimitStore w;
     clock := clock w; requests := requests w; trace := trace w ++ [e] |}.

(** [await new Promise(resolve => setTimeout(resolve, ms))] *)
Definition sleep (ms : Z) (w : World) : World :=
  emit (Sleep ms)
    {| home := home w; rateLimitStore := rateLimitStore w;
       clock := clock w + ms; requests := requests w; trace := trace w |}.

(** [axios.get(image.url, ...)]: rejects on a transport error and on a
    status outside 2xx. *)
Definition axiosGet (env : Env) (url : list ascii) (w : World)
  : option HttpResponse * World :=
  let r := transport env url (requests w) in
  (r, emit (Get url (bool_decide (is_Some r)))
        {| home := home w; rateLimitStore := rateLimitStore w;
           clock := clock w; requests := S (requests w); trace := trace w |}).

Definition rateLimitOf (p : Handler.Payload) : option Types.RateLimitInfo :=
  match p with
  | Handler.Ended | Handler.InternalServerError => None
  | Handler.ErrorJson _ r | Handler.ImagesJson _ r
  | Handler.ClientDownloadJson r | Handler.RecordedJson r
  | Handler.ServerErrorJson r => Some r
  end.

(** The request [recordDownload] posts: [{ action: 'download' }]. *)
Definition recordRequest (env : Env) : Handler.Request :=
  {| Handler.method := Handler.POST;
     Handler.forwardedFor := forwardedFor env;
     Handler.remoteAddress := remoteAddress env;
     Handler.body := Some {| Handler.url := None;
                             Handler.action := Some "download" |} |}.

(** The page's [recordDownload]: axios rejects on a status outside 2xx,
    and the function rethrows ([None]); otherwise it returns
    [response.data.rateLimit]. *)
Definition recordDownload (env : Env) (w : World)
  : option (option Types.RateLimitInfo) * World :=
  let '(resp, st) := api env (recordRequest env) (clock w) (rateLimitStore w) in
  let w' :=
    emit (Post (Handler.status resp))
      {| home := home w; rateLimitStore := st;
         clock := clock w; requests := requests w; trace := trace w |} in
  if decide (200 ≤ Handler.status resp < 300)
  then (Some (rateLimitOf (Handler.payload resp)), w')
  else (None, w').

(** ASCII lower case, as the platform applies it to media types. *)
Definition toAsciiLowerCase (c : ascii) : ascii :=
  if isUpper c then ascii_of_nat (nat_of_ascii c + 32) else c.

Definition isPrintable (c : ascii) : bool :=
  (32 <=? nat_of_ascii c)%nat && (nat_of_ascii c <=? 126)%nat.

(** The [type] of [new Blob(parts, { type })]: the given type in ASCII
    lower case, or the empty string when one of its characters lies
    outside U+0020 to U+007E. *)
Definition blobTypeOf (type : list ascii) : list ascii :=
  if forallb isPrintable type then map toAsciiLowerCase type else [].

(** The [try] block of [downloadWithRetry]: [None] when it throws. *)
Definition attemptOnce (env : Env) (image : Types.BehanceImage) (w : World)
  : option Blob * World :=
  match axiosGet env (Types.url image) w with
  | (None, w1) => (None, w1)
  | (Some response, w1) =>
      match recordDownload env w1 with
      | (None, w2) => (None, w2)
      | (Some newRateLimit, w2) =>
          (Some {| blobData := data response;
                   blobType := blobTypeOf
                                 match contentType response with
                                 | Some (c :: t) => c :: t
                                 | _ => lit "image/jpeg"
                                 end |},
           setHome (λ h, {| rateLimitInfo := newRateLimit;
                            showRateLimitModal := showRateLimitModal h;
                            isPreviewMinimized := isPreviewMinimized h;
                            isDownloading := isDownloading h;
                            downloadedImages := downloadedImages h;
                            failedDownloads := failedDownloads h;
                            downloadProgress := downloadProgress h;
                            downloadMode := downloadMode h |}) w2)
      end
  end.

(** [downloadWithRetry] *)
Equations downloadWithRetry (env : Env) (image : Types.BehanceImage)
    (attempt : nat) (w : World) : option Blob * World
    by wf (MAX_RETRIES - attempt)%nat lt :=
  downloadWithRetry env image attempt w with attemptOnce env image w => {
    | (Some blob, w1) := (Some blob, w1);
    | (None, w1) with lt_dec attempt MAX_RETRIES => {
        | left _ :=
            downloadWithRetry env image (S attempt)
              (sleep (RETRY_DELAY * Z.of_nat attempt)
                 (emit (ConsoleError (Types.filename image) attempt) w1));
        | right _ :=
            (None, emit (ConsoleError (Types.filename image) attempt) w1) } }.
Next Obligation. unfold MAX_RETRIES in *. lia. Qed.

(** [/\.[^/.]+$/]: a dot and then, up to the end, one or more characters
    that are neither a slash nor a dot. *)
Definition re_extension : Matcher :=
  λ s, match s with
       | "."%char :: c :: t =>
           if forallb (λ x, negb (bool_decide (x = "/"%char))
                            && negb (bool_decide (x = "."%char))) (c :: t)
           then Some (List.length s) else None
       | _ => None
       end.

(** The extension for the content type of a fetched blob. *)
Definition extensionOf (contentType : list ascii) : list ascii :=
  if includes contentType (lit "webp") then lit ".webp"
  else if includes contentType (lit "png") then lit ".png"
  else lit ".jpg".

(** [image.filename.replace(/\.[^/.]+$/, '') + extension] *)
Definition correctedFilename (image : Types.BehanceImage) (blob : Blob)
  : list ascii :=
  replaceFirst re_extension [] (Types.filename image) ++
  extensionOf (blobType blob).

Definition setDownloadedImages (f : list (list ascii) → list (list ascii))
    (h : Home) : Home :=
  {| rateLimitInfo := rateLimitInfo h;
     showRateLimitModal := showRateLimitModal h;
     isPreviewMinimized := isPreviewMinimized h;
     isDownloading := isDownloading h;
     downloadedImages := f (downloadedImages h);
     failedDownloads := failedDownloads h;
     downloadProgress := downloadProgress h;
     downloadMode := downloadMode h |}.

Definition setFailedDownloads (l : list (list ascii)) (h : Home) : Home :=
  {| rateLimitInfo := rateLimitInfo h;
     showRateLimitModal := showRateLimitModal h;
     isPreviewMinimized := isPreviewMinimized h;
     isDownloading := isDownloading h;
     downloadedImages := downloadedImages h;
     failedDownloads := l;
     downloadProgress := downloadProgress h;
     downloadMode := downloadMode h |}.

Definition setDownloadProgress (p : nat * nat) (h : Home) : Home :=
  {| rateLimitInfo := rateLimitInfo h;
     showRateLimitModal := showRateLimitModal h;
     isPreviewMinimized := isPreviewMinimized h;
     isDownloading := isDownloading h;
     downloadedImages := downloadedImages h;
     failedDownloads := failedDownloads h;
     downloadProgress := p;
     downloadMode := downloadMode h |}.

Definition setIsDownloading (b : bool) (h : Home) : Home :=
  {| rateLimitInfo := rateLimitInfo h;
     showRateLimitModal := showRateLimitModal h;
     isPreviewMinimized := isPreviewMinimized h;
     isDownloading := b;
     downloadedImages := downloadedImages h;
     failedDownloads := failedDownloads h;
     downloadProgress := downloadProgress h;
     downloadMode := downloadMode h |}.

Definition setIsPreviewMinimized (b : bool) (h : Home) : Home :=
  {| rateLimitInfo := rateLimitInfo h;
     showRateLimitModal := showRateLimitModal h;
     isPreviewMinimized := b;
     isDownloading := isDownloading h;
     downloadedImages := downloadedImages h;
     failedDownloads := failedDownloads h;
     downloadProgress := downloadProgress h;
     downloadMode := downloadMode h |}.

Definition setShowRateLimitModal (b : bool) (h : Home) : Home :=
  {| rateLimitInfo := rateLimitInfo h;
     showRateLimitModal := b;
     isPreviewMinimized := isPreviewMinimized h;
     isDownloading := isDownloading h;
     downloadedImages := downloadedImages h;
     failedDownloads := failedDownloads h;
     downloadProgress := downloadProgress h;
     downloadMode := downloadMode h |}.

(** The locals of the two download loops: the files put in the archive
    (archive mode only), [failed] and [completed]. *)
Record Run := {
  zipped : list (list ascii);
  failed : list (list ascii);
  completed : nat
}.

(** The body of the loop of [downloadAsZip], for a run over [total] images. *)
Definition zipStep (env : Env) (total : nat) (acc : Run * World)
    (image : Types.BehanceImage) : Run * World :=
  let '(run, w) := acc in
  let '(blob, w1) := downloadWithRetry env image 1 w in
  let '(run1, w2) :=
    match blob with
    | Some b =>
        let filename := correctedFilename image b in
        ({| zipped := zipped run ++ [filename]; failed := failed run;
            completed := completed run |},
         setHome (setDownloadedImages (λ prev, prev ++ [filename])) w1)
    | None =>
        ({| zipped := zipped run;
            failed := failed run ++ [Types.filename image];
            completed := completed run |}, w1)
    end in
  ({| zipped := zipped run1; failed := failed run1;
      completed := S (completed run1) |},
   setHome (setDownloadProgress (S (completed run1), total)) w2).

(** [downloadAsZip] *)
Definition downloadAsZip (env : Env) (images : list Types.BehanceImage)
    (w : World) : World :=
  let '(run, w1) :=
    foldl (zipStep env (List.length images))
          ({| zipped := []; failed := []; completed := 0 |}, w) images in
  let w2 :=
    match failed run with
    | [] => w1
    | _ :: _ => setHome (setFailedDownloads (failed run)) w1
    end in
  let projectName :=
    match images with
    | first :: _ =>
        match splitHead "_" (Types.filename first) with
        | [] => lit "behance-gallery"
        | c :: t => c :: t
        end
    | [] => lit "behance-gallery"
    end in
  emit (SaveZip (projectName ++ lit "-gallery.zip") (zipped run)) w2.

(** The body of the loop of [downloadIndividually]. *)
Definition individualStep (env : Env) (total : nat) (acc : Run * World)
    (image : Types.BehanceImage) : Run * World :=
  let '(run, w) := acc in
  let '(blob, w1) := downloadWithRetry env image 1 w in
  let '(run1, w2) :=
    match blob with
    | Some b =>
        let filename := correctedFilename image b in
        (run,
         setHome (setDownloadedImages (λ prev, prev ++ [filename]))
           (emit (SaveFile filename) w1))
    | None =>
        ({| zipped := zipped run;
            failed := failed run ++ [Types.filename image];
            completed := completed run |}, w1)
    end in
  ({| zipped := zipped run1; failed := failed run1;
      completed := S (completed run1) |},
   sleep 500 (setHome (setDownloadProgress (S (completed run1), total)) w2)).

(** [downloadIndividually] *)
Definition downloadIndividually (env : Env) (images : list Types.BehanceImage)
    (w : World) : World :=
  let '(run, w1) :=
    foldl (individualStep env (List.length images))
          ({| zipped := []; failed := []; completed := 0 |}, w) images in
  match failed run with
  | [] => w1
  | _ :: _ => setHome (setFailedDownloads (failed run)) w1
  end.

(** [downloadImages]; [downloadMode] is the one of the render that made
    the callback. *)
Definition downloadImages (env : Env) (images : list Types.BehanceImage)
    (w : World) : World :=
  let mode := downloadMode (home w) in
  let w0 :=
    setHome (λ h, setFailedDownloads []
                    (setDownloadProgress (0%nat, 1%nat)
                       (setDownloadedImages (λ _, [])
                          (setIsDownloading true h)))) w in
  let w1 :=
    match mode with
    | zip => downloadAsZip env images w0
    | individual => downloadIndividually env images w0
    end in
  setHome (setIsDownloading false) w1.

(** [handleDownload]; [rateLimitInfo] is the snapshot held by the page. *)
Definition handleDownload (env : Env)
    (selectedImages : list Types.BehanceImage) (w : World) : World :=
  match selectedImages with
  | [] => w
  | _ :: _ =>
      match rateLimitInfo (home w) with
      | Some info =>
          if decide (Types.remaining info < Z.of_nat (List.length selectedImages))
          then setHome (setShowRateLimitModal true) w
          else downloadImages env selectedImages
                 (setHome (setIsPreviewMinimized true) w)
      | None =>
          downloadImages env selectedImages
            (setHome (setIsPreviewMinimized true) w)
      end
  end.

End Client.

(** ** The preview dialog of src/components/PreviewModal.tsx *)

Module Preview.
Import Js.

(** The [filters] state; [minWidth] is the value of a number input, taken
    here as a whole number. *)
Record Filters := {
  skipIcons : bool;
  skipProfiles : bool;
  minWidth : Z
}.

(** [useState({ skipIcons: true, skipProfiles: true, minWidth: 800 })] *)
Definition initialFilters : Filters :=
  {| skipIcons := true; skipProfiles := true; minWidth := 800 |}.

Definition iconPatterns : list (list ascii) :=
  [lit "icon"; lit "logo"; lit "thumb"; lit "svg"; lit "badge";
   lit "button"; lit "small"; lit "favicon"; lit "symbol"].

Definition profilePatterns : list (list ascii) :=
  [lit "profile"; lit "avatar"; lit "user-pic"; lit "user-image";
   lit "portrait"; lit "headshot"].

(** The canonical form of a character under the [i] flag, as far as it
    concerns patterns of ASCII letters: a character outside ASCII never
    matches one inside. *)
Definition foldCase (c : ascii) : ascii :=
  if isUpper c then ascii_of_nat (nat_of_ascii c + 32) else c.

(** [/pattern/i.test(s)] for a pattern of lower-case letters and hyphens. *)
Definition testIgnoreCase (pattern s : list ascii) : bool :=
  includes (map foldCase s) pattern.

(** [parseInt] of a string of digits. *)
Definition parseInt (s : list ascii) : Z :=
  foldl (λ n c, 10 * n + (Z.of_nat (nat_of_ascii c) - 48)) 0 s.

(** [/\/(\d+)x(\d+)\//] at the head of [s]: the two captures. *)
Definition dimensionsHere (s : list ascii) : option (list ascii * list ascii) :=
  match s with
  | "/"%char :: s1 =>
      match Extractor.digits s1 with
      | [] => None
      | d :: ds =>
          match drop (List.length (d :: ds)) s1 with
          | "x"%char :: s2 =>
              match Extractor.digits s2 with
              | [] => None
              | e :: es =>
                  match drop (List.length (e :: es)) s2 with
                  | "/"%char :: _ => Some (d :: ds, e :: es)
                  | _ => None
                  end
              end
          | _ => None
          end
      end
  | _ => None
  end.

(** [s.match(/\/(\d+)x(\d+)\//)]: the captures of the leftmost match. *)
Fixpoint matchDimensions (s : list ascii) : option (list ascii * list ascii) :=
  match dimensionsHere s with
  | Some r => Some r
  | None => match s with [] => None | _ :: s' => matchDimensions s' end
  end.

(** The predicate of [images.filter(...)] in [filterImages]. *)
Definition keeps (filters : Filters) (image : Types.BehanceImage) : bool :=
  let url := toLowerCase (Types.url image) in
  let filename := toLowerCase (Types.filename image) in
  if skipIcons filters &&
     existsb (λ pattern, testIgnoreCase pattern url ||
                         testIgnoreCase pattern filename) iconPatterns
  then false
  else if skipProfiles filters &&
          existsb (λ pattern, testIgnoreCase pattern url ||
                              testIgnoreCase pattern filename) profilePatterns
  then false
  else
    match matchDimensions url with
    | Some (width, height) =>
        if bool_decide (parseInt width < minWidth filters) ||
           bool_decide (parseInt height < minWidth filters)
        then false else true
    | None => true
    end.

(** [filterImages]: the new value of [filteredImages]. *)
Definition filterImages (filters : Filters) (images : list Types.BehanceImage)
  : list Types.BehanceImage :=
  List.filter (keeps filters) images.

(** [toggleImage]: the new value of [selectedImages]. *)
Definition toggleImage (url : list ascii) (selectedImages : gset (list ascii))
  : gset (list ascii) :=
  if decide (url ∈ selectedImages) then selectedImages ∖ {[url]}
  else {[url]} ∪ selectedImages.

(** [toggleAll] *)
Definition toggleAll (filteredImages : list Types.BehanceImage)
    (selectedImages : gset (list ascii)) : gset (list ascii) :=
  if decide (size selectedImages = List.length filteredImages) then ∅
  else list_to_set (map Types.url filteredImages).

(** The argument of [onConfirm]:
    [filteredImages.filter(img => selectedImages.has(img.url))]. *)
Definition confirmed (filteredImages : list Types.BehanceImage)
    (selectedImages : gset (list ascii)) : list Types.BehanceImage :=
  List.filter (λ img, bool_decide (Types.url img ∈ selectedImages))
    filteredImages.

End Preview.

(** * Vocabulary of the properties *)

(** ** Vocabulary: the quota tracker *)

Module QuotaDefs.
Import Quota.

(** A run of consecutive [recordDownload] calls of one client, each with
    its two clock readings. *)
Fixpoint recordMany (calls : list (Z * Z)) (clientIp : string)
    (rateLimitStore : gmap string Entry) : gmap string Entry :=
  match calls with
  | [] => rateLimitStore
  | (pushed, now) :: rest =>
      recordMany rest clientIp
        (recordDownload pushed now clientIp rateLimitStore).2
  end.

(** The events of an entry that are less than one window old at [T]. *)
Definition recent (T : Z) (e : Entry) : list Z :=
  filter (λ timestamp, subHours T 1 < timestamp) (downloads e).

(** The window a client has after an observation at [now]. *)
Definition observed (now : Z) (old : option Entry) : Entry :=
  match old with
  | None => fresh now
  | Some store =>
      if decide (resetTime store < now) then fresh now
      else {| downloads := recent now store; resetTime := resetTime store |}
  end.

(** The snapshot that reports a window. *)
Definition snapshot (e : Entry) : Types.RateLimitInfo :=
  {| Types.used := Z.of_nat (List.length (downloads e));
     Types.limit := HOURLY_LIMIT;
     Types.remaining := Z.max 0 (HOURLY_LIMIT - Z.of_nat (List.length (downloads e)));
     Types.resetTime := resetTime e |}.

(** The store can be read under [clientIp]: it has an entry there, or the
    name is not one every object inherits. *)
Definition readable (clientIp : string) (st : gmap string Entry) : Prop :=
  st !! clientIp = None → clientIp ∉ inheritedKeys.

(** No entry stands under an inherited name.  This holds of the empty
    store the module starts with, and every function keeps it. *)
Definition noForeign (st : gmap string Entry) : Prop :=
  ∀ k, k ∈ inheritedKeys → st !! k = None.

(** What [getRateLimitInfo] returns, and the store it leaves, under a key
    the store can be read under. *)
Definition observation (now : Z) (clientIp : string) (st : gmap string Entry)
  : Types.RateLimitInfo * gmap string Entry :=
  (snapshot (observed now (st !! clientIp)),
   <[clientIp := observed now (st !! clientIp)]> st).

(** The same for [recordDownload]. *)
Definition recording (pushed now : Z) (clientIp : string)
    (st : gmap string Entry) : Types.RateLimitInfo * gmap string Entry :=
  match st !! clientIp with
  | None => observation now clientIp st
  | Some store =>
      observation now clientIp
        (<[clientIp := {| downloads := downloads store ++ [pushed];
                          resetTime := resetTime store |}]> st)
  end.

(** A snapshot within its bounds. *)
Definition wellFormed (info : Types.RateLimitInfo) : Prop :=
  Types.limit info = 20 ∧ 0 ≤ Types.used info ∧ 0 ≤ Types.remaining info ≤ 20.

(** The events the store holds for a client, none when it has no window. *)
Definition events (clientIp : string) (st : gmap string Entry) : list Z :=
  default [] (downloads <$> st !! clientIp).

End QuotaDefs.

(** ** Vocabulary: the gallery URL normaliser *)

Module NormalizeDefs.
Import Js Extractor.

(** A query string: nothing, or a question mark and what follows it. *)
Definition isQuery (q : list ascii) : Prop :=
  q = [] ∨ ∃ q', q = "?"%char :: q'.

End NormalizeDefs.

(** ** Vocabulary: file name sanitation *)

Module SanitizeDefs.
Import Js Extractor.

Definition isUnderscore (c : ascii) : bool := bool_decide (c = "_"%char).

(** The characters of a sanitised name: lower-case letters, digits and the
    separator. *)
Definition okChar (c : ascii) : bool := isLower c || isDigit c || isUnderscore c.

(** No two separators in a row. *)
Fixpoint noAdjacent (s : list ascii) : bool :=
  match s with
  | c :: (d :: _) as s' => negb (isUnderscore c && isUnderscore d) && noAdjacent s'
  | _ => true
  end.

(** The stages of [sanitizeFilename] before the length cap. *)
Definition replaced (name : list ascii) : list ascii :=
  replaceAll re_non_alnum (lit "_") (toLowerCase name).
Definition collapsed (name : list ascii) : list ascii :=
  replaceAll re_underscores (lit "_") (replaced name).
Definition trimmed (name : list ascii) : list ascii :=
  replaceAllBos re_edge_underscore_bos re_last_underscore [] (collapsed name).

(** The claim as the specification words it: a non-empty lower-case name
    of at most 50 characters, separators never doubled, none leading and
    none trailing. *)
Definition sanitizedAsClaimed (r : list ascii) : Prop :=
  r ≠ [] ∧ (List.length r ≤ 50)%nat ∧ forallb okChar r = true ∧
  noAdjacent r = true ∧ head r ≠ Some "_"%char ∧ last r ≠ Some "_"%char.

End SanitizeDefs.

(** ** Vocabulary: the image URL upscaler *)

Module UpscaleDefs.
Import Js Extractor.

Definition plainHttp : list ascii :=
  lit "http://mir-s3-cdn-cf.behance.net/project_modules/1400/a.jpg".

End UpscaleDefs.

(** ** Vocabulary: extraction *)

Module ExtractionDefs.
Import Js Extractor.

(** The references of [l] that do not repeat one of [earlier] or an
    earlier one of [l], in their order. *)
Fixpoint firstSeenFrom (earlier l : list (list ascii)) : list (list ascii) :=
  match l with
  | [] => []
  | x :: l' =>
      if decide (x ∈ earlier) then firstSeenFrom earlier l'
      else x :: firstSeenFrom (earlier ++ [x]) l'
  end.

(** The number of references of [l] that repeat one of [earlier] or an
    earlier one of [l]. *)
Fixpoint duplicatesFrom (earlier l : list (list ascii)) : nat :=
  match l with
  | [] => 0
  | x :: l' =>
      if decide (x ∈ earlier) then S (duplicatesFrom earlier l')
      else duplicatesFrom (earlier ++ [x]) l'
  end.

Definition firstSeen := firstSeenFrom [].
Definition duplicates := duplicatesFrom [].

(** The file name of the [i]-th descriptor (from 1). *)
Definition nameOf (title : list ascii) (i : nat) (url : list ascii) : list ascii :=
  sanitizeFilename title ++ lit "_" ++ decimal i ++ getExtensionFromUrl url.

Definition urlsOf (st : Found) : list (list ascii) :=
  map Types.url (images st).

(** The invariant of the loop. *)
Definition wellNamed (title : list ascii) (st : Found) : Prop :=
  (∀ u, u ∈ seen st ↔ u ∈ urlsOf st) ∧
  NoDup (urlsOf st) ∧
  ∀ i img, images st !! i = Some img →
           Types.filename img = nameOf title (S i) (Types.url img).

End ExtractionDefs.

(** ** Vocabulary: the download orchestration *)

Module ClientDefs.
Import Js Client.

(** A transport whose first two image requests fail and whose later ones
    succeed, seen by the server from one address. *)
Definition flaky : Env :=
  {| transport := λ _ n,
       if (n <? 2)%nat then None
       else Some {| data := lit "bytes"; contentType := Some (lit "image/png") |};
     api := deployed (λ _, inl Extractor.UpstreamLoadError);
     forwardedFor := Some (Handler.FwdString "203.0.113.7");
     remoteAddress := None |}.

Definition picture : Types.BehanceImage :=
  {| Types.url := lit "https://mir-s3-cdn-cf.behance.net/project_modules/2000/a.png";
     Types.filename := lit "project_1.png" |}.

Definition idle (info : option Types.RateLimitInfo) : World :=
  {| home := {| rateLimitInfo := info; showRateLimitModal := false;
                isPreviewMinimized := false; isDownloading := false;
                downloadedImages := []; failedDownloads := [];
                downloadProgress := (0%nat, 1%nat); downloadMode := zip |};
     rateLimitStore := ∅; clock := 0; requests := 0; trace := [] |}.

Definition wholeQuota : Types.RateLimitInfo :=
  {| Types.used := 0; Types.limit := 20; Types.remaining := 20;
     Types.resetTime := 3600000 |}.

(** The URLs of the image requests made so far. *)
Definition fetched (w : World) : list (list ascii) :=
  omap (λ e, match e with Get u _ => Some u | _ => None end) (trace w).

(** C1 as the specification words it: with [remaining] units left and
    more descriptors selected, the run fetches the first [remaining]
    descriptors, leaves the others unattempted and raises the quota
    signal. *)
Definition haltsOnceExhausted (env : Env)
    (selectedImages : list Types.BehanceImage) (w : World) : Prop :=
  ∀ info, rateLimitInfo (home w) = Some info →
    0 ≤ Types.remaining info < Z.of_nat (List.length selectedImages) →
    let w' := handleDownload env selectedImages w in
    showRateLimitModal (home w') = true ∧
    ∀ i img, selectedImages !! i = Some img →
      Types.url img ∈ fetched w' ↔ Z.of_nat i < Types.remaining info.

Definition steady : Env :=
  {| transport := λ _ _, Some {| data := lit "bytes"; contentType := None |};
     api := deployed (λ _, inl Extractor.UpstreamLoadError);
     forwardedFor := Some (Handler.FwdString "203.0.113.7");
     remoteAddress := None |}.

Definition numbered (n : string) : Types.BehanceImage :=
  {| Types.url := lit "https://mir-s3-cdn-cf.behance.net/project_modules/2000/" ++ lit n;
     Types.filename := lit "project_" ++ lit n ++ lit ".jpg" |}.

Definition five : list Types.BehanceImage :=
  [numbered "1"; numbered "2"; numbered "3"; numbered "4"; numbered "5"].

Definition threeLeft : Types.RateLimitInfo :=
  {| Types.used := 17; Types.limit := 20; Types.remaining := 3;
     Types.resetTime := 3600000 |}.

(** The blob [downloadWithRetry] makes of a response: its bytes, and as
    type the content type of the response, or [image/jpeg] when it has
    none, as [new Blob] keeps it. *)
Definition blobOf (response : HttpResponse) : Blob :=
  {| blobData := data response;
     blobType := blobTypeOf
                   match contentType response with
                   | Some (c :: t) => c :: t
                   | _ => lit "image/jpeg"
                   end |}.

(** The flaky transport in front of an API that accepts every record
    request. *)
Definition lenient : Env :=
  {| transport := transport flaky;
     api := λ _ _ st,
       ({| Handler.status := 200;
           Handler.payload := Handler.RecordedJson wholeQuota |}, st);
     forwardedFor := Some (Handler.FwdString "203.0.113.7");
     remoteAddress := None |}.

(** The outcome of the [k]-th image request from [w] on. *)
Definition outcome (env : Env) (image : Types.BehanceImage) (w : World)
    (k : nat) : option HttpResponse :=
  transport env (Types.url image) (requests w + k)%nat.

(** The books of the page: the state only the download loops write. *)
Definition sameBooks (h h' : Home) : Prop :=
  downloadedImages h' = downloadedImages h ∧
  failedDownloads h' = failedDownloads h ∧
  downloadProgress h' = downloadProgress h ∧
  isDownloading h' = isDownloading h.

(** One turn of a download loop over [total] images, from [acc] to
    [acc']: the image is counted, and it is entered either in the failure
    list or in the list of downloaded files. *)
Definition stepped (total : nat) (acc : Run * World)
    (image : Types.BehanceImage) (acc' : Run * World) : Prop :=
  completed acc'.1 = S (completed acc.1) ∧
  downloadProgress (home acc'.2) = (S (completed acc.1), total) ∧
  isDownloading (home acc'.2) = isDownloading (home acc.2) ∧
  failedDownloads (home acc'.2) = failedDownloads (home acc.2) ∧
  (requests acc.2 < requests acc'.2 ≤ requests acc.2 + 3)%nat ∧
  ((failed acc'.1 = failed acc.1 ++ [Types.filename image] ∧
    downloadedImages (home acc'.2) = downloadedImages (home acc.2)) ∨
   (failed acc'.1 = failed acc.1 ∧
    ∃ name, downloadedImages (home acc'.2) =
            downloadedImages (home acc.2) ++ [name])).

(** A whole loop over [images]. *)
Definition accounted (total : nat) (acc : Run * World)
    (images : list Types.BehanceImage) (acc' : Run * World) : Prop :=
  completed acc'.1 = (completed acc.1 + List.length images)%nat ∧
  (images ≠ [] → downloadProgress (home acc'.2) = (completed acc'.1, total)) ∧
  isDownloading (home acc'.2) = isDownloading (home acc.2) ∧
  failedDownloads (home acc'.2) = failedDownloads (home acc.2) ∧
  (requests acc.2 + List.length images ≤ requests acc'.2
   ≤ requests acc.2 + 3 * List.length images)%nat ∧
  ∃ f d,
    failed acc'.1 = failed acc.1 ++ f ∧
    downloadedImages (home acc'.2) = downloadedImages (home acc.2) ++ d ∧
    sublist f (map Types.filename images) ∧
    (List.length f + List.length d = List.length images)%nat.

(** The waits of a call of [downloadWithRetry] that made [n] requests. *)
Definition waited (n : nat) : Z :=
  match n with
  | 0%nat | 1%nat => 0
  | 2%nat => 1000
  | _ => 3000
  end.

End ClientDefs.

(** ** Vocabulary: path segments *)

Module SegmentDefs.
Import Js.

Definition slash : ascii := "/"%char.

Definition noSlash (g : list ascii) : Prop := slash ∉ g.

Fixpoint flat (gs : list (list ascii)) : list ascii :=
  match gs with
  | [] => []
  | g :: gs' => slash :: g ++ flat gs'
  end.

Definition hit (o : option nat) : nat :=
  match o with Some _ => 1 | None => 0 end.

(** The number of positions of [s] at which [m] matches. *)
Fixpoint occurrences (m : Matcher) (s : list ascii) : nat :=
  hit (m s) +
  match s with
  | [] => 0
  | _ :: s' => occurrences m s'
  end.

(** A pattern on segments: [sm gs = Some j] when it matches the first [j]
    segments of [gs] (and the slash that follows them). *)
Definition SegMatcher := list (list ascii) → option nat.

Fixpoint replaceSeg (sm : SegMatcher) (r : list ascii)
    (gs : list (list ascii)) : list (list ascii) :=
  match gs with
  | [] => []
  | g :: gs' =>
      match sm gs with
      | Some j => r :: drop j gs
      | None => g :: replaceSeg sm r gs'
      end
  end.

Fixpoint countSeg (sm : SegMatcher) (gs : list (list ascii)) : nat :=
  match gs with
  | [] => 0
  | g :: gs' => hit (sm gs) + countSeg sm gs'
  end.

(** [m] is the pattern [sm] on strings: it needs a slash to start, and on
    a run of segments it matches what [sm] matches, up to and including
    the slash after the last matched segment. *)
Record Anchored (m : Matcher) (sm : SegMatcher) : Prop := {
  anchored_nil : m [] = None;
  anchored_head : ∀ c t, c ≠ slash → m (c :: t) = None;
  anchored_flat : ∀ gs, Forall noSlash gs →
    match sm gs with
    | Some j => (0 < j < List.length gs)%nat ∧
                m (flat gs) = Some (S (List.length (flat (take j gs))))
    | None => m (flat gs) = None
    end
}.

End SegmentDefs.

(** ** Vocabulary: low-resolution markers *)

Module MarkerDefs.
Import Js Extractor SegmentDefs.

(** The segment a size pattern matches: the digits, with or without [H]. *)
Definition isSize (n : string) (g : list ascii) : bool :=
  bool_decide (g = lit n ++ lit "H") || bool_decide (g = lit n).

(** One segment of a given kind, followed by a slash. *)
Definition segOk (ok : list ascii → bool) : SegMatcher :=
  λ gs, match gs with
        | g :: _ :: _ => if ok g then Some 1%nat else None
        | _ => None
        end.

(** [re_size_segment n] on segments. *)
Definition segSize (n : string) : SegMatcher := segOk (isSize n).

Definition noLineTerminator (g : list ascii) : bool :=
  forallb (λ c, negb (isLineTerminator c)) g.

(** [re_fs] on segments: [fs], then a segment without line terminator,
    followed by a slash. *)
Definition segFs : SegMatcher :=
  λ gs, match gs with
        | g1 :: g2 :: _ :: _ =>
            if bool_decide (g1 = lit "fs") && noLineTerminator g2
            then Some 2%nat else None
        | _ => None
        end.

Definition sizes : list string := ["200"; "400"; "600"; "800"; "1400"].

Definition segmentStep (s : list ascii) (n : string) : list ascii :=
  replaceFirst (re_size_segment n) (lit "/2000/") s.

Definition suffixStep (s : list ascii) (n : string) : list ascii :=
  replaceAll (re_size_suffix n) (lit "_2000.") s.

Definition schemeStep (url : list ascii) : list ascii :=
  replaceAtStart (m_lit (lit "//")) (lit "https://") url.

Definition fsStep (s : list ascii) : list ascii :=
  replaceFirst re_fs (lit "/original/") s.

Definition plain (c : ascii) : Prop :=
  isSlash c = false ∧ isLineTerminator c = false.

Definition pathMarkers : list Matcher := re_fs :: map re_size_segment sizes.
Definition suffixMarkers : list Matcher := map re_size_suffix sizes.

(** Some low-resolution marker occurs in [s]. *)
Definition hasMarker (s : list ascii) : bool :=
  existsb (λ m, test m s) (pathMarkers ++ suffixMarkers).

(** [s] asks for the maximum resolution. *)
Definition hasToken (s : list ascii) : bool :=
  includes s (lit "/original/") || includes s (lit "2000").

(** A substitution either leaves the string alone or writes a token. *)
Definition writesToken (step : Matcher * (list ascii → list ascii)) : Prop :=
  ∀ s, (test step.1 s = false → step.2 s = s) ∧
       (test step.1 s = true → hasToken (step.2 s) = true).

Definition steps : list (Matcher * (list ascii → list ascii)) :=
  (re_fs, fsStep) ::
  map (λ n, (re_size_segment n, λ s, segmentStep s n)) sizes ++
  map (λ n, (re_size_suffix n, λ s, suffixStep s n)) sizes.

Definition run (l : list (Matcher * (list ascii → list ascii)))
    (s : list ascii) : list ascii :=
  foldl (λ s step, step.2 s) s l.

(** C3 as stated fails: the path patterns have no [g] flag, so a second
    occurrence of the same size segment stays. *)
Definition twice : list ascii :=
  lit "https://mir-s3-cdn-cf.behance.net/project_modules/200/200/a.jpg".

End MarkerDefs.

(** * Properties *)

(** ** Facts about the string primitives *)

Module JsFacts.
Import Js.

Lemma replaceAllFrom_skip m r k s :
  replaceAllFrom m r k s = replaceAll m r (drop k s).
Proof.
  revert k. induction s as [|c s IH]; intros [|k]; try done.
  simpl. apply IH.
Qed.

Lemma replaceAll_nil m r : replaceAll m r [] = [].
Proof. done. Qed.

(** The global replacement, one match at a time. *)
Lemma replaceAll_cons m r c s :
  replaceAll m r (c :: s) =
  match m (c :: s) with
  | Some n => r ++ replaceAll m r (drop (Nat.pred n) s)
  | None => c :: replaceAll m r s
  end.
Proof.
  unfold replaceAll at 1. simpl.
  destruct (m (c :: s)); [|done]. by rewrite replaceAllFrom_skip.
Qed.

Lemma replaceFirst_cons m r c s :
  replaceFirst m r (c :: s) =
  match m (c :: s) with
  | Some n => r ++ drop n (c :: s)
  | None => c :: replaceFirst m r s
  end.
Proof. done. Qed.

Lemma replaceFirst_nil m r : m [] = None → replaceFirst m r [] = [].
Proof. intros H. simpl. by rewrite H. Qed.

(** A one-character class replaced by one character is a [map]. *)
Lemma replaceAll_class (keep : ascii → bool) (r : ascii) s :
  replaceAll (λ s, match s with
                   | c :: _ => if keep c then None else Some 1%nat
                   | [] => None
                   end) [r] s =
  map (λ c, if keep c then c else r) s.
Proof.
  induction s as [|c s IH]; [done|].
  rewrite replaceAll_cons. destruct (keep c) eqn:Hk; simpl; rewrite ?Hk.
  - by rewrite IH.
  - rewrite drop_0. by rewrite IH.
Qed.

Lemma startsWith_spec s p : startsWith s p = true ↔ ∃ t, s = p ++ t.
Proof.
  revert s. induction p as [|a p IH]; intros s; simpl.
  - destruct s; split; eauto.
  - destruct s as [|b s].
    + split; [done|]. by intros [t Ht].
    + cbn [startsWith]. destruct (decide (a = b)) as [->|Hne].
      * rewrite bool_decide_eq_true_2 by done. cbn [andb]. rewrite IH.
        split; intros [t Ht]; exists t; congruence.
      * rewrite bool_decide_eq_false_2 by done. cbn [andb].
        split; [done|]. intros [t Ht]. congruence.
Qed.

Lemma startsWith_app p t : startsWith (p ++ t) p = true.
Proof. apply startsWith_spec. by exists t. Qed.

Lemma includes_spec s p :
  includes s p = true ↔ ∃ a b, s = a ++ p ++ b.
Proof.
  induction s as [|c s IH].
  - cbn [includes]. rewrite orb_false_r, startsWith_spec. split.
    + intros [t Ht]. by exists [], t.
    + intros (a & b & Hab). destruct a; [|done]. by exists b.
  - cbn [includes]. rewrite orb_true_iff, startsWith_spec, IH. split.
    + intros [[t Ht]|(a & b & ->)].
      * by exists [], t.
      * by exists (c :: a), b.
    + intros ([|d a] & b & Hab).
      * left. by exists b.
      * right. injection Hab as -> ->. by exists a, b.
Qed.

Lemma test_spec m s :
  test m s = true ↔ ∃ i, is_Some (m (drop i s)).
Proof.
  induction s as [|c s IH]; cbn [test].
  - destruct (m []) eqn:Hm.
    + split; [|done]. intros _. exists 0%nat. by rewrite drop_0, Hm.
    + split; [done|]. intros [i Hi]. rewrite drop_nil, Hm in Hi.
      by destruct Hi.
  - destruct (m (c :: s)) eqn:Hm.
    + split; [|done]. intros _. exists 0%nat. by rewrite drop_0, Hm.
    + rewrite IH. split.
      * intros [i Hi]. by exists (S i).
      * intros [[|i] Hi].
        -- rewrite drop_0, Hm in Hi. by destruct Hi.
        -- by exists i.
Qed.

End JsFacts.

(** ** The quota tracker *)

Module QuotaSpec.
Import Quota QuotaDefs.

Lemma subHours_window now : subHours now 1 = now - RATE_LIMIT_WINDOW.
Proof. unfold subHours, addHours, MILLISECONDS_IN_HOUR, RATE_LIMIT_WINDOW. lia. Qed.

Lemma addHours_window now : addHours now 1 = now + RATE_LIMIT_WINDOW.
Proof. unfold addHours, MILLISECONDS_IN_HOUR, RATE_LIMIT_WINDOW. lia. Qed.

Lemma own_readable ip (st : gmap string Entry) e :
  st !! ip = Some e → readable ip st.
Proof. intros He Hnone. congruence. Qed.

Lemma readable_insert ip e (st : gmap string Entry) :
  readable ip (<[ip := e]> st).
Proof. apply (own_readable _ _ e), lookup_insert_eq. Qed.

Lemma readable_cases ip (st : gmap string Entry) :
  readable ip st ∨ (st !! ip = None ∧ ip ∈ inheritedKeys).
Proof.
  destruct (st !! ip) as [e|] eqn:He.
  - left. by apply (own_readable _ _ e).
  - destruct (decide (ip ∈ inheritedKeys)); [by right|].
    left. by intros _.
Qed.

Lemma slot_readable ip (st : gmap string Entry) :
  readable ip st →
  slot st ip = match st !! ip with Some e => Own e | None => Undefined end.
Proof.
  intros Hr. unfold slot. destruct (st !! ip) eqn:He; [done|].
  rewrite decide_False; [done|]. by apply Hr.
Qed.

Lemma slot_inherited ip (st : gmap string Entry) :
  st !! ip = None → ip ∈ inheritedKeys → slot st ip = Inherited.
Proof. intros Hnone Hin. unfold slot. rewrite Hnone. by rewrite decide_True. Qed.

(** Under a readable key [getRateLimitInfo] returns, with the snapshot of
    the window it leaves. *)
Lemma getRateLimitInfo_readable now ip (st : gmap string Entry) :
  readable ip st →
  getRateLimitInfo now ip st =
  (Some (snapshot (observed now (st !! ip))),
   <[ip := observed now (st !! ip)]> st).
Proof.
  intros Hr. unfold getRateLimitInfo. rewrite (slot_readable _ _ Hr).
  unfold observed, snapshot.
  destruct (st !! ip) as [e|]; [|done].
  destruct (decide (resetTime e < now)); done.
Qed.

(** Under an inherited name without entry every function of the tracker
    throws, and the store stays as it is. *)
Lemma inherited_throws pushed now ip (st : gmap string Entry) :
  st !! ip = None → ip ∈ inheritedKeys →
  getRateLimitInfo now ip st = (None, st) ∧
  checkRateLimitOnly now ip st = (None, st) ∧
  recordDownload pushed now ip st = (None, st).
Proof.
  intros Hnone Hin.
  assert (H : getRateLimitInfo now ip st = (None, st)).
  { unfold getRateLimitInfo. by rewrite (slot_inherited _ _ Hnone Hin). }
  split; [done|]. split.
  - unfold checkRateLimitOnly. by rewrite H.
  - unfold recordDownload. by rewrite (slot_inherited _ _ Hnone Hin).
Qed.

Lemma getRateLimitInfo_None now ip (st : gmap string Entry) :
  (getRateLimitInfo now ip st).1 = None →
  ∀ now', getRateLimitInfo now' ip st = (None, st).
Proof.
  intros Hnone now'. destruct (readable_cases ip st) as [Hr|[Habs Hin]].
  - by rewrite getRateLimitInfo_readable in Hnone.
  - apply (inherited_throws 0 now' ip st Habs Hin).
Qed.

Lemma getRateLimitInfo_store now ip (st : gmap string Entry) :
  readable ip st →
  (getRateLimitInfo now ip st).2 = <[ip := observed now (st !! ip)]> st.
Proof. intros Hr. by rewrite getRateLimitInfo_readable. Qed.

Lemma getRateLimitInfo_info now ip (st : gmap string Entry) :
  readable ip st →
  (getRateLimitInfo now ip st).1 = Some (snapshot (observed now (st !! ip))).
Proof. intros Hr. by rewrite getRateLimitInfo_readable. Qed.

Lemma checkRateLimitOnly_readable now ip (st : gmap string Entry) :
  readable ip st →
  checkRateLimitOnly now ip st =
  (Some (bool_decide (0 < Types.remaining (snapshot (observed now (st !! ip)))),
         snapshot (observed now (st !! ip))),
   <[ip := observed now (st !! ip)]> st).
Proof.
  intros Hr. unfold checkRateLimitOnly. by rewrite getRateLimitInfo_readable.
Qed.

Lemma recordDownload_own pushed now ip (st : gmap string Entry) e :
  st !! ip = Some e →
  recordDownload pushed now ip st =
  getRateLimitInfo now ip
    (<[ip := {| downloads := downloads e ++ [pushed];
                resetTime := resetTime e |}]> st).
Proof. intros He. unfold recordDownload, slot. by rewrite He. Qed.

Lemma recordDownload_absent pushed now ip (st : gmap string Entry) :
  st !! ip = None → ip ∉ inheritedKeys →
  recordDownload pushed now ip st = getRateLimitInfo now ip st.
Proof.
  intros Hnone Hout. unfold recordDownload, slot. rewrite Hnone.
  by rewrite decide_False.
Qed.

(** Every function keeps the store free of entries under inherited
    names. *)
Lemma getRateLimitInfo_noForeign now ip (st : gmap string Entry) :
  noForeign st → noForeign (getRateLimitInfo now ip st).2.
Proof.
  intros Hst. destruct (readable_cases ip st) as [Hr|[Hnone Hin]].
  - rewrite getRateLimitInfo_store by done. intros k Hk.
    destruct (decide (k = ip)) as [->|Hne].
    + specialize (Hr (Hst _ Hk)). done.
    + rewrite lookup_insert_ne by done. by apply Hst.
  - by rewrite (proj1 (inherited_throws 0 now ip st Hnone Hin)).
Qed.

Lemma recordDownload_noForeign pushed now ip (st : gmap string Entry) :
  noForeign st → noForeign (recordDownload pushed now ip st).2.
Proof.
  intros Hst. destruct (st !! ip) as [e|] eqn:He.
  - rewrite (recordDownload_own _ _ _ _ e He).
    destruct (decide (ip ∈ inheritedKeys)) as [Hin|Hout].
    { rewrite (Hst _ Hin) in He. done. }
    apply getRateLimitInfo_noForeign. intros k Hk.
    rewrite lookup_insert_ne by (intros ->; done). by apply Hst.
  - destruct (decide (ip ∈ inheritedKeys)) as [Hin|Hout].
    + by rewrite (proj2 (proj2 (inherited_throws pushed now ip st He Hin))).
    + rewrite recordDownload_absent by done.
      by apply getRateLimitInfo_noForeign.
Qed.

Lemma cleanup_noForeign now (st : gmap string Entry) :
  noForeign st → noForeign (cleanupRateLimitStore now st).
Proof.
  intros Hst k Hk. unfold cleanupRateLimitStore.
  apply map_lookup_filter_None. left. by apply Hst.
Qed.

Lemma recent_later T now e :
  now ≤ T →
  filter (λ timestamp, subHours T 1 < timestamp) (recent now e) = recent T e.
Proof.
  intros Hle. unfold recent. rewrite list_filter_filter.
  apply list_filter_iff. intros t. rewrite !subHours_window. lia.
Qed.

(** One recorded download inside an open window adds one recent event. *)
Lemma recordDownload_recent T pushed now ip (st : gmap string Entry) e :
  st !! ip = Some e →
  now ≤ T → T ≤ resetTime e → subHours T 1 < pushed →
  ∃ e', (recordDownload pushed now ip st).2 !! ip = Some e' ∧
        resetTime e' = resetTime e ∧
        List.length (recent T e') = S (List.length (recent T e)).
Proof.
  intros He Hnow HT Hp. rewrite (recordDownload_own _ _ _ _ e He).
  rewrite getRateLimitInfo_store by apply readable_insert.
  rewrite !lookup_insert_eq. unfold observed.
  case_decide as Hexp; [simpl in Hexp; lia|].
  eexists. split; [done|]. split; [done|].
  unfold recent at 1. simpl. rewrite recent_later by done.
  unfold recent. simpl. rewrite filter_app, length_app.
  rewrite filter_cons_True by done. simpl. lia.
Qed.

Lemma recordMany_recent T ip calls : ∀ (st : gmap string Entry) e,
  st !! ip = Some e →
  T ≤ resetTime e →
  Forall (λ c, subHours T 1 < c.1 ∧ c.2 ≤ T) calls →
  ∃ e', recordMany calls ip st !! ip = Some e' ∧
        resetTime e' = resetTime e ∧
        List.length (recent T e') = (List.length (recent T e) + List.length calls)%nat.
Proof.
  induction calls as [|[p q] calls IH]; intros st e He HT Hcalls; simpl.
  - exists e. split; [done|]. split; [done|]. lia.
  - apply Forall_cons in Hcalls as [[Hp Hq] Hcalls]. simpl in Hp, Hq.
    destruct (recordDownload_recent T p q ip st e) as (e1 & He1 & HR & Hlen);
      [done..|].
    destruct (IH _ e1 He1) as (e' & He' & HR' & Hlen'); [lia|done|].
    exists e'. split; [done|]. split; [congruence|]. lia.
Qed.

Lemma peek_expired now ip (st : gmap string Entry) e :
  st !! ip = Some e → resetTime e < now →
  (getRateLimitInfo now ip st).1 =
  Some {| Types.used := 0; Types.limit := HOURLY_LIMIT;
          Types.remaining := HOURLY_LIMIT;
          Types.resetTime := now + RATE_LIMIT_WINDOW |}.
Proof.
  intros He Hexp. rewrite getRateLimitInfo_info by by apply (own_readable _ _ e).
  rewrite He. unfold observed. rewrite decide_True by done.
  unfold snapshot. simpl. by rewrite addHours_window.
Qed.

(** C2. For every client with an open window, after [HOURLY_LIMIT] = 20
    consecutive [recordDownload] calls inside that window (no call later
    than [T], the window not yet reset at [T], every recorded download
    less than one window old at [T]), [getRateLimitInfo] at [T] returns a
    snapshot with [remaining = 0] and [checkRateLimitOnly] returns
    [allowed = false] with that snapshot; and at any [T'] past the reset
    time the next [getRateLimitInfo] returns a snapshot with [used = 0],
    [remaining = limit] and a new, later reset time. *)
Theorem record_limit_then_reset ip (st : gmap string Entry) e calls T T' :
  st !! ip = Some e →
  Z.of_nat (List.length calls) = HOURLY_LIMIT →
  Forall (λ c, subHours T 1 < c.1 ∧ c.2 ≤ T) calls →
  T ≤ resetTime e →
  resetTime e < T' →
  let st1 := recordMany calls ip st in
  let peek := getRateLimitInfo T ip st1 in
  let next := (getRateLimitInfo T' ip peek.2).1 in
  ∃ info info',
    peek.1 = Some info ∧ next = Some info' ∧
    Types.remaining info = 0 ∧
    (checkRateLimitOnly T ip st1).1 = Some (false, info) ∧
    Types.used info' = 0 ∧
    Types.remaining info' = Types.limit info' ∧
    Types.limit info' = HOURLY_LIMIT ∧
    Types.resetTime info' = T' + RATE_LIMIT_WINDOW ∧
    Types.resetTime info < Types.resetTime info'.
Proof.
  intros He Hlen Hcalls HT HT' st1 peek next.
  destruct (recordMany_recent T ip calls st e He HT Hcalls)
    as (e1 & He1 & HR & Hrecent).
  assert (Hread : readable ip st1) by by apply (own_readable _ _ e1).
  assert (Hobs : observed T (st1 !! ip) =
                 {| downloads := recent T e1; resetTime := resetTime e |}).
  { unfold st1. rewrite He1. unfold observed.
    rewrite decide_False by lia. by rewrite HR. }
  assert (Hpeek : peek = (Some (snapshot (observed T (st1 !! ip))),
                          <[ip := observed T (st1 !! ip)]> st1))
    by by apply getRateLimitInfo_readable.
  assert (Hrem : Types.remaining (snapshot (observed T (st1 !! ip))) = 0).
  { rewrite Hobs. unfold snapshot. simpl. rewrite Hrecent. lia. }
  assert (Hnext : next =
            Some {| Types.used := 0; Types.limit := HOURLY_LIMIT;
                    Types.remaining := HOURLY_LIMIT;
                    Types.resetTime := T' + RATE_LIMIT_WINDOW |}).
  { unfold next. rewrite Hpeek. simpl. rewrite Hobs.
    eapply peek_expired; [apply lookup_insert_eq|done]. }
  eexists _, _. split; [by rewrite Hpeek|]. split; [exact Hnext|].
  split; [done|]. split.
  { rewrite checkRateLimitOnly_readable by done. cbn [fst]. rewrite Hrem.
    by rewrite bool_decide_eq_false_2. }
  rewrite Hobs. simpl. unfold RATE_LIMIT_WINDOW. repeat split; lia.
Qed.

(** The scenario of the specification: a window opened at 0, twenty
    downloads recorded at 0, observed after 10 s and after 3601 s. *)
Lemma record_limit_then_reset_witness :
  let ip := "203.0.113.7" in
  let st : gmap string Entry := {[ ip := fresh 0 ]} in
  let calls := replicate 20 (1, 1) in
  let st1 := recordMany calls ip st in
  let peek := getRateLimitInfo 10000 ip st1 in
  let next := (getRateLimitInfo 3601000 ip peek.2).1 in
  ∃ info info',
    peek.1 = Some info ∧ next = Some info' ∧
    Types.remaining info = 0 ∧
    (checkRateLimitOnly 10000 ip st1).1 = Some (false, info) ∧
    Types.used info' = 0 ∧
    Types.remaining info' = Types.limit info' ∧
    Types.limit info' = HOURLY_LIMIT ∧
    Types.resetTime info' = 3601000 + RATE_LIMIT_WINDOW ∧
    Types.resetTime info < Types.resetTime info'.
Proof.
  apply (record_limit_then_reset "203.0.113.7" {[ "203.0.113.7" := fresh 0 ]}
           (fresh 0) (replicate 20 (1, 1)) 10000 3601000).
  - apply lookup_singleton_eq.
  - reflexivity.
  - apply Forall_replicate. split; [reflexivity|vm_compute; discriminate].
  - vm_compute. discriminate.
  - reflexivity.
Defined.

(** The scenario of the specification: three downloads recorded at 0 s,
    observed at 10 s and, past the reset time, at 3601 s. *)
Example three_records_then_reset :
  let st := recordMany [(0, 0); (0, 0); (0, 0)] "203.0.113.7"
              {[ "203.0.113.7" := fresh 0 ]} in
  (getRateLimitInfo 10000 "203.0.113.7" st).1 =
    Some {| Types.used := 3; Types.limit := 20; Types.remaining := 17;
            Types.resetTime := 3600000 |} ∧
  (getRateLimitInfo 3601000 "203.0.113.7" st).1 =
    Some {| Types.used := 0; Types.limit := 20; Types.remaining := 20;
            Types.resetTime := 7201000 |}.
Proof. by vm_compute. Qed.

(** Under every key the store can be read under, [checkRateLimitOnly]
    answers [allowed = (remaining > 0)] for the very snapshot
    [getRateLimitInfo] returns at that instant and leaves the store as
    [getRateLimitInfo] leaves it.  Neither appends an event: the client's
    window afterwards is the fresh, empty one when there was none or it
    had expired, and otherwise the old one with only the events newer
    than [now - RATE_LIMIT_WINDOW] kept, in their order; the windows of
    other clients are untouched. *)
Lemma check_only_observes now ip (st : gmap string Entry) :
  readable ip st →
  let peek := getRateLimitInfo now ip st in
  let consume := checkRateLimitOnly now ip st in
  ∃ info,
    peek.1 = Some info ∧
    consume.1 = Some (bool_decide (Types.remaining info > 0), info) ∧
    consume.2 = peek.2 ∧
    peek.2 !! ip =
      Some (match st !! ip with
            | None => fresh now
            | Some old =>
                if decide (resetTime old < now) then fresh now
                else {| downloads :=
                          filter (λ timestamp, now - RATE_LIMIT_WINDOW < timestamp)
                                 (downloads old);
                        resetTime := resetTime old |}
            end) ∧
    (∀ old e, st !! ip = Some old → peek.2 !! ip = Some e →
              sublist (downloads e) (downloads old)) ∧
    (∀ other, other ≠ ip → peek.2 !! other = st !! other).
Proof.
  intros Hr. cbv zeta.
  rewrite checkRateLimitOnly_readable, getRateLimitInfo_readable by done.
  cbn [fst snd]. eexists. split; [done|]. split.
  { do 2 f_equal. apply bool_decide_ext. lia. }
  split; [done|]. split; [|split].
  - rewrite lookup_insert_eq. reflexivity.
  - intros old e Hold He. rewrite lookup_insert_eq, Hold in He.
    injection He as <-. unfold observed.
    case_decide; simpl; [apply sublist_nil_l|apply sublist_filter].
  - intros other Hne. by apply lookup_insert_ne.
Qed.

(** C9, the failing input.  A request whose [x-forwarded-for] header is
    [constructor] makes [constructor] the client key.  The store is a
    plain object, so [rateLimitStore['constructor']] is the inherited
    [Object] function although no client has an entry: it is truthy and
    not expired, and [store.downloads.filter] throws.  [getRateLimitInfo]
    and [checkRateLimitOnly] fail, on the empty store the module starts
    with, and so on every store the code can build
    ([inherited_throws]). *)
Theorem inherited_key_throws :
  getRateLimitInfo 5 "constructor" ∅ = (None, ∅) ∧
  checkRateLimitOnly 5 "constructor" ∅ = (None, ∅) ∧
  getRateLimitInfo 5 "__proto__" ∅ = (None, ∅).
Proof. by vm_compute. Qed.

End QuotaSpec.

(** ** The request handler *)

Module HandlerSpec.
Import Js Handler QuotaDefs QuotaSpec.

(** For every client key the store can be read under: a POST whose body
    carries a URL containing [behance.net/gallery] and an action other
    than ['search'] and ['download'] is answered by the final statement
    of the handler: status 405, error ['Method not allowed'], with the
    quota snapshot of the client, whose window is observed but gets no
    event. *)
Lemma unknown_action_not_allowed extract t req st b u a :
  method req = POST →
  body req = Some b →
  url b = Some u →
  includes u (lit "behance.net/gallery") = true →
  action b = Some a →
  a ≠ "search" → a ≠ "download" →
  readable (getClientIp req) st →
  let peek := Quota.getRateLimitInfo (checked t) (getClientIp req) st in
  ∃ info,
    peek.1 = Some info ∧
    handler extract t req st =
      (Some {| status := 405; payload := ErrorJson "Method not allowed" info |},
       peek.2).
Proof.
  intros Hm Hb Hu Hinc Ha Hs Hd Hr peek.
  unfold handler, tryBlock. rewrite Hm, Hb, Hu, Ha.
  destruct u as [|c u]; [discriminate|].
  cbv zeta. rewrite Hinc. cbn [negb default].
  rewrite decide_False by done.
  unfold downloadBranch. rewrite decide_False by done.
  unfold methodNotAllowed, peek.
  rewrite getRateLimitInfo_readable by done. by eexists.
Qed.

(** C10, the failing input.  A POST with a gallery URL and the action
    ['preview'] whose [x-forwarded-for] header is [constructor]: both
    action branches are skipped, and the final statement throws while it
    builds its argument, because [getRateLimitInfo('constructor')] reads
    the inherited [Object] function off the plain object that is the
    store.  No 'Method not allowed' answer is sent: the exception leaves
    the handler, and the framework answers 500 without a snapshot. *)
Theorem inherited_client_unanswered :
  let b := {| url := Some (lit "https://www.behance.net/gallery/1/x");
              action := Some "preview" |} in
  let req := {| method := POST;
                forwardedFor := Some (FwdString "constructor");
                remoteAddress := None;
                body := Some b |} in
  let t := {| checked := 5; pushed := 5; answered := 5 |} in
  getClientIp req = "constructor" ∧
  handler (λ _, inl Extractor.UpstreamLoadError) t req ∅ = (None, ∅) ∧
  Client.deployed (λ _, inl Extractor.UpstreamLoadError) req 5 ∅ =
    ({| status := 500; payload := InternalServerError |}, ∅).
Proof. by vm_compute. Qed.

End HandlerSpec.

(** ** The gallery URL normaliser *)

Module NormalizeSpec.
Import Js Extractor NormalizeDefs.

Lemma splitHead_query path q :
  "?"%char ∉ path → isQuery q → splitHead "?" (path ++ q) = path.
Proof.
  intros Hpath Hq. induction path as [|c path IH]; simpl.
  - by destruct Hq as [->|[q' ->]].
  - apply not_elem_of_cons in Hpath as [Hc Hpath].
    rewrite bool_decide_eq_false_2 by congruence.
    f_equal. by apply IH.
Qed.

Lemma re_trailing_slashes_all s :
  s ≠ [] → forallb isSlash s = true →
  replaceFirst re_trailing_slashes [] s = [].
Proof.
  intros Hne Hall. destruct s as [|c s]; [done|].
  unfold replaceFirst, re_trailing_slashes. rewrite Hall.
  simpl. by rewrite drop_all.
Qed.

Lemma strip_trailing_slashes path slashes :
  forallb isSlash slashes = true →
  replaceFirst re_trailing_slashes [] (path ++ slashes) =
  replaceFirst re_trailing_slashes [] path.
Proof.
  intros Hs. induction path as [|c path IH].
  - destruct slashes as [|d slashes]; [done|].
    simpl app. by rewrite re_trailing_slashes_all.
  - change ((c :: path) ++ slashes) with (c :: (path ++ slashes)).
    cbn [replaceFirst]. rewrite IH.
    unfold re_trailing_slashes.
    change (c :: path ++ slashes) with ((c :: path) ++ slashes).
    rewrite forallb_app, Hs, andb_true_r.
    destruct (forallb isSlash (c :: path)) eqn:Hall; [|done].
    rewrite !drop_all. done.
Qed.

(** C6. Two URLs that differ only by a query string and by trailing path
    separators (a common [base] without question mark, then any number of
    slashes, then nothing or [?...]) get the same answer from
    [validateAndCleanUrl]: when one is a valid gallery URL so is the other,
    with the identical canonical URL. *)
Theorem normalize_ignores_query_and_slashes base s1 s2 q1 q2 :
  "?"%char ∉ base →
  forallb isSlash s1 = true → forallb isSlash s2 = true →
  isQuery q1 → isQuery q2 →
  validateAndCleanUrl (base ++ s1 ++ q1) = validateAndCleanUrl (base ++ s2 ++ q2).
Proof.
  intros Hbase Hs1 Hs2 Hq1 Hq2.
  assert (Hclean : ∀ s q, forallb isSlash s = true → isQuery q →
            replaceFirst re_trailing_slashes [] (splitHead "?" (base ++ s ++ q)) =
            replaceFirst re_trailing_slashes [] base).
  { intros s q Hs Hq. rewrite app_assoc, splitHead_query; [|..|done].
    - by apply strip_trailing_slashes.
    - rewrite elem_of_app. intros [?|Hin]; [done|].
      rewrite forallb_forall in Hs. apply list_elem_of_In, Hs in Hin.
      unfold isSlash in Hin. by apply bool_decide_eq_true_1 in Hin. }
  unfold validateAndCleanUrl. by rewrite !Hclean.
Qed.

Lemma normalize_ignores_query_and_slashes_witness :
  validateAndCleanUrl (lit "https://www.behance.net/gallery/123/Name" ++ lit "//" ++ lit "?tracking=1") =
  validateAndCleanUrl (lit "https://www.behance.net/gallery/123/Name" ++ [] ++ [])
  ∧ validateAndCleanUrl (lit "https://www.behance.net/gallery/123/Name" ++ [] ++ []) =
    inr (lit "https://www.behance.net/gallery/123/Name").
Proof.
  split; [|reflexivity].
  apply (normalize_ignores_query_and_slashes
           (lit "https://www.behance.net/gallery/123/Name")
           (lit "//") [] (lit "?tracking=1") []).
  - apply (bool_decide_unpack _). vm_compute. exact I.
  - reflexivity.
  - reflexivity.
  - right. by eexists.
  - by left.
Defined.

End NormalizeSpec.

(** ** File name sanitation *)

Module SanitizeSpec.
Import Js JsFacts Extractor SanitizeDefs.

Lemma sanitizeFilename_stages name :
  sanitizeFilename name =
  match take 50 (trimmed name) with
  | [] => lit "image"
  | c :: s => c :: s
  end.
Proof.
  unfold sanitizeFilename, trimmed, collapsed, replaced, substring0.
  by destruct (take 50 _).
Qed.

Lemma noAdjacent_cons c d s :
  noAdjacent (c :: d :: s) =
  negb (isUnderscore c && isUnderscore d) && noAdjacent (d :: s).
Proof. done. Qed.

Lemma toLowerChar_not_upper c : isUpper (toLowerChar c) = false.
Proof. by destruct c as [[] [] [] [] [] [] [] []]. Qed.

Lemma not_upper_alnum_ok c :
  isUpper c = false → okChar (if isAlnum c then c else "_"%char) = true.
Proof.
  intros Hu. unfold isAlnum, okChar. rewrite Hu, orb_false_r.
  destruct (isLower c) eqn:Hl; simpl; [by rewrite Hl|].
  destruct (isDigit c) eqn:Hd; simpl; [by rewrite Hl, Hd|done].
Qed.

Lemma replaced_ok name : forallb okChar (replaced name) = true.
Proof.
  unfold replaced, re_non_alnum, toLowerCase.
  rewrite (replaceAll_class isAlnum "_"%char).
  apply forallb_forall. intros c Hc.
  apply in_map_iff in Hc as (d & <- & Hd).
  apply in_map_iff in Hd as (e & <- & _).
  apply not_upper_alnum_ok, toLowerChar_not_upper.
Qed.

Lemma underscores_spec s :
  ∃ t, s = replicate (underscores s) "_"%char ++ t ∧
       drop (underscores s) s = t ∧ head t ≠ Some "_"%char.
Proof.
  induction s as [|c s (t & Hs & Hd & Ht)]; simpl.
  - by exists [].
  - case_bool_decide as Hc; simpl.
    + subst c. exists t. by rewrite <- Hs.
    + exists (c :: s). repeat split; simpl; congruence.
Qed.

(** What [/_+/g] does, by strong induction on the rest of the input. *)
Lemma collapse_shape n : ∀ s, (List.length s ≤ n)%nat →
  forallb okChar s = true →
  let r := replaceAll re_underscores (lit "_") s in
  forallb okChar r = true ∧ noAdjacent r = true ∧
  (head s ≠ Some "_"%char → head r ≠ Some "_"%char).
Proof.
  induction n as [|n IH]; intros s Hlen Hok r.
  { destruct s; [done|simpl in Hlen; lia]. }
  destruct s as [|c s]; [done|].
  unfold r. rewrite replaceAll_cons.
  change (re_underscores (c :: s))
    with (match underscores (c :: s) with O => None | S k => Some (S k) end).
  cbn [underscores]. simpl in Hok. apply andb_true_iff in Hok as [Hc Hok].
  case_bool_decide as Hu.
  - destruct (underscores_spec s) as (t & Hs & Hd & Ht).
    cbn [Nat.pred]. rewrite Hd.
    destruct (IH t) as (H1 & H2 & H3).
    { simpl in Hlen. rewrite Hs, length_app in Hlen. lia. }
    { rewrite Hs, forallb_app in Hok. by apply andb_true_iff in Hok as [_ ?]. }
    specialize (H3 Ht).
    change (lit "_" ++ replaceAll re_underscores (lit "_") t)
      with ("_"%char :: replaceAll re_underscores (lit "_") t).
    split; [|split].
    + cbn [forallb]. by rewrite H1.
    + destruct (replaceAll re_underscores (lit "_") t) as [|d r'] eqn:Hr;
        [done|].
      rewrite noAdjacent_cons, H2, andb_true_r.
      unfold isUnderscore at 2.
      rewrite (bool_decide_eq_false_2 (d = "_"%char)); [by rewrite andb_false_r|].
      simpl in H3. congruence.
    + simpl. congruence.
  - destruct (IH s) as (H1 & H2 & H3); [simpl in Hlen; lia|done|].
    split; [|split].
    + cbn [forallb]. by rewrite Hc, H1.
    + destruct (replaceAll re_underscores (lit "_") s) as [|d r'] eqn:Hr;
        [done|].
      rewrite noAdjacent_cons, H2, andb_true_r.
      unfold isUnderscore at 1. by rewrite bool_decide_eq_false_2.
    + simpl. congruence.
Qed.

Lemma collapsed_shape name :
  forallb okChar (collapsed name) = true ∧ noAdjacent (collapsed name) = true.
Proof.
  destruct (collapse_shape (List.length (replaced name)) (replaced name))
    as (H1 & H2 & _); [done|apply replaced_ok|done].
Qed.

(** What [/_$/g] does. *)
Lemma trim_last s :
  forallb okChar s = true → noAdjacent s = true →
  let r := replaceAll re_last_underscore [] s in
  forallb okChar r = true ∧ noAdjacent r = true ∧
  last r ≠ Some "_"%char ∧ head r = head s ∨
  (* the input is the lone separator *)
  (s = ["_"%char] ∧ r = []).
Proof.
  induction s as [|c s IH]; intros Hok Hadj r; [by left|].
  unfold r. rewrite replaceAll_cons.
  destruct s as [|d s].
  - simpl. case_bool_decide as Hc.
    + right. by subst c.
    + left. simpl in *. rewrite Hok. repeat split; congruence.
  - assert (Hm : re_last_underscore (c :: d :: s) = None) by done.
    rewrite Hm. clear Hm.
    cbn [forallb] in Hok. apply andb_true_iff in Hok as [Hc Hok].
    rewrite noAdjacent_cons in Hadj. apply andb_true_iff in Hadj as [Hcd Hadj].
    destruct (IH Hok Hadj) as [(H1 & H2 & H3 & H4)|[Hs Hr]].
    + left. cbn [forallb]. rewrite Hc, H1.
      destruct (replaceAll re_last_underscore [] (d :: s)) as [|e r'] eqn:Hr;
        [done|].
      simpl in H4. injection H4 as ->.
      repeat split; [|by rewrite last_cons_cons].
      by rewrite noAdjacent_cons, Hcd, H2.
    + left. injection Hs as -> ->. rewrite Hr.
      cbn [forallb]. rewrite Hc. repeat split.
      simpl. unfold isUnderscore in Hcd.
      rewrite (bool_decide_eq_true_2 ("_"%char = "_"%char)), andb_true_r in Hcd by done.
      apply negb_true_iff, bool_decide_eq_false_1 in Hcd. congruence.
Qed.

Lemma trimmed_shape name :
  forallb okChar (trimmed name) = true ∧ noAdjacent (trimmed name) = true ∧
  head (trimmed name) ≠ Some "_"%char ∧ last (trimmed name) ≠ Some "_"%char.
Proof.
  destruct (collapsed_shape name) as [Hok Hadj]. unfold trimmed.
  destruct (collapsed name) as [|c s] eqn:Hs; [done|].
  unfold replaceAllBos, re_edge_underscore_bos, m_alt, m_lit.
  change (startsWith (c :: s) (lit "_")) with (bool_decide ("_"%char = c) && true).
  rewrite andb_true_r. case_bool_decide as Hc.
  - subst c. cbn [List.length lit String.list_ascii_of_string app].
    rewrite replaceAllFrom_skip.
    change (drop 1 ("_"%char :: s)) with s. cbn [app].
    cbn [forallb] in Hok. apply andb_true_iff in Hok as [_ Hok].
    assert (Hhead : head s ≠ Some "_"%char ∧ noAdjacent s = true).
    { destruct s as [|d s]; [done|]. rewrite noAdjacent_cons in Hadj.
      apply andb_true_iff in Hadj as [Hcd Hadj]. split; [|done].
      unfold isUnderscore in Hcd.
      rewrite (bool_decide_eq_true_2 ("_"%char = "_"%char)) in Hcd by done.
      apply negb_true_iff, bool_decide_eq_false_1 in Hcd. simpl. congruence. }
    destruct Hhead as [Hhead Hadj'].
    destruct (trim_last s Hok Hadj') as [(H1 & H2 & H3 & H4)|[-> Hr]].
    + repeat split; [done..| |done]. by rewrite H4.
    + done.
  - assert (Hm : re_last_underscore (c :: s) = None).
    { unfold re_last_underscore. destruct s; [|done].
      rewrite bool_decide_eq_false_2; congruence. }
    rewrite Hm. fold (replaceAll re_last_underscore [] (c :: s)).
    destruct (trim_last (c :: s) Hok Hadj) as [(H1 & H2 & H3 & H4)|[Heq Hr]].
    + repeat split; [done..| |done]. rewrite H4. simpl. congruence.
    + congruence.
Qed.

Lemma noAdjacent_take n s : noAdjacent s = true → noAdjacent (take n s) = true.
Proof.
  revert n. induction s as [|c s IH]; intros [|n] H; try done.
  destruct s as [|d s]; [by destruct n|].
  rewrite noAdjacent_cons in H. apply andb_true_iff in H as [Hcd H].
  destruct n as [|n]; [done|].
  change (take (S (S n)) (c :: d :: s)) with (c :: d :: take n s).
  rewrite noAdjacent_cons, Hcd. apply (IH (S n) H).
Qed.

Lemma forallb_take {A} (f : A → bool) n s :
  forallb f s = true → forallb f (take n s) = true.
Proof.
  revert n. induction s as [|c s IH]; intros [|n] H; try done.
  simpl in *. apply andb_true_iff in H as [-> H]. by apply IH.
Qed.

(** C7 as stated fails: the cap is applied after the trimming, so a title
    whose 50th sanitised character is a separator keeps it at the end. *)
Lemma trailing_separator_after_cap :
  ¬ sanitizedAsClaimed
      (sanitizeFilename (lit "aaaaaaaaaaaaaaaaaaaaaaaaaaaaaaaaaaaaaaaaaaaaaaaaa b")).
Proof. intros (_ & _ & _ & _ & _ & H). by apply H. Qed.

(** C7, amended. For every title, [sanitizeFilename] returns a non-empty
    string of at most 50 characters, each a lower-case letter, a digit or
    the separator, with no two separators in a row and no leading
    separator; it has no trailing separator either whenever the name
    before the cap (after replacing, collapsing and trimming) has at most
    50 characters, and it is the placeholder ['image'] when the capped
    name is empty. *)
Theorem sanitizeFilename_shape name :
  let r := sanitizeFilename name in
  r ≠ [] ∧ (List.length r ≤ 50)%nat ∧ forallb okChar r = true ∧
  noAdjacent r = true ∧ head r ≠ Some "_"%char ∧
  ((List.length (trimmed name) ≤ 50)%nat → last r ≠ Some "_"%char) ∧
  (take 50 (trimmed name) = [] → r = lit "image").
Proof.
  intros r. unfold r. rewrite sanitizeFilename_stages.
  destruct (trimmed_shape name) as (Hok & Hadj & Hhead & Hlast).
  destruct (take 50 (trimmed name)) as [|c s] eqn:Ht.
  - repeat split; try done. simpl. lia.
  - assert (Hlen : (List.length (c :: s) ≤ 50)%nat).
    { rewrite <- Ht, length_take. lia. }
    repeat split; try done.
    + rewrite <- Ht. by apply forallb_take.
    + rewrite <- Ht. by apply noAdjacent_take.
    + destruct (trimmed name); [done|]. simpl in Ht. injection Ht as -> _.
      done.
    + intros Hshort. rewrite <- Ht, take_ge by done. done.
Qed.

End SanitizeSpec.

(** ** The image URL upscaler *)

Module UpscaleSpec.
Import Js JsFacts Extractor UpscaleDefs.

Lemma replaceFirst_nonempty m r s :
  r ≠ [] → s ≠ [] → replaceFirst m r s ≠ [].
Proof.
  intros Hr Hs. destruct s as [|c s]; [done|].
  rewrite replaceFirst_cons. destruct (m (c :: s)); [|done].
  by destruct r.
Qed.

Lemma replaceAll_nonempty m r s :
  r ≠ [] → s ≠ [] → replaceAll m r s ≠ [].
Proof.
  intros Hr Hs. destruct s as [|c s]; [done|].
  rewrite replaceAll_cons. destruct (m (c :: s)); [|done].
  by destruct r.
Qed.

Lemma replaceAtStart_nonempty m r s :
  r ≠ [] → s ≠ [] → replaceAtStart m r s ≠ [].
Proof.
  intros Hr Hs. unfold replaceAtStart. destruct (m s); [|done].
  by destruct r.
Qed.

(** [getHighestQualityUrl] is total and returns the empty string for the
    empty input only. *)
Lemma upscale_empty_iff url : getHighestQualityUrl url = [] ↔ url = [].
Proof.
  split; [|by intros ->].
  destruct url as [|c url]; [done|]. intros H. exfalso. revert H.
  unfold getHighestQualityUrl.
  repeat first [ apply replaceAll_nonempty; [done|]
               | apply replaceFirst_nonempty; [done|]
               | apply replaceAtStart_nonempty; [done|] ].
  done.
Qed.

(** The scheme is rewritten for protocol-relative URLs only. *)
Lemma upscale_scheme_relative url :
  replaceAtStart (m_lit (lit "//")) (lit "https://") (lit "//" ++ url) =
  lit "https://" ++ url.
Proof. done. Qed.

(** C8, the failing input. An [http:] reference to the asset host comes
    back with its size segment raised and its scheme unchanged: the
    result does not start with [https://]. *)
Theorem upscale_keeps_http :
  getHighestQualityUrl plainHttp =
    lit "http://mir-s3-cdn-cf.behance.net/project_modules/2000/a.jpg" ∧
  startsWith (getHighestQualityUrl plainHttp) (lit "https://") = false ∧
  includes plainHttp Extractor.assetHost = true.
Proof. by vm_compute. Qed.

End UpscaleSpec.

(** ** Extraction: upscaling, deduplication and naming *)

Module ExtractionSpec.
Import Js JsFacts Extractor ExtractionDefs.

Lemma firstSeen_duplicates earlier l :
  (List.length (firstSeenFrom earlier l) + duplicatesFrom earlier l =
   List.length l)%nat.
Proof.
  revert earlier. induction l as [|x l IH]; intros earlier; simpl; [done|].
  case_decide; simpl;
    [rewrite <- (IH earlier)|rewrite <- (IH (earlier ++ [x]))]; lia.
Qed.

Lemma scanImages_nonempty imgs : Forall (λ u, u ≠ []) (scanImages imgs).
Proof.
  unfold scanImages. apply Forall_forall. intros u Hu.
  apply list_elem_of_omap in Hu as (img & _ & Himg).
  destruct (match src img with [] => _ | _ => _ end); [done|].
  destruct (includes _ _); [|done]. by injection Himg as <-.
Qed.

Lemma processImage_step title st u :
  u ≠ [] → wellNamed title st →
  let c := getHighestQualityUrl u in
  let st' := processImage title st u in
  wellNamed title st' ∧
  urlsOf st' = urlsOf st ++ (if decide (c ∈ urlsOf st) then [] else [c]).
Proof.
  intros Hu (Hseen & Hnd & Hnames) c st'.
  assert (Hc : c ≠ []) by (unfold c; by rewrite UpscaleSpec.upscale_empty_iff).
  unfold st', processImage. fold c. clearbody c. clear st'.
  destruct c as [|a c']; [done|]. clear Hc.
  set (c := a :: c') in *.
  destruct (decide (c ∈ seen st)) as [Hin|Hin].
  - rewrite decide_True by by apply Hseen.
    rewrite app_nil_r. done.
  - assert (Hnot : c ∉ urlsOf st) by by rewrite <- Hseen.
    rewrite decide_False by done.
    split; [|by unfold urlsOf; simpl; rewrite map_app].
    split; [|split].
    + intros v. unfold urlsOf. simpl.
      rewrite map_app, elem_of_app, elem_of_union, elem_of_singleton. simpl.
      rewrite list_elem_of_singleton. fold (urlsOf st).
      rewrite Hseen. tauto.
    + unfold urlsOf. simpl. rewrite map_app. simpl.
      apply NoDup_app. split; [done|]. split; [|apply NoDup_singleton].
      intros v Hv Hv'. apply list_elem_of_singleton in Hv'. by subst.
    + intros i img. simpl. intros Hi.
      apply lookup_app_Some in Hi as [Hi|[Hlen Hi]]; [by apply Hnames|].
      apply list_lookup_singleton_Some in Hi as [Hi <-].
      simpl. unfold nameOf.
      by replace (S i) with (List.length (images st) + 1)%nat by lia.
Qed.

Lemma processImages_run title urls : ∀ st,
  Forall (λ u, u ≠ []) urls → wellNamed title st →
  let st' := processImages title st urls in
  wellNamed title st' ∧
  urlsOf st' =
    urlsOf st ++ firstSeenFrom (urlsOf st) (map getHighestQualityUrl urls).
Proof.
  induction urls as [|u urls IH]; intros st Hne Hst; simpl.
  - by rewrite app_nil_r.
  - apply Forall_cons in Hne as [Hu Hne].
    destruct (processImage_step title st u Hu Hst) as [Hst1 Hurls1].
    destruct (IH _ Hne Hst1) as [Hst' Hurls'].
    split; [done|]. unfold processImages in *. simpl. rewrite Hurls', Hurls1.
    case_decide; by rewrite <- ?app_assoc, ?app_nil_r.
Qed.

Lemma wellNamed_noneFound title : wellNamed title noneFound.
Proof.
  split; [|split].
  - intros u. unfold urlsOf. simpl. set_solver.
  - apply NoDup_nil_2.
  - intros i img Hi. done.
Qed.

(** C4. Let the page scan yield N raw references, D of which repeat, once
    upscaled, the canonical URL of an earlier one.  The loop of
    [extractBehanceImages] then produces exactly N − D descriptors: their
    URLs are the canonical URLs in first-seen order, pairwise distinct,
    and the file name of the [i]-th (counted from 1) is
    [{sanitize(title)}_{i}{extension}]. *)
Theorem extraction_dedup_and_naming title imgs :
  let raw := scanImages imgs in
  let canonical := map getHighestQualityUrl raw in
  let found := images (processImages title noneFound raw) in
  map Types.url found = firstSeen canonical ∧
  NoDup (map Types.url found) ∧
  (List.length found + duplicates canonical = List.length raw)%nat ∧
  ∀ i img, found !! i = Some img →
    (S i ≤ List.length raw - duplicates canonical)%nat ∧
    Types.filename img =
      sanitizeFilename title ++ lit "_" ++ decimal (S i) ++
      getExtensionFromUrl (Types.url img).
Proof.
  intros raw canonical found.
  destruct (processImages_run title raw noneFound)
    as [(Hseen & Hnd & Hnames) Hurls];
    [apply scanImages_nonempty|apply wellNamed_noneFound|].
  change (urlsOf noneFound) with (@nil (list ascii)) in Hurls.
  simpl in Hurls. fold canonical in Hurls.
  assert (Hlen : (List.length found + duplicates canonical = List.length raw)%nat).
  { unfold found. rewrite <- (length_map Types.url). fold (urlsOf (processImages title noneFound raw)).
    rewrite Hurls. unfold duplicates. rewrite firstSeen_duplicates.
    unfold canonical. by rewrite length_map. }
  split; [done|]. split; [done|]. split; [done|].
  intros i img Hi. split.
  - apply lookup_lt_Some in Hi. lia.
  - by apply Hnames.
Qed.

(** Three references, the first and the last with one canonical URL. *)
Example extraction_dedup_example :
  images (processImages (lit "My Project!") noneFound
            (scanImages
               [ {| src := lit "https://mir-s3-cdn-cf.behance.net/project_modules/200/a.png";
                    data_src := None |};
                 {| src := [];
                    data_src := Some (lit "//mir-s3-cdn-cf.behance.net/project_modules/fs/b.jpg") |};
                 {| src := lit "https://example.org/logo.png"; data_src := None |};
                 {| src := lit "https://mir-s3-cdn-cf.behance.net/project_modules/400/a.png";
                    data_src := None |} ])) =
  [ {| Types.url := lit "https://mir-s3-cdn-cf.behance.net/project_modules/2000/a.png";
       Types.filename := lit "my_project_1.png" |};
    {| Types.url := lit "https://mir-s3-cdn-cf.behance.net/project_modules/fs/b.jpg";
       Types.filename := lit "my_project_2.jpg" |} ].
Proof. by vm_compute. Qed.

End ExtractionSpec.

(** ** The download orchestration *)

Module ClientSpec.
Import Js Client ClientDefs.

(** The page's [recordDownload] posts [{ action: 'download' }] and no
    [url]; the handler answers every request without [url] with 400,
    before it looks at [action] (and not at all when the client key
    cannot be read: the framework then answers 500). *)
Lemma record_request_rejected extract env now st :
  let peek := Quota.getRateLimitInfo now
                (Handler.getClientIp (recordRequest env)) st in
  deployed extract (recordRequest env) now st =
    (match peek.1 with
     | Some info => {| Handler.status := 400;
                       Handler.payload := Handler.ErrorJson "URL is required" info |}
     | None => {| Handler.status := 500;
                  Handler.payload := Handler.InternalServerError |}
     end, peek.2).
Proof.
  intros peek. unfold deployed, Handler.handler, Handler.tryBlock.
  cbn [recordRequest Handler.method Handler.body Handler.url Handler.checked
       Handler.answered].
  fold (recordRequest env). unfold peek. clear peek.
  pose proof (QuotaSpec.getRateLimitInfo_None now
                (Handler.getClientIp (recordRequest env)) st) as Hnone.
  destruct (Quota.getRateLimitInfo now _ st) as [[info|] st'] eqn:Hp; [done|].
  specialize (Hnone eq_refl).
  assert (st' = st) as -> by (rewrite Hnone in Hp; by injection Hp).
  unfold Handler.respond at 1. unfold Handler.catchBlock.
  by rewrite Hnone.
Qed.

Section Deployed.
Context (extract : list ascii → Extractor.Error + list Types.BehanceImage).
Context (env : Env) (Hapi : api env = deployed extract).

(** So, against the repository's own route, [recordDownload] always
    throws, and the store gets no event. *)
Lemma recordDownload_throws w :
  let peek := Quota.getRateLimitInfo (clock w)
                (Handler.getClientIp (recordRequest env)) (rateLimitStore w) in
  recordDownload env w =
    (None,
     {| home := home w; rateLimitStore := peek.2; clock := clock w;
        requests := requests w;
        trace := trace w ++ [Post match peek.1 with
                                  | Some _ => 400
                                  | None => 500
                                  end] |}).
Proof.
  intros peek. unfold recordDownload. rewrite Hapi, record_request_rejected.
  fold peek. by destruct peek as [[info|] st'].
Qed.

Lemma attemptOnce_throws image w : (attemptOnce env image w).1 = None.
Proof.
  unfold attemptOnce.
  destruct (axiosGet env (Types.url image) w) as [[r|] w1]; [|done].
  by rewrite recordDownload_throws.
Qed.

(** No call of [downloadWithRetry] returns a blob. *)
Lemma downloadWithRetry_null image attempt w :
  (downloadWithRetry env image attempt w).1 = None.
Proof.
  funelim (downloadWithRetry env image attempt w); try done.
  pose proof (attemptOnce_throws image w) as Hnone.
  match goal with H : attemptOnce _ _ _ = _ |- _ => rewrite H in Hnone end.
  done.
Qed.

End Deployed.

(** Whatever the API answers: one [axios.get] per attempt, at most
    [MAX_RETRIES] attempts, and [null] only after the last of them. *)
Lemma attemptOnce_requests env image w :
  requests (attemptOnce env image w).2 = S (requests w).
Proof.
  unfold attemptOnce, axiosGet.
  destruct (transport env (Types.url image) (requests w)); [|done].
  unfold recordDownload. simpl.
  destruct (api env _ _ _) as [resp st]. by case_decide.
Qed.

Lemma downloadWithRetry_attempts env image attempt w :
  let r := downloadWithRetry env image attempt w in
  (requests w < requests r.2)%nat ∧
  (requests r.2 - requests w ≤ S (MAX_RETRIES - attempt))%nat ∧
  (r.1 = None → (attempt ≤ MAX_RETRIES)%nat →
   (requests r.2 - requests w = S (MAX_RETRIES - attempt))%nat).
Proof.
  funelim (downloadWithRetry env image attempt w);
    match goal with H : attemptOnce _ _ _ = _ |- _ =>
      pose proof (attemptOnce_requests env image w) as Hreq;
      rewrite H in Hreq; simpl in Hreq
    end.
  - simpl. split; [lia|]. split; [lia|done].
  - cbv zeta in *.
    match goal with IH : _ ∧ _ ∧ _ |- _ => destruct IH as (H1 & H2 & H3) end.
    simpl in H1, H2, H3. unfold MAX_RETRIES in *.
    split; [lia|]. split; [lia|]. intros Hnone Hle.
    specialize (H3 Hnone). lia.
  - simpl. unfold MAX_RETRIES in *. split; [lia|]. split; [lia|]. lia.
Qed.

Lemma attemptOnce_fetch_fails env image w :
  transport env (Types.url image) (requests w) = None →
  attemptOnce env image w =
    (None,
     {| home := home w; rateLimitStore := rateLimitStore w; clock := clock w;
        requests := S (requests w);
        trace := trace w ++ [Get (Types.url image) false] |}).
Proof. intros H. unfold attemptOnce, axiosGet. by rewrite H. Qed.

Lemma downloadWithRetry_retry env image attempt w w1 :
  attemptOnce env image w = (None, w1) →
  (attempt < MAX_RETRIES)%nat →
  downloadWithRetry env image attempt w =
  downloadWithRetry env image (S attempt)
    (sleep (RETRY_DELAY * Z.of_nat attempt)
       (emit (ConsoleError (Types.filename image) attempt) w1)).
Proof.
  intros Hfail Hlt. rewrite downloadWithRetry_equation_1, Hfail. simpl.
  destruct (lt_dec attempt MAX_RETRIES); [|lia].
  by rewrite downloadWithRetry_clause_1_clause_2_equation_1.
Qed.

Lemma downloadWithRetry_done env image attempt w blob w1 :
  attemptOnce env image w = (Some blob, w1) →
  downloadWithRetry env image attempt w = (Some blob, w1).
Proof. intros Hok. by rewrite downloadWithRetry_equation_1, Hok. Qed.

(** Against an API that accepts the record request, the scenario of the
    specification runs as it describes: two failed fetches with waits of
    1000 and 2000 ms, the third fetch, one record POST, then the blob. *)
Lemma third_attempt_with_accepting_api env image w response :
  transport env (Types.url image) (requests w) = None →
  transport env (Types.url image) (S (requests w)) = None →
  transport env (Types.url image) (S (S (requests w))) = Some response →
  (∀ now st, 200 ≤ Handler.status (api env (recordRequest env) now st).1 < 300) →
  let r := downloadWithRetry env image 1 w in
  ∃ blob status,
    r.1 = Some blob ∧ blobData blob = data response ∧
    trace r.2 =
      trace w ++
      [ Get (Types.url image) false; ConsoleError (Types.filename image) 1;
        Sleep 1000;
        Get (Types.url image) false; ConsoleError (Types.filename image) 2;
        Sleep 2000;
        Get (Types.url image) true; Post status ].
Proof.
  intros H1 H2 H3 Hapi r. unfold r.
  erewrite downloadWithRetry_retry;
    [|by apply attemptOnce_fetch_fails|unfold MAX_RETRIES; lia].
  erewrite downloadWithRetry_retry;
    [|by apply attemptOnce_fetch_fails|unfold MAX_RETRIES; lia].
  set (w2 := sleep _ _).
  assert (Hreq : requests w2 = S (S (requests w))) by done.
  destruct (attemptOnce env image w2) as [b w3] eqn:Hatt.
  unfold attemptOnce, axiosGet in Hatt. rewrite Hreq, H3 in Hatt.
  unfold recordDownload in Hatt. cbn [clock rateLimitStore emit] in Hatt.
  specialize (Hapi (clock w2) (rateLimitStore w2)).
  destruct (api env (recordRequest env) (clock w2) (rateLimitStore w2))
    as [resp st] eqn:Hresp.
  simpl in Hapi. rewrite decide_True in Hatt by done.
  injection Hatt as <- <-.
  erewrite downloadWithRetry_done; [|
    unfold attemptOnce, axiosGet; rewrite Hreq, H3;
    unfold recordDownload; cbn [clock rateLimitStore emit];
    rewrite Hresp, decide_True by done; reflexivity ].
  eexists _, (Handler.status resp). split; [done|]. split; [done|].
  simpl. rewrite <- !app_assoc. simpl. repeat f_equal.
  all: unfold RETRY_DELAY; lia.
Qed.

(** C5, the failing input. The fetch fails on attempts 1 and 2 (followed
    by waits of 1000 and 2000 ms) and succeeds on attempt 3; the record
    POST that follows is answered 400, the attempt counts as failed, and
    the function returns [null]: the descriptor is not a success, and the
    client's window on the server holds no event. *)
Theorem third_attempt_fetch_is_lost :
  let r := downloadWithRetry flaky picture 1 (idle None) in
  r.1 = None ∧
  trace r.2 =
    [ Get (Types.url picture) false; ConsoleError (Types.filename picture) 1;
      Sleep 1000;
      Get (Types.url picture) false; ConsoleError (Types.filename picture) 2;
      Sleep 2000;
      Get (Types.url picture) true; Post 400;
      ConsoleError (Types.filename picture) 3 ] ∧
  Quota.downloads <$> (rateLimitStore r.2 !! "203.0.113.7") = Some [].
Proof. by vm_compute. Qed.

(** With the whole quota left the guard lets the run start; against the
    repository's own route every descriptor is then fetched three times
    and ends in the failure list, and the server has recorded nothing. *)
Example run_against_deployed_route :
  let w' := handleDownload steady five (idle (Some wholeQuota)) in
  List.length (fetched w') = 15%nat ∧
  failedDownloads (home w') = map Types.filename five ∧
  downloadedImages (home w') = [] ∧
  Quota.downloads <$> (rateLimitStore w' !! "203.0.113.7") = Some [].
Proof. by vm_compute. Qed.

(** C1 as stated fails: five descriptors selected with three units left.
    The guard of [handleDownload] ends the call before anything is
    fetched, so not even the first descriptor is attempted. *)
Lemma five_selected_three_left :
  ¬ haltsOnceExhausted steady five (idle (Some threeLeft)).
Proof.
  intros H. destruct (H threeLeft) as [_ Hfetched]; [done|done|].
  specialize (Hfetched 0%nat (numbered "1") eq_refl).
  destruct Hfetched as [_ Hfetched].
  assert (Hin : Types.url (numbered "1")
                ∈ fetched (handleDownload steady five (idle (Some threeLeft))))
    by by apply Hfetched.
  vm_compute in Hin. by apply elem_of_nil in Hin.
Qed.

(** C1, amended. When the quota snapshot held by the page has fewer
    remaining units than descriptors are selected, [handleDownload] does
    not start the run: it only raises the rate-limit modal (the
    quota-exceeded signal).  No descriptor is attempted, no request is
    sent, no quota unit is consumed and nothing is reported as downloaded
    or failed. *)
Theorem guard_blocks_whole_run env selectedImages w info :
  rateLimitInfo (home w) = Some info →
  0 ≤ Types.remaining info < Z.of_nat (List.length selectedImages) →
  let w' := handleDownload env selectedImages w in
  w' = setHome (setShowRateLimitModal true) w ∧
  showRateLimitModal (home w') = true ∧
  trace w' = trace w ∧ fetched w' = fetched w ∧
  requests w' = requests w ∧
  rateLimitStore w' = rateLimitStore w ∧
  downloadedImages (home w') = downloadedImages (home w) ∧
  failedDownloads (home w') = failedDownloads (home w).
Proof.
  intros Hinfo Hrem w'. unfold w', handleDownload.
  destruct selectedImages as [|image rest]; [simpl in Hrem; lia|].
  rewrite Hinfo. rewrite decide_True by lia. done.
Qed.

Lemma guard_blocks_whole_run_witness :
  let w' := handleDownload steady five (idle (Some threeLeft)) in
  w' = setHome (setShowRateLimitModal true) (idle (Some threeLeft)) ∧
  showRateLimitModal (home w') = true ∧
  trace w' = trace (idle (Some threeLeft)) ∧
  fetched w' = fetched (idle (Some threeLeft)) ∧
  requests w' = requests (idle (Some threeLeft)) ∧
  rateLimitStore w' = rateLimitStore (idle (Some threeLeft)) ∧
  downloadedImages (home w') = downloadedImages (home (idle (Some threeLeft))) ∧
  failedDownloads (home w') = failedDownloads (home (idle (Some threeLeft))).
Proof.
  apply (guard_blocks_whole_run steady five (idle (Some threeLeft)) threeLeft).
  - reflexivity.
  - split; [discriminate|reflexivity].
Defined.

End ClientSpec.

(** ** Path segments

    A URL read as what stands before its first slash and the list of its
    slash-led segments: [s = g0 ++ flat gs].  The path patterns of the
    upscaler begin and end at a slash, so they act on whole segments. *)

Module Segments.
Import Js JsFacts SegmentDefs.

Lemma flat_app gs1 gs2 : flat (gs1 ++ gs2) = flat gs1 ++ flat gs2.
Proof.
  induction gs1 as [|g gs1 IH]; [done|].
  simpl. by rewrite IH, <- app_assoc.
Qed.

Lemma decompose s :
  ∃ g0 gs, s = g0 ++ flat gs ∧ noSlash g0 ∧ Forall noSlash gs.
Proof.
  induction s as [|c s (g0 & gs & -> & H0 & Hgs)].
  - exists [], []. split; [done|]. split; [apply not_elem_of_nil|done].
  - destruct (decide (c = slash)) as [->|Hc].
    + exists [], (g0 :: gs). split; [done|].
      split; [apply not_elem_of_nil|by constructor].
    + exists (c :: g0), gs. split; [done|]. split; [|done].
      by apply not_elem_of_cons.
Qed.

Lemma test_occurrences m s : test m s = true ↔ (0 < occurrences m s)%nat.
Proof.
  induction s as [|c s IH]; cbn [test occurrences].
  - destruct (m []); simpl; [split; [lia|done]|split; [done|lia]].
  - destruct (m (c :: s)); simpl; [split; [lia|done]|]. by rewrite IH.
Qed.

Lemma test_false_occurrences m s : test m s = false ↔ occurrences m s = 0%nat.
Proof.
  destruct (test m s) eqn:Ht.
  - apply test_occurrences in Ht. split; [done|lia].
  - split; [|done]. intros _.
    destruct (occurrences m s) eqn:Ho; [done|].
    assert (test m s = true) by (apply test_occurrences; lia). congruence.
Qed.

Section Anchored.
Context (m : Matcher) (sm : SegMatcher) (Hm : Anchored m sm).

Lemma anchored_segment g t : noSlash g → g ≠ [] → m (g ++ t) = None.
Proof.
  intros Hg Hne. destruct g as [|c g]; [done|].
  apply (anchored_head m sm Hm). intros ->. apply Hg. by left.
Qed.

Lemma drop_match j gs :
  (0 < j < List.length gs)%nat →
  ∃ g gs', drop j gs = g :: gs' ∧
           drop (S (List.length (flat (take j gs)))) (flat gs) = g ++ flat gs'.
Proof.
  intros Hj. destruct (drop j gs) as [|g gs'] eqn:Hd.
  { apply (f_equal List.length) in Hd. rewrite length_drop in Hd.
    simpl in Hd. lia. }
  exists g, gs'. split; [done|].
  rewrite <- (take_drop j gs) at 2. rewrite flat_app, Hd.
  change (S ?n) with (1 + n)%nat.
  rewrite Nat.add_comm, <- drop_drop, drop_app_length. done.
Qed.

Lemma replaceFirst_flat r : ∀ gs g0,
  noSlash g0 → Forall noSlash gs →
  replaceFirst m (slash :: r ++ [slash]) (g0 ++ flat gs) =
  g0 ++ flat (replaceSeg sm r gs).
Proof.
  assert (Hhead : ∀ g0 t, noSlash g0 →
    replaceFirst m (slash :: r ++ [slash]) (g0 ++ t) =
    g0 ++ replaceFirst m (slash :: r ++ [slash]) t).
  { induction g0 as [|c g0 IH]; intros t Hg0; [done|].
    apply not_elem_of_cons in Hg0 as [Hc Hg0].
    change ((c :: g0) ++ t) with (c :: (g0 ++ t)).
    rewrite replaceFirst_cons, (anchored_head m sm Hm) by done.
    by rewrite IH. }
  induction gs as [|g gs IH]; intros g0 Hg0 Hgs.
  - rewrite Hhead by done. simpl. by rewrite (anchored_nil m sm Hm).
  - rewrite Hhead by done. f_equal.
    pose proof (anchored_flat m sm Hm (g :: gs) Hgs) as Hflat.
    change (flat (g :: gs)) with (slash :: (g ++ flat gs)) in *.
    rewrite replaceFirst_cons. cbn [replaceSeg].
    destruct (sm (g :: gs)) as [j|].
    + destruct Hflat as [Hj ->].
      destruct (drop_match j (g :: gs) Hj) as (g' & gs' & Hd & Hdrop).
      change (flat (g :: gs)) with (slash :: (g ++ flat gs)) in Hdrop.
      rewrite Hdrop, Hd. simpl. by rewrite <- app_assoc.
    + rewrite Hflat. simpl. f_equal.
      apply Forall_cons in Hgs as [Hg Hgs]. by apply IH.
Qed.

Lemma occurrences_flat : ∀ gs g0,
  noSlash g0 → Forall noSlash gs →
  occurrences m (g0 ++ flat gs) = countSeg sm gs.
Proof.
  assert (Hhead : ∀ g0 t, noSlash g0 → t ≠ [] ∨ g0 = [] →
    occurrences m (g0 ++ t) = occurrences m t).
  { induction g0 as [|c g0 IH]; intros t Hg0 Ht; [done|].
    apply not_elem_of_cons in Hg0 as [Hc Hg0].
    change ((c :: g0) ++ t) with (c :: (g0 ++ t)).
    cbn [occurrences]. rewrite (anchored_head m sm Hm) by done.
    destruct Ht as [Ht|?]; [|done].
    destruct g0 as [|d g0]; [done|]. apply IH; [done|by left]. }
  assert (Hall : ∀ g0, noSlash g0 → occurrences m g0 = 0%nat).
  { induction g0 as [|c g0 IH]; intros Hg0.
    - simpl. by rewrite (anchored_nil m sm Hm).
    - apply not_elem_of_cons in Hg0 as [Hc Hg0]. cbn [occurrences].
      rewrite (anchored_head m sm Hm) by done. by apply IH. }
  induction gs as [|g gs IH]; intros g0 Hg0 Hgs.
  - rewrite app_nil_r. by apply Hall.
  - rewrite Hhead; [|done|by left].
    pose proof (anchored_flat m sm Hm (g :: gs) Hgs) as Hflat.
    change (flat (g :: gs)) with (slash :: (g ++ flat gs)) in *.
    cbn [occurrences countSeg].
    apply Forall_cons in Hgs as [Hg Hgs]. rewrite (IH g Hg Hgs).
    destruct (sm (g :: gs)) as [j|]; [destruct Hflat as [_ ->]|rewrite Hflat];
      done.
Qed.

End Anchored.

End Segments.

(** ** Low-resolution markers *)

Module MarkerSpec.
Import Js JsFacts Extractor SegmentDefs Segments MarkerDefs.

Lemma startsWith_segment w : ∀ g gs,
  noSlash w → noSlash g →
  startsWith (g ++ flat gs) (w ++ [slash]) = true ↔ g = w ∧ gs ≠ [].
Proof.
  induction w as [|a w IH]; intros g gs Hw Hg.
  - destruct g as [|c g].
    + destruct gs as [|g' gs]; simpl; [by split; [|intros []]|by split].
    + apply not_elem_of_cons in Hg as [Hc Hg].
      change (startsWith ((c :: g) ++ flat gs) ([] ++ [slash]))
        with (bool_decide (slash = c) && true).
      rewrite bool_decide_eq_false_2 by done. by split; [|intros []].
  - apply not_elem_of_cons in Hw as [Ha Hw]. destruct g as [|c g].
    + destruct gs as [|g' gs]; [by split; [|intros []]|].
      change (startsWith ([] ++ flat (g' :: gs)) ((a :: w) ++ [slash]))
        with (bool_decide (a = slash)
              && startsWith (g' ++ flat gs) (w ++ [slash])).
      rewrite bool_decide_eq_false_2 by done. by split; [|intros []].
    + apply not_elem_of_cons in Hg as [Hc Hg].
      change (startsWith ((c :: g) ++ flat gs) ((a :: w) ++ [slash]))
        with (bool_decide (a = c) && startsWith (g ++ flat gs) (w ++ [slash])).
      destruct (decide (a = c)) as [->|Hne].
      * rewrite bool_decide_eq_true_2 by done. cbn [andb].
        rewrite IH by done. split; intros [? ?]; split; congruence.
      * rewrite bool_decide_eq_false_2 by done. cbn [andb].
        split; [done|]. intros [? ?]. congruence.
Qed.

(** A literal delimited by slashes, on a run of segments. *)
Lemma m_lit_segment w g gs :
  noSlash w → noSlash g →
  m_lit (slash :: w ++ [slash]) (flat (g :: gs)) =
  if decide (g = w ∧ gs ≠ []) then Some (S (S (List.length w))) else None.
Proof.
  intros Hw Hg. unfold m_lit.
  change (startsWith (flat (g :: gs)) (slash :: w ++ [slash]))
    with (bool_decide (slash = slash) && startsWith (g ++ flat gs) (w ++ [slash])).
  rewrite bool_decide_eq_true_2 by done. cbn [andb].
  destruct (startsWith (g ++ flat gs) (w ++ [slash])) eqn:Hs.
  - apply startsWith_segment in Hs; [|done..].
    rewrite decide_True by done. f_equal. simpl. rewrite length_app. simpl. lia.
  - rewrite decide_False; [done|]. intros H.
    apply (startsWith_segment w g gs Hw Hg) in H. congruence.
Qed.

Lemma size_pattern n :
  re_size_segment n =
  m_alt (m_lit (slash :: (lit n ++ lit "H") ++ [slash]))
        (m_lit (slash :: lit n ++ [slash])).
Proof.
  unfold re_size_segment. do 2 f_equal. simpl. f_equal.
  by rewrite <- app_assoc.
Qed.

Lemma anchored_size n : noSlash (lit n) → Anchored (re_size_segment n) (segSize n).
Proof.
  intros Hn. rewrite size_pattern. split.
  - done.
  - intros c t Hc. unfold m_alt, m_lit. simpl.
    by rewrite !bool_decide_eq_false_2 by done.
  - intros gs Hgs. destruct gs as [|g gs]; [done|].
    apply Forall_cons in Hgs as [Hg Hgs].
    assert (HnH : noSlash (lit n ++ lit "H")).
    { unfold noSlash. rewrite elem_of_app. intros [?|HH]; [done|].
      by apply list_elem_of_singleton in HH. }
    unfold m_alt. rewrite !m_lit_segment by done.
    unfold segSize, segOk, isSize.
    destruct gs as [|g' gs].
    + rewrite !decide_False by by intros [_ ?]. done.
    + destruct (decide (g = lit n ++ lit "H")) as [->|HneH].
      * rewrite bool_decide_eq_true_2 by done. cbn [orb].
        rewrite decide_True by done.
        split; [simpl; lia|]. f_equal. simpl. rewrite !length_app. simpl. lia.
      * rewrite (bool_decide_eq_false_2 (g = _ ++ _)) by done. cbn [orb].
        rewrite (decide_False (P := g = lit n ++ lit "H" ∧ _)) by by intros [? _].
        destruct (decide (g = lit n)) as [->|Hne].
        -- rewrite bool_decide_eq_true_2, decide_True by done.
           split; [simpl; lia|]. f_equal. simpl. rewrite !length_app. simpl. lia.
        -- rewrite bool_decide_eq_false_2 by done.
           by rewrite decide_False by by intros [? _].
Qed.

Lemma lazyToSlash_segment g gs :
  noSlash g →
  lazyToSlash (g ++ flat gs) =
  if noLineTerminator g
  then match gs with [] => None | _ :: _ => Some (List.length g) end
  else None.
Proof.
  intros Hg. induction g as [|c g IH].
  - by destruct gs.
  - apply not_elem_of_cons in Hg as [Hc Hg].
    change ((c :: g) ++ flat gs) with (c :: (g ++ flat gs)).
    cbn [lazyToSlash noLineTerminator forallb].
    unfold isSlash. rewrite bool_decide_eq_false_2 by done.
    destruct (isLineTerminator c); [done|]. cbn [negb andb].
    rewrite (IH Hg). fold (noLineTerminator g).
    destruct (noLineTerminator g); [|done]. by destruct gs.
Qed.

Lemma anchored_fs : Anchored re_fs segFs.
Proof.
  split.
  - done.
  - intros c t Hc. unfold re_fs. simpl.
    by rewrite bool_decide_eq_false_2 by done.
  - intros gs Hgs. destruct gs as [|g1 gs]; [done|].
    apply Forall_cons in Hgs as [Hg1 Hgs].
    assert (Hfs : noSlash (lit "fs")).
    { unfold noSlash. by apply (bool_decide_unpack _). }
    pose proof (m_lit_segment (lit "fs") g1 gs Hfs Hg1) as Hlit.
    unfold m_lit in Hlit. unfold re_fs.
    change (lit "/fs/") with (slash :: lit "fs" ++ [slash]).
    destruct (startsWith (flat (g1 :: gs)) (slash :: lit "fs" ++ [slash])).
    + destruct (decide (g1 = lit "fs" ∧ gs ≠ [])) as [[-> Hne]|]; [|done].
      destruct gs as [|g2 gs]; [done|].
      apply Forall_cons in Hgs as [Hg2 Hgs].
      change (drop 4 (flat (lit "fs" :: g2 :: gs))) with (g2 ++ flat gs).
      rewrite lazyToSlash_segment by done.
      unfold segFs. rewrite bool_decide_eq_true_2 by done. cbn [andb].
      destruct (noLineTerminator g2); [|by destruct gs].
      destruct gs as [|g3 gs]; [done|].
      split; [simpl; lia|]. simpl. f_equal. rewrite !length_app. simpl. lia.
    + destruct (decide (g1 = lit "fs" ∧ gs ≠ [])) as [|Hn]; [done|].
      unfold segFs. destruct gs as [|g2 [|g3 gs]]; [done..|].
      destruct (decide (g1 = lit "fs")) as [->|Hne]; [by destruct Hn|].
      by rewrite bool_decide_eq_false_2 by done.
Qed.

(** *** Counting on segments *)

Lemma replaceSeg_noSlash sm r gs :
  noSlash r → Forall noSlash gs → Forall noSlash (replaceSeg sm r gs).
Proof.
  intros Hr. induction gs as [|g gs IH]; intros Hgs; [done|].
  cbn [replaceSeg]. destruct (sm (g :: gs)) as [j|].
  - constructor; [done|]. by apply Forall_drop.
  - apply Forall_cons in Hgs as [Hg Hgs]. constructor; [done|by apply IH].
Qed.

Lemma segOk_one ok j gs : segOk ok gs = Some j → j = 1%nat.
Proof.
  unfold segOk. destruct gs as [|? [|? ?]]; [done..|].
  destruct (ok _); [|done]. by intros [= <-].
Qed.

Lemma replaceSeg_ok_shape ok r gs :
  List.length (replaceSeg (segOk ok) r gs) = List.length gs ∧
  (∀ g, head (replaceSeg (segOk ok) r gs) = Some g →
        head gs = Some g ∨ (g = r ∧ ∃ g', head gs = Some g' ∧ ok g' = true)).
Proof.
  induction gs as [|g gs [IHlen _]]; [done|].
  cbn [replaceSeg]. unfold segOk at 1 3.
  destruct gs as [|g' gs]; [by split; [|left]|].
  destruct (ok g) eqn:Hok.
  - split; [done|]. intros g1 [= <-]. right. eauto.
  - split; [simpl in *; lia|]. intros g1 [= <-]. by left.
Qed.

Lemma countSeg_ok_replaced ok r gs :
  ok r = false → (countSeg (segOk ok) gs ≤ 1)%nat →
  countSeg (segOk ok) (replaceSeg (segOk ok) r gs) = 0%nat.
Proof.
  intros Hr. induction gs as [|g gs IH]; intros Hcount; [done|].
  cbn [replaceSeg countSeg] in *.
  destruct (segOk ok (g :: gs)) as [j|] eqn:Hsm.
  - apply segOk_one in Hsm as ->.
    simpl in Hcount. change (drop 1 (g :: gs)) with gs. cbn [countSeg].
    replace (segOk ok (r :: gs)) with (@None nat); [simpl; lia|].
    unfold segOk. destruct gs; [done|]. by rewrite Hr.
  - simpl in Hcount. cbn [countSeg]. rewrite IH by lia.
    replace (segOk ok (g :: replaceSeg (segOk ok) r gs)) with (@None nat); [done|].
    destruct (replaceSeg_ok_shape ok r gs) as [Hlen _].
    unfold segOk in *. destruct gs as [|g' gs]; [done|].
    destruct (replaceSeg _ r (g' :: gs)); [done|]. by destruct (ok g).
Qed.

Lemma countSeg_ok_other ok ok' r gs :
  ok' r = false →
  (countSeg (segOk ok') (replaceSeg (segOk ok) r gs) ≤ countSeg (segOk ok') gs)%nat.
Proof.
  intros Hr. induction gs as [|g gs IH]; [done|].
  cbn [replaceSeg]. destruct (segOk ok (g :: gs)) as [j|] eqn:Hsm.
  - apply segOk_one in Hsm as ->.
    change (drop 1 (g :: gs)) with gs. cbn [countSeg].
    replace (segOk ok' (r :: gs)) with (@None nat); [simpl; lia|].
    unfold segOk. destruct gs; [done|]. by rewrite Hr.
  - cbn [countSeg].
    replace (segOk ok' (g :: replaceSeg (segOk ok) r gs))
      with (segOk ok' (g :: gs)); [lia|].
    destruct (replaceSeg_ok_shape ok r gs) as [Hlen _].
    unfold segOk. destruct gs as [|g' gs].
    + done.
    + by destruct (replaceSeg _ r (g' :: gs)).
Qed.

Lemma countSeg_fs_other ok r gs :
  (∀ g, ok g = true → noLineTerminator g = true) →
  r ≠ lit "fs" →
  (countSeg segFs (replaceSeg (segOk ok) r gs) ≤ countSeg segFs gs)%nat.
Proof.
  intros Hok Hr. induction gs as [|g gs IH]; [done|].
  cbn [replaceSeg]. destruct (segOk ok (g :: gs)) as [j|] eqn:Hsm.
  - apply segOk_one in Hsm as ->.
    change (drop 1 (g :: gs)) with gs. cbn [countSeg].
    replace (segFs (r :: gs)) with (@None nat); [simpl; lia|].
    unfold segFs. destruct gs as [|? [|? ?]]; [done..|].
    by rewrite bool_decide_eq_false_2.
  - cbn [countSeg].
    enough (hit (segFs (g :: replaceSeg (segOk ok) r gs)) ≤ hit (segFs (g :: gs)))%nat
      by lia.
    destruct (replaceSeg_ok_shape ok r gs) as [Hlen Hhead].
    unfold segFs.
    destruct (replaceSeg (segOk ok) r gs) as [|h1 [|h2 l]] eqn:Hrep; [simpl; lia..|].
    destruct gs as [|g1 [|g2 gs]]; [done..|].
    destruct (Hhead h1 eq_refl) as [[= ->]|[-> (g' & [= <-] & Hg')]]; [done|].
    destruct (bool_decide (g = lit "fs")); [|done]. cbn [andb].
    rewrite (Hok _ Hg'). destruct (noLineTerminator r); simpl; lia.
Qed.

Lemma replaceSeg_fs_nonempty r gs :
  gs ≠ [] → replaceSeg segFs r gs ≠ [].
Proof. destruct gs as [|g gs]; [done|]. cbn [replaceSeg]. by destruct (segFs _). Qed.

Lemma segFs_two j gs : segFs gs = Some j → j = 2%nat.
Proof.
  unfold segFs. destruct gs as [|? [|? [|? ?]]]; [done..|].
  destruct (_ && _); [|done]. by intros [= <-].
Qed.

Lemma countSeg_ok_fs ok r gs :
  ok r = false →
  (countSeg (segOk ok) (replaceSeg segFs r gs) ≤ countSeg (segOk ok) gs)%nat.
Proof.
  intros Hr. induction gs as [|g gs IH]; [done|].
  cbn [replaceSeg]. destruct (segFs (g :: gs)) as [j|] eqn:Hsm.
  - apply segFs_two in Hsm as ->.
    destruct gs as [|g2 gs]; [done|].
    change (drop 2 (g :: g2 :: gs)) with gs. cbn [countSeg].
    replace (segOk ok (r :: gs)) with (@None nat); [simpl; lia|].
    unfold segOk. destruct gs; [done|]. by rewrite Hr.
  - cbn [countSeg].
    enough (hit (segOk ok (g :: replaceSeg segFs r gs)) ≤ hit (segOk ok (g :: gs)))%nat
      by lia.
    unfold segOk. destruct gs as [|g' gs]; [done|].
    pose proof (replaceSeg_fs_nonempty r (g' :: gs)) as Hne.
    destruct (replaceSeg segFs r (g' :: gs)); [by destruct Hne|]. done.
Qed.

Lemma segFs_after g r gs :
  segFs (g :: gs) = None → segFs (g :: replaceSeg segFs r gs) = None.
Proof.
  intros Hsm. destruct gs as [|g2 [|g3 gs]]; [done..|].
  change (replaceSeg segFs r (g2 :: g3 :: gs))
    with (match segFs (g2 :: g3 :: gs) with
          | Some j => r :: drop j (g2 :: g3 :: gs)
          | None => g2 :: replaceSeg segFs r (g3 :: gs)
          end).
  destruct (segFs (g2 :: g3 :: gs)) as [j|] eqn:H2.
  - apply segFs_two in H2 as Hj. subst j.
    change (drop 2 (g2 :: g3 :: gs)) with gs.
    unfold segFs in *. destruct gs as [|g4 gs]; [done|].
    destruct (bool_decide (g2 = lit "fs")) eqn:Hfs; [|done].
    apply bool_decide_eq_true_1 in Hfs. subst g2.
    destruct (bool_decide (g = lit "fs")); [|done]. done.
  - pose proof (replaceSeg_fs_nonempty r (g3 :: gs)) as Hne.
    destruct (replaceSeg segFs r (g3 :: gs)) as [|h l]; [by destruct Hne|].
    exact Hsm.
Qed.

Lemma countSeg_fs_replaced r gs :
  r ≠ lit "fs" → (countSeg segFs gs ≤ 1)%nat →
  countSeg segFs (replaceSeg segFs r gs) = 0%nat.
Proof.
  intros Hr. induction gs as [|g gs IH]; intros Hcount; [done|].
  cbn [replaceSeg countSeg] in *.
  destruct (segFs (g :: gs)) as [j|] eqn:Hsm.
  - apply segFs_two in Hsm as ->. simpl in Hcount.
    destruct gs as [|g2 gs]; [done|].
    change (drop 2 (g :: g2 :: gs)) with gs. cbn [countSeg] in *.
    replace (segFs (r :: gs)) with (@None nat); [simpl; lia|].
    unfold segFs. destruct gs as [|? [|? ?]]; [done..|].
    by rewrite bool_decide_eq_false_2.
  - simpl in Hcount. cbn [countSeg]. rewrite IH by lia.
    by rewrite segFs_after.
Qed.

(** *** The path substitutions *)

Lemma upscale_steps url :
  url ≠ [] →
  getHighestQualityUrl url =
  foldl suffixStep (foldl segmentStep (fsStep (schemeStep url)) sizes) sizes.
Proof. by destruct url. Qed.

Lemma size_facts n :
  n ∈ sizes →
  noSlash (lit n) ∧ isSize n (lit "2000") = false ∧
  isSize n (lit "original") = false ∧
  ∀ g, isSize n g = true → noLineTerminator g = true.
Proof.
  intros Hn. unfold sizes in Hn.
  repeat (apply elem_of_cons in Hn as [->|Hn]); [..|by apply elem_of_nil in Hn].
  all: split; [unfold noSlash; by apply (bool_decide_unpack _)|].
  all: split; [done|]; split; [done|].
  all: intros g Hg; unfold isSize in Hg; apply orb_true_iff in Hg;
       by destruct Hg as [->%bool_decide_eq_true_1| ->%bool_decide_eq_true_1].
Qed.

Lemma segmentStep_flat n g0 gs :
  n ∈ sizes → noSlash g0 → Forall noSlash gs →
  segmentStep (g0 ++ flat gs) n = g0 ++ flat (replaceSeg (segSize n) (lit "2000") gs).
Proof.
  intros Hn Hg0 Hgs. destruct (size_facts n Hn) as (Hslash & _).
  apply (replaceFirst_flat _ _ (anchored_size n Hslash) (lit "2000")); done.
Qed.

Lemma fsStep_flat g0 gs :
  noSlash g0 → Forall noSlash gs →
  fsStep (g0 ++ flat gs) = g0 ++ flat (replaceSeg segFs (lit "original") gs).
Proof. apply (replaceFirst_flat _ _ anchored_fs (lit "original")). Qed.

Lemma noSlash_lit_2000 : noSlash (lit "2000").
Proof. unfold noSlash. by apply (bool_decide_unpack _). Qed.

Lemma noSlash_lit_original : noSlash (lit "original").
Proof. unfold noSlash. by apply (bool_decide_unpack _). Qed.

(** The size substitutions that are still to run, on segments. *)
Lemma size_steps todo : ∀ g0 gs,
  todo ⊆ sizes → noSlash g0 → Forall noSlash gs →
  countSeg segFs gs = 0%nat →
  (∀ n, n ∈ todo → (countSeg (segSize n) gs ≤ 1)%nat) →
  ∃ gs', foldl segmentStep (g0 ++ flat gs) todo = g0 ++ flat gs' ∧
         Forall noSlash gs' ∧
         countSeg segFs gs' = 0%nat ∧
         (∀ n, n ∈ todo → countSeg (segSize n) gs' = 0%nat) ∧
         (∀ n, n ∈ sizes → countSeg (segSize n) gs = 0%nat →
               countSeg (segSize n) gs' = 0%nat).
Proof.
  induction todo as [|n todo IH]; intros g0 gs Hsub Hg0 Hgs Hfs Hcount.
  - exists gs. repeat split; try done. intros n Hn. by apply elem_of_nil in Hn.
  - assert (Hn : n ∈ sizes) by (apply Hsub; by left).
    destruct (size_facts n Hn) as (Hslash & H2000 & _ & HnoLT).
    set (gs1 := replaceSeg (segSize n) (lit "2000") gs).
    assert (Hother : ∀ n', n' ∈ sizes →
              (countSeg (segSize n') gs1 ≤ countSeg (segSize n') gs)%nat).
    { intros n' Hn'. destruct (size_facts n' Hn') as (_ & H' & _).
      by apply countSeg_ok_other. }
    destruct (IH g0 gs1) as (gs' & Hfold & Hgs' & Hfs' & Htodo & Hkeep).
    + intros x Hx. apply Hsub. by right.
    + done.
    + by apply replaceSeg_noSlash; [apply noSlash_lit_2000|].
    + pose proof (countSeg_fs_other (isSize n) (lit "2000") gs HnoLT) as Hle.
      unfold gs1, segSize. specialize (Hle ltac:(done)). lia.
    + intros n' Hn'.
      specialize (Hother n' ltac:(apply Hsub; by right)).
      specialize (Hcount n' ltac:(by right)). lia.
    + exists gs'. split; [|split; [done|split; [done|split]]].
      * cbn [foldl]. by rewrite segmentStep_flat.
      * intros n' Hn'. apply elem_of_cons in Hn' as [->|Hn']; [|by apply Htodo].
        apply Hkeep; [done|]. apply countSeg_ok_replaced; [done|].
        apply Hcount. by left.
      * intros n' Hn' Hzero. apply Hkeep; [done|].
        specialize (Hother n' Hn'). lia.
Qed.

(** After the scheme step and the six path substitutions no path marker
    is left, provided each occurred at most once. *)
Lemma path_steps g0 gs :
  noSlash g0 → Forall noSlash gs →
  (countSeg segFs gs ≤ 1)%nat →
  (∀ n, n ∈ sizes → (countSeg (segSize n) gs ≤ 1)%nat) →
  let s6 := foldl segmentStep (fsStep (g0 ++ flat gs)) sizes in
  test re_fs s6 = false ∧
  ∀ n, n ∈ sizes → test (re_size_segment n) s6 = false.
Proof.
  intros Hg0 Hgs Hfs Hcount s6. unfold s6. rewrite fsStep_flat by done.
  set (gs1 := replaceSeg segFs (lit "original") gs).
  destruct (size_steps sizes g0 gs1) as (gs' & -> & Hgs' & Hfs' & Hsizes & _).
  - done.
  - done.
  - by apply replaceSeg_noSlash; [apply noSlash_lit_original|].
  - by apply countSeg_fs_replaced.
  - intros n Hn. destruct (size_facts n Hn) as (_ & _ & Horig & _).
    pose proof (countSeg_ok_fs (isSize n) (lit "original") gs Horig) as Hle.
    specialize (Hcount n Hn). unfold gs1, segSize in *. lia.
  - split.
    + apply test_false_occurrences.
      by rewrite (occurrences_flat _ _ anchored_fs).
    + intros n Hn. destruct (size_facts n Hn) as (Hslash & _).
      apply test_false_occurrences.
      rewrite (occurrences_flat _ _ (anchored_size n Hslash)) by done.
      by apply Hsizes.
Qed.

Lemma schemeStep_flat g0 gs :
  noSlash g0 → Forall noSlash gs →
  ∃ g0', schemeStep (g0 ++ flat gs) = g0' ++ flat gs ∧ noSlash g0'.
Proof.
  intros Hg0 Hgs. unfold schemeStep, replaceAtStart, m_lit.
  destruct g0 as [|c g0].
  - destruct gs as [|[|c g1] gs].
    + by exists [].
    + destruct gs as [|g2 gs]; [by exists []|].
      exists (lit "https:"). split; [done|].
      unfold noSlash. by apply (bool_decide_unpack _).
    + exists []. split; [|done].
      apply Forall_cons in Hgs as [Hg1 _].
      apply not_elem_of_cons in Hg1 as [Hc _].
      change (startsWith ([] ++ flat ((c :: g1) :: gs)) (lit "//"))
        with (bool_decide (slash = slash) && (bool_decide (slash = c) && true)).
      by rewrite (bool_decide_eq_false_2 (slash = c)), andb_false_r by done.
  - exists (c :: g0). split; [|done].
    apply not_elem_of_cons in Hg0 as [Hc _].
    change (startsWith ((c :: g0) ++ flat gs) (lit "//"))
      with (bool_decide (slash = c)
            && startsWith (g0 ++ flat gs) [slash]).
    by rewrite (bool_decide_eq_false_2 (slash = c)) by done.
Qed.

(** *** A global literal substitution

    [p] and [r] begin with the same character [a], like [_200.] and
    [_2000.]. *)

Lemma test_cons m c s :
  test m (c :: s) = bool_decide (is_Some (m (c :: s))) || test m s.
Proof. cbn [test]. by destruct (m (c :: s)). Qed.

Lemma test_app_r m x t : test m t = true → test m (x ++ t) = true.
Proof.
  intros Ht. induction x as [|c x IH]; [done|].
  change ((c :: x) ++ t) with (c :: (x ++ t)).
  by rewrite test_cons, IH, orb_true_r.
Qed.

Lemma test_skip m x t :
  Forall (λ c, ∀ u, m (c :: u) = None) x → test m (x ++ t) = test m t.
Proof.
  induction 1 as [|c x Hc _ IH]; [done|].
  change ((c :: x) ++ t) with (c :: (x ++ t)).
  by rewrite test_cons, Hc, IH.
Qed.

Lemma test_alt m1 m2 s : test (m_alt m1 m2) s = test m1 s || test m2 s.
Proof.
  induction s as [|c s IH]; cbn [test]; unfold m_alt at 1.
  - by destruct (m1 []), (m2 []).
  - destruct (m1 (c :: s)); [done|]. destruct (m2 (c :: s)).
    + by rewrite orb_true_r.
    + done.
Qed.

Lemma m_lit_Some p s n :
  m_lit p s = Some n → n = List.length p ∧ ∃ t, s = p ++ t.
Proof.
  unfold m_lit. destruct (startsWith s p) eqn:Hs; [|done].
  intros [= <-]. split; [done|]. by apply startsWith_spec.
Qed.

Lemma m_lit_head p h c u : head p = Some h → c ≠ h → m_lit p (c :: u) = None.
Proof.
  intros Hp Hc. destruct p as [|h' p]; [done|]. injection Hp as ->.
  unfold m_lit. simpl. by rewrite bool_decide_eq_false_2.
Qed.

Lemma lazyToSlash_skip x t :
  Forall (λ c, isSlash c = false ∧ isLineTerminator c = false) x →
  lazyToSlash (x ++ t) = option_map (λ k, (List.length x + k)%nat) (lazyToSlash t).
Proof.
  induction 1 as [|c x [Hs Hl] _ IH]; [simpl; by destruct (lazyToSlash t)|].
  change ((c :: x) ++ t) with (c :: (x ++ t)).
  cbn [lazyToSlash]. rewrite Hs, Hl, IH. by destruct (lazyToSlash t).
Qed.

Section Literal.
Context (a : ascii) (p' r' : list ascii).

Let p := a :: p'.
Let r := a :: r'.
Let R := replaceAll (m_lit p) r.

Lemma literal_match t : R (p ++ t) = r ++ R t.
Proof.
  unfold R, p. change ((a :: p') ++ t) with (a :: (p' ++ t)).
  rewrite replaceAll_cons.
  change (a :: p' ++ t) with ((a :: p') ++ t).
  unfold m_lit at 1. rewrite startsWith_app.
  cbn [List.length Nat.pred]. by rewrite drop_app_length.
Qed.

Lemma literal_copy c s :
  m_lit p (c :: s) = None → R (c :: s) = c :: R s.
Proof. intros Hm. unfold R. by rewrite replaceAll_cons, Hm. Qed.

Lemma literal_cases s :
  s = [] ∨ (∃ t, s = p ++ t ∧ R s = r ++ R t) ∨
  (∃ c s', s = c :: s' ∧ m_lit p s = None ∧ R s = c :: R s').
Proof.
  destruct s as [|c s]; [by left|]. right.
  destruct (m_lit p (c :: s)) as [n|] eqn:Hm.
  - left. apply m_lit_Some in Hm as [_ [t Ht]]. exists t.
    split; [done|]. rewrite Ht. apply literal_match.
  - right. exists c, s. split; [done|]. split; [done|]. by apply literal_copy.
Qed.

(** What does not contain [a] is copied. *)
Lemma literal_verbatim x : a ∉ x →
  ∀ s, startsWith (R s) x = true → startsWith s x = true.
Proof.
  induction x as [|d x IH]; intros Hx s Hs; [done|].
  apply not_elem_of_cons in Hx as [Hd Hx].
  destruct (literal_cases s) as [->|[(t & -> & HR)|(c & s' & -> & Hm & HR)]].
  - done.
  - rewrite HR in Hs. unfold r in Hs. simpl in Hs.
    by rewrite bool_decide_eq_false_2 in Hs by done.
  - rewrite HR in Hs. cbn [startsWith] in *.
    apply andb_true_iff in Hs as [Hc Hs]. rewrite Hc. cbn [andb].
    by apply IH.
Qed.

Lemma literal_prefix x t : a ∉ x → R (x ++ t) = x ++ R t.
Proof.
  induction x as [|c x IH]; intros Hx; [done|].
  apply not_elem_of_cons in Hx as [Hc Hx].
  change ((c :: x) ++ t) with (c :: (x ++ t)).
  rewrite literal_copy; [by rewrite IH|].
  by apply (m_lit_head p a).
Qed.

(** An occurrence of [q] after the substitution was one before it. *)
Lemma literal_kept (m : Matcher) :
  (∀ u, m (r ++ u) = None) →
  Forall (λ c, ∀ u, m (c :: u) = None) r' →
  (∀ s, is_Some (m (R s)) → m_lit p s = None → is_Some (m s)) →
  ∀ n s, (List.length s ≤ n)%nat →
    test m (R s) = true → test m s = true ∧ ∃ i, is_Some (m (drop i s)) ∧ m_lit p (drop i s) = None.
Proof.
  intros Hhead Htail Hcopy. induction n as [|n IH]; intros s Hlen Ht.
  { destruct s; [|simpl in Hlen; lia].
    assert (Hm : is_Some (m [])).
    { change (R []) with (@nil ascii) in Ht. simpl in Ht.
      by destruct (m []). }
    split; [by simpl; destruct Hm as [? ->]|].
    exists 0%nat. by split. }
  destruct (literal_cases s) as [->|[(t & -> & HR)|(c & s' & -> & Hm & HR)]].
  - apply (IH []); [simpl; lia|done].
  - rewrite HR in Ht. unfold r in Ht.
    change ((a :: r') ++ R t) with (a :: (r' ++ R t)) in Ht.
    rewrite test_cons in Ht.
    change (a :: r' ++ R t) with (r ++ R t) in Ht.
    rewrite Hhead, test_skip in Ht by done. simpl in Ht.
    destruct (IH t) as [Htest (i & Hi & Hpi)]; [|done|].
    { rewrite length_app in Hlen. unfold p in Hlen. simpl in Hlen. lia. }
    split; [by apply test_app_r|].
    exists (List.length p + i)%nat. by rewrite <- drop_drop, drop_app_length.
  - rewrite HR, test_cons in Ht. apply orb_true_iff in Ht as [Ht|Ht].
    + apply bool_decide_eq_true_1 in Ht. rewrite <- HR in Ht.
      specialize (Hcopy _ Ht Hm).
      split; [rewrite test_cons; by rewrite bool_decide_eq_true_2|].
      exists 0%nat. by split.
    + destruct (IH s') as [Htest (i & Hi & Hpi)]; [simpl in Hlen; lia|done|].
      split; [by rewrite test_cons, Htest, orb_true_r|].
      by exists (S i).
Qed.

Lemma m_lit_is_Some q s : is_Some (m_lit q s) ↔ startsWith s q = true.
Proof.
  unfold m_lit. destruct (startsWith s q); split; try done.
Qed.

Lemma literal_copy_same q' :
  a ∉ q' →
  ∀ s, is_Some (m_lit (a :: q') (R s)) → m_lit p s = None →
       is_Some (m_lit (a :: q') s).
Proof.
  intros Hq s. rewrite !m_lit_is_Some. intros Hs Hm.
  destruct (literal_cases s) as [->|[(t & -> & HR)|(c & s' & -> & _ & HR)]].
  - done.
  - unfold m_lit in Hm. by rewrite startsWith_app in Hm.
  - rewrite HR in Hs. cbn [startsWith] in *.
    apply andb_true_iff in Hs as [-> Hs]. cbn [andb].
    by apply literal_verbatim.
Qed.

Lemma literal_copy_other q :
  a ∉ q → ∀ s, is_Some (m_lit q (R s)) → is_Some (m_lit q s).
Proof.
  intros Hq s. rewrite !m_lit_is_Some. by apply literal_verbatim.
Qed.

Context (Hplain_p : Forall (λ c, isSlash c = false ∧ isLineTerminator c = false) p).
Context (Hplain_r : Forall (λ c, isSlash c = false ∧ isLineTerminator c = false) r).

Lemma literal_lazy n : ∀ s, (List.length s ≤ n)%nat →
  is_Some (lazyToSlash (R s)) → is_Some (lazyToSlash s).
Proof.
  induction n as [|n IH]; intros s Hlen Hs.
  { by destruct s; [|simpl in Hlen; lia]. }
  destruct (literal_cases s) as [->|[(t & -> & HR)|(c & s' & -> & _ & HR)]].
  - done.
  - rewrite HR, lazyToSlash_skip in Hs by done.
    rewrite lazyToSlash_skip by done.
    assert (Ht : is_Some (lazyToSlash t)).
    { apply IH.
      - rewrite length_app in Hlen. unfold p in Hlen. simpl in Hlen. lia.
      - by destruct (lazyToSlash (R t)); [|destruct Hs]. }
    by destruct Ht as [k ->].
  - rewrite HR in Hs. cbn [lazyToSlash] in *.
    destruct (isSlash c); [done|]. destruct (isLineTerminator c); [done|].
    assert (Ht : is_Some (lazyToSlash s')).
    { apply IH; [simpl in Hlen; lia|].
      by destruct (lazyToSlash (R s')); [|destruct Hs]. }
    by destruct Ht as [k ->].
Qed.

Lemma literal_copy_fs :
  a ∉ lit "/fs/" → ∀ s, is_Some (re_fs (R s)) → is_Some (re_fs s).
Proof.
  intros Ha s Hs. unfold re_fs in *.
  destruct (startsWith (R s) (lit "/fs/")) eqn:Hstart; [|by destruct Hs].
  apply literal_verbatim in Hstart as Hstart'; [|done].
  rewrite Hstart'. apply startsWith_spec in Hstart' as [u ->].
  rewrite literal_prefix in Hs by done.
  change (drop 4 (lit "/fs/" ++ ?x)) with x in *.
  assert (Hu : is_Some (lazyToSlash u)).
  { apply (literal_lazy (List.length u)); [done|].
    by destruct (lazyToSlash (R u)); [|destruct Hs]. }
  by destruct Hu as [k ->].
Qed.

End Literal.

(** *** The suffix substitutions *)

Lemma suffix_pattern n :
  re_size_suffix n = m_lit ("_"%char :: (lit n ++ lit ".")).
Proof. done. Qed.

Lemma suffix_facts n :
  n ∈ sizes →
  ("_"%char ∉ lit n ++ lit ".") ∧
  ("_"%char ∉ lit n ++ lit "H") ∧
  (∀ u, re_size_suffix n (lit "_2000." ++ u) = None) ∧
  Forall plain ("_"%char :: (lit n ++ lit ".")).
Proof.
  intros Hn. unfold sizes in Hn.
  repeat (apply elem_of_cons in Hn as [->|Hn]); [..|by apply elem_of_nil in Hn].
  all: split; [by apply (bool_decide_unpack _)|].
  all: split; [by apply (bool_decide_unpack _)|].
  all: split; [done|].
  all: by repeat constructor.
Qed.

Lemma replacement_plain : Forall plain (lit "_2000.").
Proof. by repeat constructor. Qed.

Lemma suffixStep_suffix n n' s :
  n ∈ sizes → n' ∈ sizes →
  test (re_size_suffix n') (suffixStep s n) = true →
  test (re_size_suffix n') s = true ∧ n' ≠ n.
Proof.
  intros Hn Hn' Ht.
  destruct (suffix_facts n' Hn') as (Hq & _ & Hhead & _).
  destruct (literal_kept "_"%char (lit n ++ lit ".") (lit "2000.")
              (re_size_suffix n')) with (n := List.length s) (s := s)
    as [Htest (i & Hi & Hpi)]; try done.
  - repeat constructor; intros u; rewrite suffix_pattern;
      by apply (m_lit_head _ "_"%char).
  - intros s0. rewrite suffix_pattern. by apply literal_copy_same.
  - split; [done|]. intros ->. rewrite suffix_pattern, Hpi in Hi. by destruct Hi.
Qed.

Lemma suffixStep_segment n n' s :
  n ∈ sizes → n' ∈ sizes →
  test (re_size_segment n') (suffixStep s n) = true →
  test (re_size_segment n') s = true.
Proof.
  intros Hn Hn'.
  destruct (suffix_facts n' Hn') as (_ & HqH & _).
  assert (Hq : "_"%char ∉ lit n').
  { intros Hin. apply HqH. apply elem_of_app. by left. }
  rewrite size_pattern, !test_alt, !orb_true_iff.
  assert (Hone : ∀ w, "_"%char ∉ w →
    test (m_lit (slash :: w ++ [slash])) (suffixStep s n) = true →
    test (m_lit (slash :: w ++ [slash])) s = true).
  { intros w Hw Ht.
    destruct (literal_kept "_"%char (lit n ++ lit ".") (lit "2000.")
                (m_lit (slash :: w ++ [slash])))
      with (n := List.length s) (s := s) as [Htest _]; try done.
    - repeat constructor; intros u; by apply (m_lit_head _ slash).
    - intros s0 Hs0 _. revert Hs0. apply literal_copy_other.
      rewrite elem_of_cons, elem_of_app, list_elem_of_singleton.
      intros [?|[?|?]]; done. }
  intros [Ht|Ht]; [left|right]; by apply Hone.
Qed.

Lemma suffixStep_fs n s :
  n ∈ sizes → test re_fs (suffixStep s n) = true → test re_fs s = true.
Proof.
  intros Hn Ht.
  destruct (suffix_facts n Hn) as (_ & _ & _ & Hplain).
  destruct (literal_kept "_"%char (lit n ++ lit ".") (lit "2000.") re_fs)
    with (n := List.length s) (s := s) as [Htest _]; try done.
  - repeat constructor; done.
  - intros s0 Hs0 _. revert Hs0.
    apply (literal_copy_fs "_"%char (lit n ++ lit ".") (lit "2000."));
      [done|apply replacement_plain|by apply (bool_decide_unpack _)].
Qed.

Lemma suffix_steps todo : ∀ s,
  todo ⊆ sizes →
  let s' := foldl suffixStep s todo in
  (test re_fs s = false → test re_fs s' = false) ∧
  (∀ n, n ∈ sizes → test (re_size_segment n) s = false →
        test (re_size_segment n) s' = false) ∧
  (∀ n, n ∈ todo → test (re_size_suffix n) s' = false) ∧
  (∀ n, n ∈ sizes → test (re_size_suffix n) s = false →
        test (re_size_suffix n) s' = false).
Proof.
  induction todo as [|n todo IH]; intros s Hsub s'.
  - repeat split; try done. intros n Hn. by apply elem_of_nil in Hn.
  - assert (Hn : n ∈ sizes) by (apply Hsub; by left).
    destruct (IH (suffixStep s n)) as (Hfs & Hseg & Htodo & Hsuf).
    { intros x Hx. apply Hsub. by right. }
    assert (Hkeep : ∀ n', n' ∈ sizes → test (re_size_suffix n') s = false →
              test (re_size_suffix n') (suffixStep s n) = false).
    { intros n' Hn' Hs.
      destruct (test (re_size_suffix n') (suffixStep s n)) eqn:Ht; [|done].
      apply suffixStep_suffix in Ht as [Ht _]; [congruence|done..]. }
    unfold s'. cbn [foldl]. split; [|split; [|split]].
    + intros Hs. apply Hfs.
      destruct (test re_fs (suffixStep s n)) eqn:Ht; [|done].
      apply suffixStep_fs in Ht; [congruence|done].
    + intros n' Hn' Hs. apply Hseg; [done|].
      destruct (test (re_size_segment n') (suffixStep s n)) eqn:Ht; [|done].
      apply suffixStep_segment in Ht; [congruence|done..].
    + intros n' Hn'. apply elem_of_cons in Hn' as [->|Hn']; [|by apply Htodo].
      apply Hsuf; [done|].
      destruct (test (re_size_suffix n) (suffixStep s n)) eqn:Ht; [|done].
      by apply suffixStep_suffix in Ht as [_ ?].
    + intros n' Hn' Hs. apply Hsuf; [done|]. by apply Hkeep.
Qed.

(** *** Markers and tokens *)

Lemma hasMarker_false s :
  hasMarker s = false ↔
  test re_fs s = false ∧
  (∀ n, n ∈ sizes → test (re_size_segment n) s = false) ∧
  (∀ n, n ∈ sizes → test (re_size_suffix n) s = false).
Proof.
  unfold hasMarker, pathMarkers, suffixMarkers, sizes. cbn [map app existsb].
  rewrite !orb_false_iff. split.
  - intros (H0 & H1 & H2 & H3 & H4 & H5 & H6 & H7 & H8 & H9 & H10 & _).
    split; [done|].
    split; intros n Hn;
      repeat (apply elem_of_cons in Hn as [->|Hn]); try done;
      by apply elem_of_nil in Hn.
  - intros (H0 & Hseg & Hsuf).
    repeat split; try done;
      first [apply Hseg|apply Hsuf];
      by apply (bool_decide_unpack _).
Qed.

Lemma includes_trans s r tok :
  includes r tok = true → includes s r = true → includes s tok = true.
Proof.
  rewrite !includes_spec. intros (a & b & ->) (c & d & ->).
  exists (c ++ a), (b ++ d). by rewrite <- !app_assoc.
Qed.

Lemma replaceFirst_fires m r s :
  (test m s = false → replaceFirst m r s = s) ∧
  (test m s = true → includes (replaceFirst m r s) r = true).
Proof.
  induction s as [|c s [IH1 IH2]]; cbn [test replaceFirst].
  - destruct (m []); split; try done.
    intros _. apply includes_spec. by exists [], (drop n []).
  - destruct (m (c :: s)); split; try done.
    + intros _. apply includes_spec. by exists [], (drop n (c :: s)).
    + intros H. by rewrite IH1.
    + intros H. apply includes_spec. apply IH2, includes_spec in H as (a & b & ->).
      by exists (c :: a), b.
Qed.

Lemma replaceAll_fires m r n : m [] = None → ∀ s, (List.length s ≤ n)%nat →
  (test m s = false → replaceAll m r s = s) ∧
  (test m s = true → includes (replaceAll m r s) r = true).
Proof.
  intros Hnil. induction n as [|n IH]; intros s Hlen.
  { destruct s; [|simpl in Hlen; lia]. split; [done|].
    simpl. by rewrite Hnil. }
  destruct s as [|c s].
  { apply (IH []). simpl. lia. }
  rewrite replaceAll_cons, test_cons. destruct (m (c :: s)) as [k|].
  - split; [done|]. intros _. apply includes_spec. by eexists [], _.
  - rewrite bool_decide_eq_false_2 by (by intros [? ?]). cbn [orb].
    destruct (IH s) as [IH1 IH2]; [simpl in Hlen; lia|]. split.
    + intros H. by rewrite IH1.
    + intros H. apply includes_spec.
      apply IH2, includes_spec in H as (a & b & ->). by exists (c :: a), b.
Qed.

Lemma run_steps s :
  run steps s = foldl suffixStep (foldl segmentStep (fsStep s) sizes) sizes.
Proof. done. Qed.

Lemma hasToken_includes s r :
  hasToken r = true → includes s r = true → hasToken s = true.
Proof.
  unfold hasToken. rewrite !orb_true_iff.
  intros [H|H] Hs; [left|right]; by eapply includes_trans.
Qed.

Lemma first_writes m r :
  hasToken r = true → writesToken (m, replaceFirst m r).
Proof.
  intros Hr s. destruct (replaceFirst_fires m r s) as [H1 H2].
  split; [exact H1|]. intros H. by apply (hasToken_includes _ r), H2.
Qed.

Lemma all_writes m r :
  m [] = None → hasToken r = true → writesToken (m, replaceAll m r).
Proof.
  intros Hnil Hr s.
  destruct (replaceAll_fires m r (List.length s) Hnil s) as [H1 H2]; [done|].
  split; [exact H1|]. intros H. by apply (hasToken_includes _ r), H2.
Qed.

Lemma steps_write : Forall writesToken steps.
Proof.
  unfold steps, sizes. cbn [map app].
  repeat (apply Forall_cons; split); [..|done].
  - by apply (first_writes _ (lit "/original/")).
  - by apply (first_writes _ (lit "/2000/")).
  - by apply (first_writes _ (lit "/2000/")).
  - by apply (first_writes _ (lit "/2000/")).
  - by apply (first_writes _ (lit "/2000/")).
  - by apply (first_writes _ (lit "/2000/")).
  - by apply (all_writes _ (lit "_2000.")).
  - by apply (all_writes _ (lit "_2000.")).
  - by apply (all_writes _ (lit "_2000.")).
  - by apply (all_writes _ (lit "_2000.")).
  - by apply (all_writes _ (lit "_2000.")).
Qed.

Lemma run_writes l : Forall writesToken l → ∀ s,
  hasToken s = true ∨ Exists (λ step, test step.1 s = true) l →
  hasToken (run l s) = true.
Proof.
  induction 1 as [|step l Hstep _ IH]; intros s Hs.
  - destruct Hs as [?|Hs]; [done|]. by apply Exists_nil in Hs.
  - cbn [run foldl]. apply IH. destruct (Hstep s) as [Hid Hwrite].
    destruct (test step.1 s) eqn:Ht.
    + left. by apply Hwrite.
    + rewrite Hid by done. destruct Hs as [?|Hs]; [by left|]. right.
      apply Exists_cons in Hs as [?|?]; [congruence|done].
Qed.

Lemma hasMarker_steps s :
  hasMarker s = true → Exists (λ step, test step.1 s = true) steps.
Proof.
  unfold hasMarker, pathMarkers, suffixMarkers, steps, sizes.
  cbn [map app existsb]. rewrite !orb_true_iff.
  intros H. repeat (destruct H as [H|H]; [by repeat first [left; exact H|right]|]).
  done.
Qed.

(** The scheme step keeps every marker where it is. *)
Lemma schemeStep_cases url :
  schemeStep url = url ∨ schemeStep url = lit "https:" ++ url.
Proof.
  unfold schemeStep, replaceAtStart, m_lit.
  destruct (startsWith url (lit "//")) eqn:Hs; [|by left].
  right. apply startsWith_spec in Hs as [t ->]. done.
Qed.

Lemma schemeStep_marker url :
  hasMarker url = true → hasMarker (schemeStep url) = true.
Proof.
  destruct (schemeStep_cases url) as [->| ->]; [done|].
  unfold hasMarker. rewrite !existsb_exists.
  intros (m & Hm & Ht). exists m. split; [done|].
  by apply test_app_r.
Qed.

Lemma repeated_segment_survives :
  ¬ (hasMarker twice = true →
     hasMarker (getHighestQualityUrl twice) = false ∧
     hasToken (getHighestQualityUrl twice) = true).
Proof. intros H. by destruct (H eq_refl) as [Hm _]. Qed.

(** C3, amended. For every raw image URL in which each path-segment
    pattern ([/fs/.../], [/200/], [/400/], [/600/], [/800/], [/1400/],
    with or without [H]) matches at most once, the output of
    [getHighestQualityUrl] contains no low-resolution marker at all,
    neither a path segment nor a file name suffix ([_200.] ... [_1400.],
    however often they occur); and if the URL contained a marker, the
    output contains [/original/] or [2000]. *)
Theorem upscale_clears_markers url :
  Forall (λ m, (occurrences m url ≤ 1)%nat) pathMarkers →
  hasMarker (getHighestQualityUrl url) = false ∧
  (hasMarker url = true → hasToken (getHighestQualityUrl url) = true).
Proof.
  intros Hocc. destruct url as [|c0 url0]; [done|].
  set (url := c0 :: url0) in *.
  rewrite upscale_steps by done. split.
  - destruct (decompose url) as (g0 & gs & Hurl & Hg0 & Hgs).
    destruct (schemeStep_flat g0 gs Hg0 Hgs) as (g0' & Hscheme & Hg0').
    rewrite Hurl, Hscheme.
    apply Forall_cons in Hocc as [Hfs Hseg].
    rewrite Hurl, (occurrences_flat _ _ anchored_fs) in Hfs by done.
    assert (Hsizes : ∀ n, n ∈ sizes → (countSeg (segSize n) gs ≤ 1)%nat).
    { intros n Hn. destruct (size_facts n Hn) as (Hslash & _).
      rewrite <- (occurrences_flat _ _ (anchored_size n Hslash) gs g0), <- Hurl
        by done.
      rewrite Forall_forall in Hseg. apply Hseg.
      by apply list_elem_of_In, in_map, list_elem_of_In. }
    destruct (path_steps g0' gs Hg0' Hgs Hfs Hsizes) as [Hfs6 Hseg6].
    destruct (suffix_steps sizes
                (foldl segmentStep (fsStep (g0' ++ flat gs)) sizes))
      as (Hfs' & Hseg' & Hsuf' & _); [done|].
    apply hasMarker_false. split; [by apply Hfs'|]. split.
    + intros n Hn. apply Hseg'; [done|]. by apply Hseg6.
    + done.
  - intros Hmarker. rewrite <- run_steps.
    apply run_writes; [apply steps_write|]. right.
    by apply hasMarker_steps, schemeStep_marker.
Qed.

(** A protocol-relative reference with one size segment and three size
    suffixes, two of them the same. *)
Example upscale_several_markers :
  let url := lit "//mir-s3-cdn-cf.behance.net/project_modules/1400/a_200.b_200.c_400.jpg" in
  hasMarker url = true ∧
  getHighestQualityUrl url =
    lit "https://mir-s3-cdn-cf.behance.net/project_modules/2000/a_2000.b_2000.c_2000.jpg".
Proof. by vm_compute. Qed.

Lemma upscale_clears_markers_witness :
  let url := lit "//mir-s3-cdn-cf.behance.net/project_modules/1400/a_200.b_200.c_400.jpg" in
  hasMarker (getHighestQualityUrl url) = false ∧
  (hasMarker url = true → hasToken (getHighestQualityUrl url) = true).
Proof.
  apply (upscale_clears_markers
           (lit "//mir-s3-cdn-cf.behance.net/project_modules/1400/a_200.b_200.c_400.jpg")).
  repeat constructor; vm_compute; lia.
Defined.

End MarkerSpec.



(** ** More on the quota tracker *)

Module QuotaMore.
Import Quota QuotaDefs QuotaSpec.

Lemma observed_twice now old :
  observed now (Some (observed now old)) = observed now old.
Proof.
  unfold observed at 1.
  assert (Hfresh : ¬ resetTime (fresh now) < now).
  { unfold fresh. simpl. rewrite addHours_window. unfold RATE_LIMIT_WINDOW. lia. }
  assert (Hnil : recent now (fresh now) = []) by done.
  destruct old as [e|]; simpl.
  - unfold observed. destruct (decide (resetTime e < now)) as [Hexp|Hlive].
    + rewrite decide_False by done. by rewrite Hnil.
    + simpl. rewrite decide_False by done. f_equal.
      unfold recent at 1. simpl. unfold recent.
      rewrite list_filter_filter. apply list_filter_iff. tauto.
  - unfold observed. rewrite decide_False by done. by rewrite Hnil.
Qed.

Lemma peek_twice now ip (st : gmap string Entry) :
  getRateLimitInfo now ip (getRateLimitInfo now ip st).2 =
  getRateLimitInfo now ip st.
Proof.
  destruct (readable_cases ip st) as [Hr|[Hnone Hin]].
  - rewrite (getRateLimitInfo_readable now ip st Hr). cbn [snd].
    rewrite getRateLimitInfo_readable by apply readable_insert.
    rewrite lookup_insert_eq, observed_twice. f_equal.
    apply insert_insert_eq.
  - destruct (inherited_throws 0 now ip st Hnone Hin) as [H _].
    rewrite H. cbn [snd]. exact H.
Qed.

(** X1. Observing a client twice at the same instant changes nothing the
    second time: [getRateLimitInfo] returns the same snapshot and leaves
    the same store (or throws both times, the store being untouched). *)
Theorem peek_idempotent now ip (st : gmap string Entry) :
  getRateLimitInfo now ip (getRateLimitInfo now ip st).2 =
  getRateLimitInfo now ip st.
Proof. apply peek_twice. Qed.

Lemma observed_live now old : now ≤ resetTime (observed now old).
Proof.
  unfold observed. destruct old as [e|]; [case_decide|]; simpl;
    rewrite ?addHours_window; unfold RATE_LIMIT_WINDOW; lia.
Qed.

Lemma observed_recent now old :
  Forall (λ timestamp, now - RATE_LIMIT_WINDOW < timestamp)
         (downloads (observed now old)).
Proof.
  unfold observed. destruct old as [e|]; [case_decide|]; simpl;
    try apply Forall_nil_2.
  unfold recent. apply Forall_forall. intros t Ht.
  apply list_elem_of_filter in Ht as [Ht _]. by rewrite subHours_window in Ht.
Qed.

(** X2. [getRateLimitInfo] throws exactly when the client key is a name
    every object inherits ([constructor], [__proto__], ...) under which
    the store has no entry, and it then leaves the store as it is.  For
    every other key it returns a snapshot, and afterwards the client has
    a window that is not expired and holds no event as old as one window;
    the snapshot counts exactly the events of that window, its limit is
    20 and its remaining is [max 0 (20 - used)], between 0 and the
    limit. *)
Theorem peek_invariant now ip (st : gmap string Entry) :
  let peek := getRateLimitInfo now ip st in
  (st !! ip = None ∧ ip ∈ inheritedKeys ∧ peek = (None, st)) ∨
  (readable ip st ∧
   ∃ e info,
     peek.1 = Some info ∧
     peek.2 !! ip = Some e ∧
     now ≤ resetTime e ∧
     Forall (λ timestamp, now - RATE_LIMIT_WINDOW < timestamp) (downloads e) ∧
     Types.used info = Z.of_nat (List.length (downloads e)) ∧
     Types.resetTime info = resetTime e ∧
     Types.limit info = 20 ∧
     Types.remaining info = Z.max 0 (20 - Types.used info) ∧
     0 ≤ Types.remaining info ≤ Types.limit info).
Proof.
  intros peek. destruct (readable_cases ip st) as [Hr|[Hnone Hin]].
  - right. split; [done|].
    exists (observed now (st !! ip)), (snapshot (observed now (st !! ip))).
    unfold peek. rewrite getRateLimitInfo_readable by done. cbn [fst snd].
    rewrite lookup_insert_eq.
    split; [done|]. split; [done|]. split; [apply observed_live|].
    split; [apply observed_recent|].
    unfold snapshot. simpl. unfold HOURLY_LIMIT. repeat split; lia.
  - left. split; [done|]. split; [done|].
    apply (inherited_throws 0 now ip st Hnone Hin).
Qed.

Lemma cleanup_lookup now ip (st : gmap string Entry) :
  cleanupRateLimitStore now st !! ip =
  match st !! ip with
  | Some e => if decide (resetTime e < now) then None else Some e
  | None => None
  end.
Proof.
  unfold cleanupRateLimitStore. rewrite map_lookup_filter.
  destruct (st !! ip) as [e|]; simpl; [|done].
  case_decide.
  - rewrite option_guard_False; [done|]. simpl. tauto.
  - by rewrite option_guard_True.
Qed.

(** X3. The periodic sweep removes exactly the windows whose reset time
    has passed, and no later observation can tell whether it ran: what
    [getRateLimitInfo] returns at or after the sweep (a snapshot, or an
    exception) is the same with and without it.  This is so for every
    client key, on every store without an entry under an inherited name
    at that key; the code builds no other ([getRateLimitInfo_noForeign],
    [recordDownload_noForeign], [cleanup_noForeign],
    [handler_noForeign]). *)
Theorem cleanup_unobservable now later ip (st : gmap string Entry) :
  now ≤ later →
  (ip ∈ inheritedKeys → st !! ip = None) →
  (∀ k e, cleanupRateLimitStore now st !! k = Some e ↔
          st !! k = Some e ∧ ¬ resetTime e < now) ∧
  (getRateLimitInfo later ip (cleanupRateLimitStore now st)).1 =
  (getRateLimitInfo later ip st).1.
Proof.
  intros Hle Hst. split.
  - intros k e. rewrite cleanup_lookup. destruct (st !! k) as [e'|].
    + case_decide; split; try done.
      * intros [[= ->] ?]. done.
      * intros [= ->]. done.
      * by intros [? _].
    + split; [done|by intros [? _]].
  - destruct (decide (ip ∈ inheritedKeys)) as [Hin|Hout].
    + specialize (Hst Hin).
      assert (Hclean : cleanupRateLimitStore now st !! ip = None)
        by by rewrite cleanup_lookup, Hst.
      rewrite (proj1 (inherited_throws 0 later ip _ Hclean Hin)).
      by rewrite (proj1 (inherited_throws 0 later ip _ Hst Hin)).
    + rewrite !getRateLimitInfo_info by (by intros _).
      rewrite cleanup_lookup.
      destruct (st !! ip) as [e|]; [|done].
      case_decide as Hexp; [|done].
      unfold observed. by rewrite decide_True by lia.
Qed.

Lemma cleanup_unobservable_witness :
  let st : gmap string Entry :=
    {[ "203.0.113.7" := {| downloads := [5; 6]; resetTime := 100 |} ]} in
  (∀ k e, cleanupRateLimitStore 200 st !! k = Some e ↔
          st !! k = Some e ∧ ¬ resetTime e < 200) ∧
  (getRateLimitInfo 300 "203.0.113.7" (cleanupRateLimitStore 200 st)).1 =
  (getRateLimitInfo 300 "203.0.113.7" st).1.
Proof.
  apply (cleanup_unobservable 200 300 "203.0.113.7"
           {[ "203.0.113.7" := {| downloads := [5; 6]; resetTime := 100 |} ]}).
  - lia.
  - intros Hin. exfalso.
    assert (Hout : "203.0.113.7" ∉ inheritedKeys)
      by (apply (bool_decide_unpack _); vm_compute; exact I).
    exact (Hout Hin).
Defined.

(** X4. A download recorded for a client that has no window (under a key
    that is not an inherited name), or whose window has expired, is not
    counted: [recordDownload] answers with the snapshot of a fresh window
    ([used = 0], [remaining = 20]) and stores that window without any
    event. *)
Theorem record_outside_window_lost pushed now ip (st : gmap string Entry) :
  ((st !! ip = None ∧ ip ∉ inheritedKeys) ∨
   ∃ e, st !! ip = Some e ∧ resetTime e < now) →
  let r := recordDownload pushed now ip st in
  ∃ info,
    r.1 = Some info ∧
    Types.used info = 0 ∧ Types.remaining info = 20 ∧
    Types.resetTime info = now + RATE_LIMIT_WINDOW ∧
    r.2 !! ip = Some (fresh now).
Proof.
  intros H r. unfold r.
  destruct H as [[Hnone Hout]|(e & He & Hexp)].
  - rewrite recordDownload_absent by done.
    rewrite getRateLimitInfo_readable by (by intros _).
    rewrite Hnone. cbn [fst snd]. rewrite lookup_insert_eq.
    eexists. split; [done|]. unfold observed, snapshot. simpl.
    by rewrite addHours_window.
  - rewrite (recordDownload_own _ _ _ _ e He).
    rewrite getRateLimitInfo_readable by apply readable_insert.
    cbn [fst snd]. rewrite !lookup_insert_eq.
    eexists. split; [done|]. unfold observed. simpl.
    rewrite decide_True by done. unfold snapshot. simpl.
    by rewrite addHours_window.
Qed.

Lemma record_outside_window_lost_witness :
  let st : gmap string Entry :=
    {[ "203.0.113.7" := {| downloads := [5]; resetTime := 100 |} ]} in
  let r := recordDownload 200 200 "203.0.113.7" st in
  ∃ info,
    r.1 = Some info ∧
    Types.used info = 0 ∧ Types.remaining info = 20 ∧
    Types.resetTime info = 200 + RATE_LIMIT_WINDOW ∧
    r.2 !! "203.0.113.7" = Some (fresh 200).
Proof.
  apply (record_outside_window_lost 200 200 "203.0.113.7"
           {[ "203.0.113.7" := {| downloads := [5]; resetTime := 100 |} ]}).
  right. eexists. split; [apply lookup_singleton_eq|]. simpl. lia.
Defined.

Lemma recordDownload_open pushed now ip (st : gmap string Entry) e :
  st !! ip = Some e →
  ¬ resetTime e < now →
  now - RATE_LIMIT_WINDOW < pushed →
  let r := recordDownload pushed now ip st in
  ∃ info info',
    (getRateLimitInfo now ip st).1 = Some info ∧
    r.1 = Some info' ∧
    Types.used info' = Types.used info + 1 ∧
    events ip r.2 = events ip (getRateLimitInfo now ip st).2 ++ [pushed].
Proof.
  intros He Hlive Hp r. unfold r, events.
  rewrite (recordDownload_own _ _ _ _ e He).
  rewrite (getRateLimitInfo_readable now ip st) by by apply (own_readable _ _ e).
  rewrite getRateLimitInfo_readable by apply readable_insert.
  cbn [fst snd]. rewrite !lookup_insert_eq, He.
  eexists _, _. split; [done|]. split; [done|].
  unfold observed. simpl. rewrite !decide_False by done. simpl.
  unfold recent. simpl. rewrite filter_app, filter_cons_True, filter_nil
    by (rewrite subHours_window; lia).
  split; [|done]. rewrite length_app. simpl. lia.
Qed.

Lemma peek_events_sublist now ip k (st : gmap string Entry) :
  sublist (events k (getRateLimitInfo now ip st).2) (events k st).
Proof.
  destruct (readable_cases ip st) as [Hr|[Hnone Hin]].
  - unfold events. rewrite getRateLimitInfo_store by done.
    destruct (decide (k = ip)) as [->|Hne].
    + rewrite lookup_insert_eq. simpl. unfold observed.
      destruct (st !! ip) as [e|]; simpl; [|done].
      case_decide; simpl; [apply sublist_nil_l|apply sublist_filter].
    + by rewrite lookup_insert_ne.
  - by rewrite (proj1 (inherited_throws 0 now ip st Hnone Hin)).
Qed.

(** X5. Inside an open window a recorded download counts for exactly one:
    the snapshot [recordDownload] returns has one more [used] than the
    one an observation at the same instant returns, and the stored events
    are the unpruned ones followed by the new timestamp.  The limit is
    not checked here: [used] may pass 20. *)
Theorem record_counts_one pushed now ip (st : gmap string Entry) e :
  st !! ip = Some e →
  ¬ resetTime e < now →
  now - RATE_LIMIT_WINDOW < pushed →
  let r := recordDownload pushed now ip st in
  ∃ info info',
    (getRateLimitInfo now ip st).1 = Some info ∧
    r.1 = Some info' ∧
    Types.used info' = Types.used info + 1 ∧
    events ip r.2 = events ip (getRateLimitInfo now ip st).2 ++ [pushed].
Proof. apply recordDownload_open. Qed.

Lemma record_counts_one_witness :
  let st : gmap string Entry :=
    {[ "203.0.113.7" := {| downloads := [5]; resetTime := 3600000 |} ]} in
  let r := recordDownload 10 10 "203.0.113.7" st in
  ∃ info info',
    (getRateLimitInfo 10 "203.0.113.7" st).1 = Some info ∧
    r.1 = Some info' ∧
    Types.used info' = Types.used info + 1 ∧
    events "203.0.113.7" r.2 =
      events "203.0.113.7" (getRateLimitInfo 10 "203.0.113.7" st).2 ++ [10].
Proof.
  apply (record_counts_one 10 10 "203.0.113.7"
           {[ "203.0.113.7" := {| downloads := [5]; resetTime := 3600000 |} ]}
           {| downloads := [5]; resetTime := 3600000 |}).
  - apply lookup_singleton_eq.
  - simpl. lia.
  - reflexivity.
Defined.

(** X6. Without new records the count only goes down with time: an
    observation never returns a snapshot with more [used] than an earlier
    observation of the same client did.  (Where the earlier one throws,
    under an inherited name without entry, so does the later one.) *)
Theorem used_decreases_with_time now later ip (st : gmap string Entry) :
  now ≤ later →
  let first := getRateLimitInfo now ip st in
  let second := getRateLimitInfo later ip first.2 in
  (first.1 = None ∧ second.1 = None) ∨
  ∃ info info',
    first.1 = Some info ∧ second.1 = Some info' ∧
    Types.used info' ≤ Types.used info.
Proof.
  intros Hle first second. unfold second, first.
  destruct (readable_cases ip st) as [Hr|[Hnone Hin]].
  - right. rewrite (getRateLimitInfo_readable now ip st Hr). cbn [fst snd].
    rewrite getRateLimitInfo_readable by apply readable_insert.
    rewrite lookup_insert_eq. eexists _, _. split; [done|]. split; [done|].
    set (e := observed now (st !! ip)).
    unfold observed, snapshot. case_decide; simpl; [lia|].
    unfold recent. apply inj_le, length_filter.
  - left. destruct (inherited_throws 0 now ip st Hnone Hin) as [H _].
    rewrite H. cbn [fst snd].
    by rewrite (proj1 (inherited_throws 0 later ip st Hnone Hin)).
Qed.

Lemma used_decreases_with_time_witness :
  let st : gmap string Entry :=
    {[ "203.0.113.7" := {| downloads := [5; 900000]; resetTime := 3600000 |} ]} in
  let first := getRateLimitInfo 10 "203.0.113.7" st in
  let second := getRateLimitInfo 3600006 "203.0.113.7" first.2 in
  (first.1 = None ∧ second.1 = None) ∨
  ∃ info info',
    first.1 = Some info ∧ second.1 = Some info' ∧
    Types.used info' ≤ Types.used info.
Proof.
  apply (used_decreases_with_time 10 3600006 "203.0.113.7"
           {[ "203.0.113.7" := {| downloads := [5; 900000]; resetTime := 3600000 |} ]}).
  lia.
Defined.

End QuotaMore.

(** ** More on the request handler *)

Module HandlerMore.
Import Js Handler Quota QuotaDefs QuotaSpec QuotaMore.

(** X7. [getClientIp] never returns the empty string: a request with no
    usable address is filed under ['unknown'].  An empty forwarded array
    gives ['unknown'] even when the socket has an address. *)
Theorem getClientIp_nonempty req :
  getClientIp req ≠ "" ∧
  (forwardedFor req = Some (FwdArray []) → getClientIp req = "unknown") ∧
  (forwardedFor req = None → remoteAddress req = None →
   getClientIp req = "unknown").
Proof.
  unfold getClientIp. split; [|split].
  - destruct (forwardedFor req) as [[s|l]|]; simpl.
    + case_decide.
      * destruct (remoteAddress req); [case_decide|]; done.
      * by rewrite decide_False.
    + destruct (head l); [case_decide|]; done.
    + destruct (remoteAddress req); [case_decide|]; done.
  - by intros ->.
  - by intros -> ->.
Qed.

Lemma getRateLimitInfo_observation now ip (st : gmap string Entry) :
  readable ip st →
  getRateLimitInfo now ip st =
  (Some (observation now ip st).1, (observation now ip st).2).
Proof. apply getRateLimitInfo_readable. Qed.

Lemma observation_readable now ip (st : gmap string Entry) :
  readable ip (observation now ip st).2.
Proof. apply readable_insert. Qed.

Lemma peek_Some now ip (st : gmap string Entry) info :
  (getRateLimitInfo now ip st).1 = Some info →
  readable ip st ∧ info = (observation now ip st).1.
Proof.
  intros H. destruct (readable_cases ip st) as [Hr|[Hnone Hin]].
  - rewrite getRateLimitInfo_observation in H by done. by injection H as <-.
  - by rewrite (proj1 (inherited_throws 0 now ip st Hnone Hin)) in H.
Qed.

Lemma checkRateLimitOnly_observation now ip (st : gmap string Entry) :
  readable ip st →
  checkRateLimitOnly now ip st =
  (Some (bool_decide (0 < Types.remaining (observation now ip st).1),
         (observation now ip st).1), (observation now ip st).2).
Proof.
  intros Hr. unfold checkRateLimitOnly.
  by rewrite getRateLimitInfo_observation.
Qed.

Lemma recordDownload_recording pushed now ip (st : gmap string Entry) :
  readable ip st →
  recordDownload pushed now ip st =
  (Some (recording pushed now ip st).1, (recording pushed now ip st).2).
Proof.
  intros Hr. unfold recording. destruct (st !! ip) as [e|] eqn:He.
  - rewrite (recordDownload_own _ _ _ _ e He).
    apply getRateLimitInfo_observation, readable_insert.
  - rewrite recordDownload_absent by (by try apply Hr).
    by apply getRateLimitInfo_observation.
Qed.

Lemma recording_observation pushed now ip (st : gmap string Entry) :
  ∃ st', recording pushed now ip st = observation now ip st'.
Proof. unfold recording. destruct (st !! ip); eauto. Qed.

Lemma methodNotAllowed_peek now req (st : gmap string Entry) :
  readable (getClientIp req) st →
  methodNotAllowed now req st =
  (Some {| status := 405;
           payload := ErrorJson "Method not allowed"
                        (observation now (getClientIp req) st).1 |},
   (observation now (getClientIp req) st).2).
Proof.
  intros Hr. unfold methodNotAllowed.
  by rewrite getRateLimitInfo_observation.
Qed.

Lemma catchBlock_peek now req (st : gmap string Entry) :
  readable (getClientIp req) st →
  catchBlock now req st =
  (Some {| status := 500;
           payload := ServerErrorJson (observation now (getClientIp req) st).1 |},
   (observation now (getClientIp req) st).2).
Proof.
  intros Hr. unfold catchBlock.
  by rewrite getRateLimitInfo_observation.
Qed.

(** The ['download'] branch and what follows it, under a readable key. *)
Lemma downloadBranch_peek t now req a (st : gmap string Entry) :
  readable (getClientIp req) st →
  downloadBranch t now req a st =
  if decide (a = "download") then
    let peek := observation (checked t) (getClientIp req) st in
    if bool_decide (0 < Types.remaining peek.1) then
      let r := recording (pushed t) (answered t) (getClientIp req) peek.2 in
      (Return {| status := 200; payload := RecordedJson r.1 |}, r.2)
    else (Return {| status := 429; payload := ErrorJson rateLimitExceeded peek.1 |},
          peek.2)
  else (Fell now, st).
Proof.
  intros Hr. unfold downloadBranch. case_decide; [|done].
  rewrite checkRateLimitOnly_observation by done. cbv zeta.
  destruct (bool_decide _); simpl; [|done].
  by rewrite recordDownload_recording by apply observation_readable.
Qed.

Lemma peek_info_bounds now ip (st : gmap string Entry) :
  wellFormed (observation now ip st).1.
Proof. unfold wellFormed, observation, snapshot. simpl. unfold HOURLY_LIMIT. lia. Qed.

(** [handler] when the store can be read under the client key: no
    statement throws, and the observations are the total ones. *)
Lemma handler_cases extract t req (st : gmap string Entry) :
  readable (getClientIp req) st →
  handler extract t req st =
  let peek := observation (checked t) (getClientIp req) st in
  match method req with
  | OPTIONS => (Some {| status := 200; payload := Ended |}, st)
  | POST =>
      match body req with
      | None =>
          (Some {| status := 500; payload := ServerErrorJson peek.1 |}, peek.2)
      | Some b =>
          match url b with
          | None | Some [] =>
              (Some {| status := 400;
                       payload := ErrorJson "URL is required" peek.1 |},
               peek.2)
          | Some (c :: u) =>
              if negb (includes (c :: u) (lit "behance.net/gallery")) then
                (Some {| status := 400;
                         payload := ErrorJson "Invalid Behance gallery URL" peek.1 |},
                 peek.2)
              else if decide (default "search" (action b) = "search") then
                if bool_decide (0 < Types.remaining peek.1) then
                  match extract (c :: u) with
                  | inr (i :: rest) =>
                      (Some
                         {| status := 200;
                            payload :=
                              ImagesJson
                                (map (λ img,
                                        {| Types.url :=
                                             replaceAtStart (m_lit (lit "//"))
                                               (lit "https://") (Types.url img);
                                           Types.filename := Types.filename img |})
                                     (i :: rest))
                                peek.1 |}, peek.2)
                  | inr [] =>
                      let last := observation (answered t) (getClientIp req) peek.2 in
                      (Some {| status := 405;
                               payload := ErrorJson "Method not allowed" last.1 |},
                       last.2)
                  | inl _ =>
                      (Some {| status := 200; payload := ClientDownloadJson peek.1 |},
                       peek.2)
                  end
                else
                  (Some {| status := 429;
                           payload := ErrorJson rateLimitExceeded peek.1 |},
                   peek.2)
              else if decide (default "search" (action b) = "download") then
                if bool_decide (0 < Types.remaining peek.1) then
                  let r := recording (pushed t) (answered t) (getClientIp req)
                             peek.2 in
                  (Some {| status := 200; payload := RecordedJson r.1 |}, r.2)
                else
                  (Some {| status := 429;
                           payload := ErrorJson rateLimitExceeded peek.1 |},
                   peek.2)
              else
                (Some {| status := 405;
                         payload := ErrorJson "Method not allowed" peek.1 |},
                 peek.2)
          end
      end
  | _ =>
      (Some {| status := 405; payload := ErrorJson "Method not allowed" peek.1 |},
       peek.2)
  end.
Proof.
  intros Hr. unfold handler. cbv zeta.
  destruct (method req); try by rewrite methodNotAllowed_peek.
  - destruct (body req) as [b|]; [|by rewrite catchBlock_peek].
    unfold tryBlock.
    destruct (url b) as [[|c u]|].
    + by rewrite getRateLimitInfo_observation.
    + cbv zeta. destruct (negb (includes _ _)).
      * by rewrite getRateLimitInfo_observation.
      * case_decide as Hs.
        -- rewrite checkRateLimitOnly_observation by done.
           destruct (bool_decide _); [|done]. cbn [negb].
           destruct (extract (c :: u)) as [err|[|i rest]]; try done.
           rewrite downloadBranch_peek by apply observation_readable.
           rewrite Hs. rewrite decide_False by done.
           by rewrite methodNotAllowed_peek by apply observation_readable.
        -- rewrite downloadBranch_peek by done. case_decide.
           ++ cbv zeta. by destruct (bool_decide _).
           ++ by rewrite methodNotAllowed_peek.
    + by rewrite getRateLimitInfo_observation.
  - done.
Qed.

(** [handler] when the client key is an inherited name without entry:
    every statement that builds an answer throws, the [catch] block
    too, and the store stays as it is. *)
Lemma handler_inherited extract t req (st : gmap string Entry) :
  st !! getClientIp req = None → getClientIp req ∈ inheritedKeys →
  handler extract t req st =
  (match method req with
   | OPTIONS => Some {| status := 200; payload := Ended |}
   | _ => None
   end, st).
Proof.
  intros Hnone Hin.
  assert (Hpeek : ∀ now, getRateLimitInfo now (getClientIp req) st = (None, st))
    by (intros now; apply (inherited_throws 0 now _ st Hnone Hin)).
  assert (Hcheck : ∀ now, checkRateLimitOnly now (getClientIp req) st = (None, st))
    by (intros now; apply (inherited_throws 0 now _ st Hnone Hin)).
  assert (Hna : ∀ now, methodNotAllowed now req st = (None, st))
    by (intros now; unfold methodNotAllowed; by rewrite Hpeek).
  assert (Hcatch : ∀ now, catchBlock now req st = (None, st))
    by (intros now; unfold catchBlock; by rewrite Hpeek).
  unfold handler. destruct (method req); try apply Hna; [|done].
  destruct (body req) as [b|]; [|apply Hcatch].
  unfold tryBlock. destruct (url b) as [[|c u]|].
  - rewrite Hpeek. simpl. apply Hcatch.
  - cbv zeta. destruct (negb (includes _ _)).
    + rewrite Hpeek. simpl. apply Hcatch.
    + case_decide.
      * rewrite Hcheck. apply Hcatch.
      * unfold downloadBranch. case_decide; [|apply Hna].
        rewrite Hcheck. apply Hcatch.
  - rewrite Hpeek. simpl. apply Hcatch.
Qed.

(** The handler keeps the store free of entries under inherited names. *)
Lemma handler_noForeign extract t req (st : gmap string Entry) :
  noForeign st → noForeign (handler extract t req st).2.
Proof.
  intros Hst.
  destruct (readable_cases (getClientIp req) st) as [Hr|[Hnone Hin]];
    [|by rewrite handler_inherited by done].
  assert (Hobs : ∀ now st0, readable (getClientIp req) st0 → noForeign st0 →
            noForeign (observation now (getClientIp req) st0).2).
  { intros now st0 Hr0 Hst0.
    pose proof (getRateLimitInfo_noForeign now (getClientIp req) st0 Hst0) as H.
    by rewrite getRateLimitInfo_observation in H. }
  assert (Hrec : ∀ p now st0, readable (getClientIp req) st0 → noForeign st0 →
            noForeign (recording p now (getClientIp req) st0).2).
  { intros p now st0 Hr0 Hst0.
    pose proof (recordDownload_noForeign p now (getClientIp req) st0 Hst0) as H.
    by rewrite recordDownload_recording in H. }
  rewrite handler_cases by done. cbv zeta.
  destruct (method req); try by apply Hobs.
  - destruct (body req) as [b|]; [|by apply Hobs].
    destruct (url b) as [[|c u]|]; try by apply Hobs.
    destruct (negb _); [by apply Hobs|].
    case_decide.
    + destruct (bool_decide _); [|by apply Hobs].
      destruct (extract (c :: u)) as [err|[|i rest]]; try by apply Hobs.
      apply Hobs; [apply observation_readable|by apply Hobs].
    + case_decide; [|by apply Hobs].
      destruct (bool_decide _); [|by apply Hobs].
      apply Hrec; [apply observation_readable|by apply Hobs].
  - done.
Qed.

(** X8. Every answer of the handler but the one to OPTIONS carries a
    quota snapshot of the client, whatever the request: its limit is 20,
    its [used] is not negative and its [remaining] lies between 0 and 20.
    The handler gives no answer (an exception leaves it, the store
    untouched) exactly when the client key is a name every object
    inherits, such as [constructor], under which the store has no
    entry. *)
Theorem answers_carry_snapshot extract t req st :
  method req ≠ OPTIONS →
  let r := handler extract t req st in
  (readable (getClientIp req) st ∧
   ∃ response info,
     r.1 = Some response ∧
     Client.rateLimitOf (payload response) = Some info ∧
     Types.limit info = 20 ∧ 0 ≤ Types.used info ∧
     0 ≤ Types.remaining info ≤ 20) ∨
  (st !! getClientIp req = None ∧ getClientIp req ∈ inheritedKeys ∧
   r = (None, st)).
Proof.
  intros Hm r. unfold r. clear r.
  destruct (readable_cases (getClientIp req) st) as [Hr|[Hnone Hin]].
  - left. split; [done|]. rewrite handler_cases by done. cbv zeta.
    assert (Hb : ∀ now st0, wellFormed (observation now (getClientIp req) st0).1)
      by (intros; apply peek_info_bounds).
    assert (Hrec : ∀ p n st0, wellFormed (recording p n (getClientIp req) st0).1).
    { intros. destruct (recording_observation p n (getClientIp req) st0) as [st' ->].
      apply Hb. }
    destruct (method req); try done;
      try (eexists _, _; split; [done|]; split; [done|]; apply Hb).
    destruct (body req) as [b|];
      [|eexists _, _; split; [done|]; split; [done|]; apply Hb].
    destruct (url b) as [[|c u]|];
      try (eexists _, _; split; [done|]; split; [done|]; apply Hb).
    destruct (negb _);
      [eexists _, _; split; [done|]; split; [done|]; apply Hb|].
    case_decide.
    + destruct (bool_decide _);
        [|eexists _, _; split; [done|]; split; [done|]; apply Hb].
      destruct (extract (c :: u)) as [err|[|i rest]];
        eexists _, _; (split; [done|]); (split; [done|]); apply Hb.
    + case_decide;
        [|eexists _, _; split; [done|]; split; [done|]; apply Hb].
      destruct (bool_decide _);
        eexists _, _; (split; [done|]); (split; [done|]);
        first [apply Hrec|apply Hb].
  - right. split; [done|]. split; [done|].
    rewrite handler_inherited by done. by destruct (method req).
Qed.

Lemma answers_carry_snapshot_witness :
  let req := {| method := GET; forwardedFor := None;
                remoteAddress := None; body := None |} in
  let r := handler (λ _, inl Extractor.UpstreamLoadError)
             {| checked := 5; pushed := 5; answered := 5 |} req ∅ in
  (readable (getClientIp req) ∅ ∧
   ∃ response info,
     r.1 = Some response ∧
     Client.rateLimitOf (payload response) = Some info ∧
     Types.limit info = 20 ∧ 0 ≤ Types.used info ∧
     0 ≤ Types.remaining info ≤ 20) ∨
  ((∅ : gmap string Entry) !! getClientIp req = None ∧
   getClientIp req ∈ inheritedKeys ∧ r = (None, ∅)).
Proof.
  apply (answers_carry_snapshot (λ _, inl Extractor.UpstreamLoadError)
           {| checked := 5; pushed := 5; answered := 5 |}
           {| method := GET; forwardedFor := None;
              remoteAddress := None; body := None |} ∅).
  discriminate.
Defined.

Lemma observation_events now ip k (st : gmap string Entry) :
  sublist (events k (observation now ip st).2) (events k st).
Proof.
  unfold events, observation. cbn [snd].
  destruct (decide (k = ip)) as [->|Hne].
  - rewrite lookup_insert_eq. simpl. unfold observed.
    destruct (st !! ip) as [e|]; simpl; [|done].
    case_decide; simpl; [apply sublist_nil_l|apply sublist_filter].
  - by rewrite lookup_insert_ne.
Qed.

(** X9. Only the answer to a valid ['download'] request adds an event to
    the store.  For every request either no client's events grow (each
    client's events afterwards are a sublist of those before), or the
    request is a POST with action ['download'] and a URL containing
    [behance.net/gallery], answered 200 'Download recorded'. *)
Theorem only_download_records extract t req st :
  let r := handler extract t req st in
  (∀ k, sublist (events k r.2) (events k st)) ∨
  (∃ b u info,
     method req = POST ∧ body req = Some b ∧
     action b = Some "download" ∧ url b = Some u ∧
     includes u (lit "behance.net/gallery") = true ∧
     r.1 = Some {| status := 200; payload := RecordedJson info |}).
Proof.
  intros r. unfold r. clear r.
  destruct (readable_cases (getClientIp req) st) as [Hr|[Hnone Hin]];
    [|left; intros k; by rewrite handler_inherited by done].
  rewrite handler_cases by done. cbv zeta.
  set (ip := getClientIp req).
  assert (Hpeek : ∀ now k, sublist (events k (observation now ip st).2)
                                   (events k st))
    by (intros; apply observation_events).
  destruct (method req) eqn:Hm; try (left; intros; by apply Hpeek); [|by left].
  destruct (body req) as [b|] eqn:Hb; [|left; intros; apply Hpeek].
  destruct (url b) as [[|c u]|] eqn:Hu; try (left; intros; apply Hpeek).
  destruct (includes (c :: u) _) eqn:Hinc; cbn [negb];
    [|left; intros; apply Hpeek].
  case_decide as Hs.
  - left. intros k.
    destruct (bool_decide _); [|apply Hpeek].
    destruct (extract (c :: u)) as [err|[|i rest]]; cbn [snd]; try apply Hpeek.
    etrans; [apply observation_events|apply Hpeek].
  - case_decide as Hd.
    + destruct (bool_decide _).
      * right. exists b, (c :: u). eexists. repeat split; try done.
        destruct (action b); simpl in Hd; by subst.
      * left. intros. apply Hpeek.
    + left. intros. by apply Hpeek.
Qed.

Lemma observed_fixed now old :
  recent now (observed now old) = downloads (observed now old).
Proof.
  pose proof (observed_twice now old) as H. unfold observed at 1 in H.
  rewrite decide_False in H by (pose proof (observed_live now old); lia).
  by rewrite <- H at 2.
Qed.

(** X10. A valid ['download'] request of a client with quota left (the
    observation at that instant returns a snapshot with something
    remaining), handled within one clock instant, is answered 200 and
    costs exactly one unit: the snapshot returned has one more [used] and
    one less [remaining] than the observation, and the new timestamp is
    appended to the client's events. *)
Theorem download_consumes_one extract now req st b u info :
  method req = POST →
  body req = Some b →
  url b = Some u →
  includes u (lit "behance.net/gallery") = true →
  action b = Some "download" →
  let peek := getRateLimitInfo now (getClientIp req) st in
  peek.1 = Some info →
  0 < Types.remaining info →
  let r := handler extract {| checked := now; pushed := now; answered := now |}
             req st in
  ∃ info',
    r.1 = Some {| status := 200; payload := RecordedJson info' |} ∧
    Types.used info' = Types.used info + 1 ∧
    Types.remaining info' = Types.remaining info - 1 ∧
    events (getClientIp req) r.2 = events (getClientIp req) peek.2 ++ [now].
Proof.
  intros Hm Hb Hu Hinc Ha peek Hinfo Hrem r. unfold r, peek in *. clear r peek.
  apply peek_Some in Hinfo as [Hr ->].
  rewrite handler_cases by done. cbv zeta. rewrite Hm, Hb, Hu, Ha.
  rewrite getRateLimitInfo_observation by done.
  destruct u as [|c u]; [discriminate|]. rewrite Hinc.
  cbn [negb default checked pushed answered].
  rewrite decide_False by done. rewrite decide_True by done.
  rewrite bool_decide_true by done.
  set (ip := getClientIp req) in *.
  set (e := observed now (st !! ip)) in *.
  assert (Hrec : recording now now ip (observation now ip st).2 =
                 ({| Types.used := Z.of_nat (List.length (downloads e)) + 1;
                     Types.limit := HOURLY_LIMIT;
                     Types.remaining :=
                       Z.max 0 (HOURLY_LIMIT - (Z.of_nat (List.length (downloads e)) + 1));
                     Types.resetTime := resetTime e |},
                  <[ip := {| downloads := downloads e ++ [now];
                             resetTime := resetTime e |}]> st)).
  { pose proof (observed_live now (st !! ip)) as Hlive.
    pose proof (observed_fixed now (st !! ip)) as Hfix.
    unfold recording, observation. cbn [snd]. fold e in Hlive, Hfix |- *.
    rewrite lookup_insert_eq, lookup_insert_eq, insert_insert_eq, insert_insert_eq.
    clearbody e.
    unfold observed. cbn [resetTime downloads].
    rewrite decide_False by lia.
    unfold recent in *. cbn [downloads]. rewrite filter_app, Hfix.
    rewrite filter_cons_True, filter_nil
      by (rewrite subHours_window; unfold RATE_LIMIT_WINDOW; lia).
    unfold snapshot. cbn [downloads resetTime]. rewrite length_app. simpl.
    do 2 f_equal; lia. }
  rewrite Hrec. cbn [fst snd]. eexists. split; [done|].
  unfold observation, snapshot in *. cbn [fst snd] in *. fold e in Hrem |- *.
  cbn [Types.used Types.remaining] in *. unfold HOURLY_LIMIT in *.
  split; [done|]. split; [lia|].
  unfold events. by rewrite !lookup_insert_eq.
Qed.

Lemma download_consumes_one_witness :
  let b := {| url := Some (lit "https://www.behance.net/gallery/1/x");
              action := Some "download" |} in
  let req := {| method := POST;
                forwardedFor := Some (FwdString "203.0.113.7");
                remoteAddress := None;
                body := Some b |} in
  let info := {| Types.used := 0; Types.limit := 20; Types.remaining := 20;
                 Types.resetTime := 3600005 |} in
  let peek := getRateLimitInfo 5 (getClientIp req) ∅ in
  let r := handler (λ _, inl Extractor.UpstreamLoadError)
             {| checked := 5; pushed := 5; answered := 5 |} req ∅ in
  ∃ info',
    r.1 = Some {| status := 200; payload := RecordedJson info' |} ∧
    Types.used info' = Types.used info + 1 ∧
    Types.remaining info' = Types.remaining info - 1 ∧
    events (getClientIp req) r.2 = events (getClientIp req) peek.2 ++ [5].
Proof.
  intros b req info.
  apply (download_consumes_one (λ _, inl Extractor.UpstreamLoadError)
           5 req ∅ b (lit "https://www.behance.net/gallery/1/x") info);
    reflexivity.
Defined.

(** X11. A client with nothing remaining is turned away before anything
    else happens: a valid ['search'] request (also with the action left
    out) and a valid ['download'] request are both answered 429 with the
    current snapshot; the extractor's outcome plays no part and no event
    is recorded. *)
Theorem exhausted_client_rejected extract t req st b u info :
  method req = POST →
  body req = Some b →
  url b = Some u →
  includes u (lit "behance.net/gallery") = true →
  action b = None ∨ action b = Some "search" ∨ action b = Some "download" →
  let peek := getRateLimitInfo (checked t) (getClientIp req) st in
  peek.1 = Some info →
  Types.remaining info = 0 →
  handler extract t req st =
    (Some {| status := 429; payload := ErrorJson rateLimitExceeded info |},
     peek.2).
Proof.
  intros Hm Hb Hu Hinc Ha peek Hinfo Hrem. unfold peek in *. clear peek.
  apply peek_Some in Hinfo as [Hr ->].
  rewrite handler_cases by done. cbv zeta. rewrite Hm, Hb, Hu.
  rewrite getRateLimitInfo_observation by done. cbn [snd].
  destruct u as [|c u]; [discriminate|]. rewrite Hinc. cbn [negb].
  destruct Ha as [->|[->| ->]]; cbn [default].
  - rewrite decide_True by done. by rewrite bool_decide_false by lia.
  - rewrite decide_True by done. by rewrite bool_decide_false by lia.
  - rewrite decide_False by done. rewrite decide_True by done.
    by rewrite bool_decide_false by lia.
Qed.

Lemma exhausted_client_rejected_witness :
  let b := {| url := Some (lit "https://www.behance.net/gallery/1/x");
              action := None |} in
  let req := {| method := POST;
                forwardedFor := Some (FwdString "203.0.113.7");
                remoteAddress := None;
                body := Some b |} in
  let t := {| checked := 30; pushed := 30; answered := 30 |} in
  let st : gmap string Entry :=
    {[ "203.0.113.7" :=
         {| downloads := [1; 2; 3; 4; 5; 6; 7; 8; 9; 10;
                          11; 12; 13; 14; 15; 16; 17; 18; 19; 20];
            resetTime := 3600000 |} ]} in
  let info := {| Types.used := 20; Types.limit := 20; Types.remaining := 0;
                 Types.resetTime := 3600000 |} in
  let peek := getRateLimitInfo (checked t) (getClientIp req) st in
  handler (λ _, inr []) t req st =
    (Some {| status := 429; payload := ErrorJson rateLimitExceeded info |},
     peek.2).
Proof.
  intros b req t st info.
  apply (exhausted_client_rejected (λ _, inr []) t req st b
           (lit "https://www.behance.net/gallery/1/x") info);
    try reflexivity.
  by left.
Defined.

(** X12. For every client key the store can be read under: a POST whose
    body has no [url], or an empty one, is answered 400 'URL is
    required', and one whose [url] does not contain [behance.net/gallery]
    is answered 400 'Invalid Behance gallery URL'; in both cases whatever
    the action is, without consulting the limit or the extractor, and
    with the client merely observed. *)
Theorem bad_url_rejected extract t req st b :
  method req = POST →
  body req = Some b →
  default [] (url b) = [] ∨
  includes (default [] (url b)) (lit "behance.net/gallery") = false →
  readable (getClientIp req) st →
  let peek := getRateLimitInfo (checked t) (getClientIp req) st in
  ∃ message info,
    peek.1 = Some info ∧
    handler extract t req st =
      (Some {| status := 400; payload := ErrorJson message info |}, peek.2) ∧
    message = if decide (default [] (url b) = []) then "URL is required"
              else "Invalid Behance gallery URL".
Proof.
  intros Hm Hb Hu Hr peek. unfold peek. clear peek.
  rewrite handler_cases by done. cbv zeta. rewrite Hm, Hb.
  rewrite getRateLimitInfo_observation by done. cbn [fst snd].
  destruct (url b) as [[|c u]|]; simpl in *; try by eexists _, _.
  destruct Hu as [?|Hinc]; [done|]. rewrite Hinc. simpl. by eexists _, _.
Qed.

Lemma bad_url_rejected_witness :
  let b := {| url := Some (lit "https://www.behance.net/user");
              action := Some "download" |} in
  let req := {| method := POST;
                forwardedFor := Some (FwdString "203.0.113.7");
                remoteAddress := None;
                body := Some b |} in
  let t := {| checked := 30; pushed := 30; answered := 30 |} in
  let peek := getRateLimitInfo (checked t) (getClientIp req) ∅ in
  ∃ message info,
    peek.1 = Some info ∧
    handler (λ _, inr []) t req ∅ =
      (Some {| status := 400; payload := ErrorJson message info |}, peek.2) ∧
    message = if decide (default [] (url b) = []) then "URL is required"
              else "Invalid Behance gallery URL".
Proof.
  intros b req t.
  apply (bad_url_rejected (λ _, inr []) t req ∅ b); try reflexivity.
  - by right.
  - intros _. apply (bool_decide_unpack _). by vm_compute.
Defined.

End HandlerMore.

(** ** More on the gallery URL normaliser and the project id *)

Module NormalizeMore.
Import Js JsFacts Extractor NormalizeDefs NormalizeSpec.

Lemma splitHead_prefix sep s :
  ∃ t, s = splitHead sep s ++ t ∧ (t = [] ∨ head t = Some sep).
Proof.
  induction s as [|c s (t & IH & Ht)]; [exists []; by split; [|left]|]. simpl.
  case_bool_decide as Hc.
  - exists (c :: s). split; [done|]. right. simpl. by rewrite Hc.
  - exists t. simpl. split; [by f_equal|done].
Qed.

Lemma splitHead_free sep s : sep ∉ splitHead sep s.
Proof.
  induction s as [|c s IH]; simpl; [apply not_elem_of_nil|].
  case_bool_decide; [apply not_elem_of_nil|].
  apply not_elem_of_cons. split; [congruence|done].
Qed.

Lemma all_slashes_last s :
  s ≠ [] → forallb isSlash s = true → last s = Some "/"%char.
Proof.
  induction s as [|c s IH]; [done|]. intros _ Hall.
  apply andb_true_iff in Hall as [Hc Hs].
  apply bool_decide_eq_true_1 in Hc as ->.
  destruct s as [|d s]; [done|]. by apply IH.
Qed.

Lemma strip_cons c s :
  replaceFirst re_trailing_slashes [] (c :: s) =
  if forallb isSlash (c :: s) then []
  else c :: replaceFirst re_trailing_slashes [] s.
Proof.
  rewrite replaceFirst_cons. unfold re_trailing_slashes at 1.
  destruct (forallb isSlash (c :: s)); [|done]. by rewrite drop_all.
Qed.

(** What [.replace(/\/+$/, '')] does: it cuts a run of slashes off the
    end, and what is left does not end with a slash. *)
Lemma strip_shape s :
  ∃ t, s = replaceFirst re_trailing_slashes [] s ++ t ∧
       forallb isSlash t = true ∧
       last (replaceFirst re_trailing_slashes [] s) ≠ Some "/"%char.
Proof.
  induction s as [|c s (t & Hs & Ht & Hlast)]; [by exists []|].
  rewrite strip_cons.
  destruct (forallb isSlash (c :: s)) eqn:Hall.
  - by exists (c :: s).
  - exists t. split; [simpl; by f_equal|]. split; [done|].
    destruct (replaceFirst re_trailing_slashes [] s) as [|d u] eqn:Hu.
    + simpl. intros [= ->]. simpl in Hs. subst t.
      simpl in Hall. by rewrite Ht in Hall.
    + exact Hlast.
Qed.

Lemma strip_id s :
  last s ≠ Some "/"%char → replaceFirst re_trailing_slashes [] s = s.
Proof.
  induction s as [|c s IH]; [done|]. intros Hlast.
  rewrite strip_cons.
  destruct (forallb isSlash (c :: s)) eqn:Hall.
  - by apply all_slashes_last in Hall.
  - f_equal. apply IH. destruct s as [|d s]; [done|]. exact Hlast.
Qed.

Lemma splitHead_id sep s : sep ∉ s → splitHead sep s = s.
Proof.
  induction s as [|c s IH]; [done|]. intros Hs.
  apply not_elem_of_cons in Hs as [Hc Hs]. simpl.
  rewrite bool_decide_eq_false_2 by congruence. f_equal. by apply IH.
Qed.

Lemma short_gallery_includes s :
  test re_short_gallery s = true →
  includes s (lit "behance.net/gallery/") = true.
Proof.
  rewrite test_spec. intros [i [n Hi]]. unfold re_short_gallery in Hi.
  destruct (startsWith (drop i s) (lit "behance.net/gallery/")) eqn:Hs;
    [|done].
  apply startsWith_spec in Hs as [t Ht].
  apply includes_spec. exists (take i s), t.
  by rewrite <- Ht, take_drop.
Qed.

(** The cleaned URL of [validateAndCleanUrl], and what it is checked for. *)
Lemma validateAndCleanUrl_inr url c :
  validateAndCleanUrl url = inr c →
  c = replaceFirst re_trailing_slashes [] (splitHead "?" url) ∧
  includes c (lit "/search/projects") = false ∧
  includes c (lit "behance.net/gallery/") = true.
Proof.
  unfold validateAndCleanUrl.
  set (clean := replaceFirst re_trailing_slashes [] (splitHead "?" url)).
  destruct (includes clean (lit "/search/projects")) eqn:Hsearch; [done|].
  destruct (test re_short_gallery clean) eqn:Hshort.
  - intros [= <-]. split; [done|]. split; [done|].
    by apply short_gallery_includes.
  - destruct (includes clean (lit "behance.net/gallery/")) eqn:Hg; [|done].
    by intros [= <-].
Qed.

(** X13. A URL accepted by [validateAndCleanUrl] is returned in a form
    that is a prefix of the input, has no question mark, does not end
    with a slash, contains [behance.net/gallery/] and not
    [/search/projects]; and that form is a fixed point: validating it
    again returns it unchanged. *)
Theorem validateAndCleanUrl_canonical url c :
  validateAndCleanUrl url = inr c →
(c `prefix_of` url) ∧
("?"%char ∉ c) ∧
  last c ≠ Some "/"%char ∧
  includes c (lit "behance.net/gallery/") = true ∧
  includes c (lit "/search/projects") = false ∧
  validateAndCleanUrl c = inr c.
Proof.
  intros H. destruct (validateAndCleanUrl_inr url c H) as (Hc & Hsearch & Hg).
  destruct (splitHead_prefix "?" url) as (q & Hq & _).
  destruct (strip_shape (splitHead "?" url)) as (t & Ht & _ & Hlast).
  rewrite <- Hc in Ht, Hlast.
  assert (Hfree : "?"%char ∉ c).
  { intros Hin. apply (splitHead_free "?"%char url).
    rewrite Ht. apply elem_of_app. by left. }
  split; [|split; [done|split; [done|split; [done|split; [done|]]]]].
  - exists (t ++ q). rewrite app_assoc, <- Ht. exact Hq.
  - unfold validateAndCleanUrl.
    rewrite (splitHead_id _ _ Hfree), (strip_id _ Hlast), Hsearch, Hg.
    by destruct (test re_short_gallery c).
Qed.

Lemma validateAndCleanUrl_canonical_witness :
  let url := lit "https://www.behance.net/gallery/123/Name//?tracking=1" in
  let c := lit "https://www.behance.net/gallery/123/Name" in
(c `prefix_of` url) ∧
("?"%char ∉ c) ∧
  last c ≠ Some "/"%char ∧
  includes c (lit "behance.net/gallery/") = true ∧
  includes c (lit "/search/projects") = false ∧
  validateAndCleanUrl c = inr c.
Proof.
  apply (validateAndCleanUrl_canonical
           (lit "https://www.behance.net/gallery/123/Name//?tracking=1")
           (lit "https://www.behance.net/gallery/123/Name")).
  reflexivity.
Defined.

Lemma digits_spec s :
  forallb isDigit (digits s) = true ∧
  ∃ t, s = digits s ++ t ∧ digits t = [].
Proof.
  induction s as [|c s (Hd & t & Ht & Hnil)]; [split; [done|by exists []]|].
  simpl. destruct (isDigit c) eqn:Hc.
  - simpl. rewrite Hc, Hd. split; [done|]. exists t. split; [by f_equal|done].
  - split; [done|]. exists (c :: s). split; [done|]. simpl. by rewrite Hc.
Qed.

Lemma matchGalleryId_spec s id :
  matchGalleryId s = Some id →
  id ≠ [] ∧ forallb isDigit id = true ∧
  ∃ a b, s = a ++ lit "gallery/" ++ id ++ b ∧ digits b = [].
Proof.
  induction s as [|c s IH].
  - simpl. done.
  - cbn [matchGalleryId].
    destruct (startsWith (c :: s) (lit "gallery/")) eqn:Hs.
    + destruct (digits (drop 8 (c :: s))) as [|d ds] eqn:Hd.
      * intros H. destruct (IH H) as (Hne & Hdig & a & b & -> & Hb).
        split; [done|]. split; [done|]. by exists (c :: a), b.
      * intros [= <-]. apply startsWith_spec in Hs as [t Ht].
        destruct (digits_spec (drop 8 (c :: s))) as (Hdig & b & Hb & Hnil).
        rewrite Hd in Hdig, Hb. split; [done|]. split; [done|].
        exists [], b. split; [|done]. rewrite Ht in Hb |- *.
        change (drop 8 (lit "gallery/" ++ t)) with t in Hb. by rewrite Hb.
    + intros H. destruct (IH H) as (Hne & Hdig & a & b & -> & Hb).
      split; [done|]. split; [done|]. by exists (c :: a), b.
Qed.

(** X14. When [extractProjectId] returns an id, the id is a non-empty
    string of decimal digits, it stands in the URL right after
    [gallery/], and it is the whole run of digits found there. *)
Theorem extractProjectId_digits url id :
  extractProjectId url = inr id →
  id ≠ [] ∧ forallb isDigit id = true ∧
  ∃ a b, url = a ++ lit "gallery/" ++ id ++ b ∧ digits b = [] ∧
         ("?"%char ∉ a).
Proof.
  unfold extractProjectId.
  destruct (validateAndCleanUrl url) as [e|c] eqn:Hv; [done|].
  destruct (matchGalleryId c) as [id'|] eqn:Hm; [|done].
  intros [= ->].
  destruct (matchGalleryId_spec c id Hm) as (Hne & Hdig & a & b & Hc & Hb).
  split; [done|]. split; [done|].
  destruct (validateAndCleanUrl_inr url c Hv) as (Hclean & _).
  destruct (splitHead_prefix "?" url) as (q & Hq & Hhead).
  destruct (strip_shape (splitHead "?" url)) as (t & Ht & Hslash & _).
  rewrite <- Hclean in Ht.
  exists a, (b ++ t ++ q). split; [|split].
  - rewrite Hq, Ht, Hc. by rewrite <- !app_assoc.
  - destruct b as [|x b]; [|simpl in Hb |- *; by destruct (isDigit x)].
    destruct t as [|y t].
    + destruct Hhead as [->|Hhead]; [done|].
      destruct q as [|z q]; [done|]. by injection Hhead as ->.
    + simpl in Hslash. apply andb_true_iff in Hslash as [Hy _].
      by apply bool_decide_eq_true_1 in Hy as ->.
  - intros Hin. apply (splitHead_free "?"%char url).
    rewrite Ht, Hc. apply elem_of_app. left. apply elem_of_app. by left.
Qed.

Lemma extractProjectId_digits_witness :
  let url := lit "https://www.behance.net/gallery/123456/Project-Name?x=1" in
  let id := lit "123456" in
  id ≠ [] ∧ forallb isDigit id = true ∧
  ∃ a b, url = a ++ lit "gallery/" ++ id ++ b ∧ digits b = [] ∧
         ("?"%char ∉ a).
Proof.
  apply (extractProjectId_digits
           (lit "https://www.behance.net/gallery/123456/Project-Name?x=1")
           (lit "123456")).
  reflexivity.
Defined.

End NormalizeMore.

(** ** More on the image URL upscaler *)

Module UpscaleMore.
Import Js JsFacts Extractor SegmentDefs MarkerDefs Segments MarkerSpec.

Lemma relative_cons c d s :
  startsWith (c :: d :: s) (lit "//") =
  bool_decide ("/"%char = c) && bool_decide ("/"%char = d).
Proof. cbn [startsWith lit String.list_ascii_of_string]. by rewrite andb_true_r. Qed.

Lemma relative_short c : startsWith [c] (lit "//") = false.
Proof. cbn [startsWith lit String.list_ascii_of_string]. by rewrite andb_false_r. Qed.

(** A substitution whose pattern needs a slash to start and whose
    replacement begins with a slash and another character. *)
Lemma first_keeps_head m c2 r' s :
  m [] = None → (∀ c t, c ≠ "/"%char → m (c :: t) = None) →
  c2 ≠ "/"%char →
  startsWith s (lit "//") = false →
  startsWith (replaceFirst m ("/"%char :: c2 :: r') s) (lit "//") = false.
Proof.
  intros Hnil Hhead Hc2 Hs.
  assert (Hr : ∀ x, startsWith (("/"%char :: c2 :: r') ++ x) (lit "//") = false).
  { intros x. change (("/"%char :: c2 :: r') ++ x) with ("/"%char :: c2 :: r' ++ x).
    rewrite relative_cons. rewrite (bool_decide_eq_false_2 (_ = c2)) by done.
    apply andb_false_r. }
  destruct s as [|c [|d s]].
  - simpl. by rewrite Hnil.
  - rewrite replaceFirst_cons. destruct (m [c]); [apply Hr|].
    rewrite replaceFirst_nil by done. apply relative_short.
  - rewrite replaceFirst_cons. destruct (m (c :: d :: s)); [apply Hr|].
    rewrite relative_cons in Hs. apply andb_false_iff in Hs as [Hc|Hd].
    + destruct (replaceFirst m _ (d :: s)) as [|e u]; [apply relative_short|].
      rewrite relative_cons, Hc. done.
    + rewrite replaceFirst_cons, Hhead.
      * rewrite relative_cons, Hd. apply andb_false_r.
      * intros ->. by rewrite bool_decide_eq_true_2 in Hd.
Qed.

(** A global substitution whose replacement does not begin with a slash. *)
Lemma all_keeps_head m c1 r' s :
  c1 ≠ "/"%char →
  startsWith s (lit "//") = false →
  startsWith (replaceAll m (c1 :: r') s) (lit "//") = false.
Proof.
  intros Hc1 Hs.
  assert (Hr : ∀ x, startsWith ((c1 :: r') ++ x) (lit "//") = false).
  { intros x. change ((c1 :: r') ++ x) with (c1 :: r' ++ x).
    destruct (r' ++ x) as [|e u]; [apply relative_short|].
    rewrite relative_cons. by rewrite (bool_decide_eq_false_2 (_ = c1)). }
  assert (Hr' : ∀ c x, startsWith (c :: (c1 :: r') ++ x) (lit "//") = false).
  { intros c x. change (c :: (c1 :: r') ++ x) with (c :: c1 :: r' ++ x).
    rewrite relative_cons. rewrite (bool_decide_eq_false_2 (_ = c1)) by done.
    apply andb_false_r. }
  destruct s as [|c [|d s]].
  - done.
  - rewrite replaceAll_cons. destruct (m [c]); [apply Hr|].
    rewrite replaceAll_nil. apply relative_short.
  - rewrite replaceAll_cons. destruct (m (c :: d :: s)); [apply Hr|].
    rewrite replaceAll_cons. destruct (m (d :: s)); [apply Hr'|].
    rewrite relative_cons in Hs |- *. done.
Qed.

Lemma schemeStep_not_relative url :
  startsWith (schemeStep url) (lit "//") = false.
Proof.
  unfold schemeStep, replaceAtStart, m_lit.
  destruct (startsWith url (lit "//")) eqn:Hs; done.
Qed.

Lemma upscale_head url :
  startsWith (getHighestQualityUrl url) (lit "//") = false.
Proof.
  destruct url as [|c0 url0]; [done|].
  rewrite upscale_steps by done. unfold sizes. cbn [foldl].
  unfold suffixStep, re_size_suffix.
  do 5 (apply (all_keeps_head _ "_"%char); [done|]).
  unfold segmentStep.
  assert (Hseg : ∀ n s, n ∈ sizes → startsWith s (lit "//") = false →
            startsWith (replaceFirst (re_size_segment n) (lit "/2000/") s)
              (lit "//") = false).
  { intros n s Hn Hs. destruct (size_facts n Hn) as (Hslash & _).
    pose proof (anchored_size n Hslash) as Ha.
    apply (first_keeps_head _ "2"%char);
      [apply (anchored_nil _ _ Ha)|apply (anchored_head _ _ Ha)|done|done]. }
  do 5 (apply Hseg; [by apply (bool_decide_unpack _)|]).
  unfold fsStep.
  apply (first_keeps_head _ "o"%char);
    [apply (anchored_nil _ _ anchored_fs)|apply (anchored_head _ _ anchored_fs)
    |done|apply schemeStep_not_relative].
Qed.

(** X15. Whatever the input, the URL [getHighestQualityUrl] returns is
    never protocol-relative (it does not begin with [//]), and it is
    empty only for the empty input. *)
Theorem upscale_never_protocol_relative url :
  startsWith (getHighestQualityUrl url) (lit "//") = false ∧
  (getHighestQualityUrl url = [] ↔ url = []).
Proof. split; [apply upscale_head|apply UpscaleSpec.upscale_empty_iff]. Qed.

Lemma upscale_unmarked url :
  hasMarker url = false →
  startsWith url (lit "//") = false →
  getHighestQualityUrl url = url.
Proof.
  intros Hm Hs. destruct url as [|c0 url0]; [done|].
  set (url := c0 :: url0) in *.
  rewrite upscale_steps by done.
  apply hasMarker_false in Hm as (Hfs & Hseg & Hsuf).
  assert (Hscheme : schemeStep url = url).
  { unfold schemeStep, replaceAtStart, m_lit. by rewrite Hs. }
  assert (Hfs' : fsStep url = url).
  { unfold fsStep. by apply replaceFirst_fires. }
  assert (Hseg' : ∀ n, n ∈ sizes → segmentStep url n = url).
  { intros n Hn. unfold segmentStep. by apply replaceFirst_fires, Hseg. }
  assert (Hsuf' : ∀ n, n ∈ sizes → suffixStep url n = url).
  { intros n Hn. unfold suffixStep.
    apply (replaceAll_fires _ _ (List.length url)); [done|done|by apply Hsuf]. }
  rewrite Hscheme, Hfs'. unfold sizes. cbn [foldl].
  rewrite !Hseg' by by apply (bool_decide_unpack _).
  rewrite !Hsuf' by by apply (bool_decide_unpack _).
  done.
Qed.

(** X16. A URL without any low-resolution marker that is not
    protocol-relative is a fixed point of [getHighestQualityUrl]. *)
Theorem upscale_fixed_point url :
  hasMarker url = false →
  startsWith url (lit "//") = false →
  getHighestQualityUrl url = url.
Proof. apply upscale_unmarked. Qed.

Lemma upscale_fixed_point_witness :
  let url := lit "https://mir-s3-cdn-cf.behance.net/project_modules/2000/a.jpg" in
  getHighestQualityUrl url = url.
Proof.
  apply (upscale_fixed_point
           (lit "https://mir-s3-cdn-cf.behance.net/project_modules/2000/a.jpg"));
    reflexivity.
Defined.

(** With each path pattern matching at most once no marker is left. *)
Lemma upscale_no_marker url :
  Forall (λ m, (occurrences m url ≤ 1)%nat) pathMarkers →
  hasMarker (getHighestQualityUrl url) = false.
Proof.
  intros Hocc. destruct url as [|c0 url0]; [done|].
  set (url := c0 :: url0) in *.
  rewrite upscale_steps by done.
  destruct (decompose url) as (g0 & gs & Hurl & Hg0 & Hgs).
  destruct (schemeStep_flat g0 gs Hg0 Hgs) as (g0' & Hscheme & Hg0').
  rewrite Hurl, Hscheme.
  apply Forall_cons in Hocc as [Hfs Hseg].
  rewrite Hurl, (occurrences_flat _ _ anchored_fs) in Hfs by done.
  assert (Hsizes : ∀ n, n ∈ sizes → (countSeg (segSize n) gs ≤ 1)%nat).
  { intros n Hn. destruct (size_facts n Hn) as (Hslash & _).
    rewrite <- (occurrences_flat _ _ (anchored_size n Hslash) gs g0), <- Hurl
      by done.
    rewrite Forall_forall in Hseg. apply Hseg.
    by apply list_elem_of_In, in_map, list_elem_of_In. }
  destruct (path_steps g0' gs Hg0' Hgs Hfs Hsizes) as [Hfs6 Hseg6].
  destruct (suffix_steps sizes
              (foldl segmentStep (fsStep (g0' ++ flat gs)) sizes))
    as (Hfs' & Hseg' & Hsuf' & _); [done|].
  apply hasMarker_false. split; [by apply Hfs'|]. split.
  - intros n Hn. apply Hseg'; [done|]. by apply Hseg6.
  - done.
Qed.

(** X17. On every URL in which each path-segment pattern matches at most
    once, [getHighestQualityUrl] is idempotent: upscaling its output
    again changes nothing. *)
Theorem upscale_idempotent url :
  Forall (λ m, (occurrences m url ≤ 1)%nat) pathMarkers →
  getHighestQualityUrl (getHighestQualityUrl url) = getHighestQualityUrl url.
Proof.
  intros Hocc. apply upscale_unmarked.
  - by apply upscale_no_marker.
  - apply upscale_head.
Qed.

Lemma upscale_idempotent_witness :
  let url := lit "//mir-s3-cdn-cf.behance.net/project_modules/1400/a_200.b_200.c_400.jpg" in
  getHighestQualityUrl (getHighestQualityUrl url) = getHighestQualityUrl url.
Proof.
  apply (upscale_idempotent
           (lit "//mir-s3-cdn-cf.behance.net/project_modules/1400/a_200.b_200.c_400.jpg")).
  repeat constructor; vm_compute; lia.
Defined.

End UpscaleMore.

(** ** More on extraction: extensions, names and the two scans *)

Module ExtractionMore.
Import Js JsFacts Extractor SanitizeDefs ExtractionDefs ExtractionSpec.

(** X18. [getExtensionFromUrl] always answers with one of the five known
    extensions.  The order of the list decides, not the place in the URL:
    a URL that contains [.jpg] anywhere (in any letter case) is given
    [.jpg]; an answer other than [.jpg] does occur in the lower-cased
    URL; and a URL with no known extension is given [.jpg]. *)
Theorem getExtensionFromUrl_known url :
  let ext := getExtensionFromUrl url in
  ext ∈ extensions ∧
  (includes (toLowerCase url) (lit ".jpg") = true → ext = lit ".jpg") ∧
  (ext ≠ lit ".jpg" → includes (toLowerCase url) ext = true) ∧
  ((∀ e, e ∈ extensions → includes (toLowerCase url) e = false) →
   ext = lit ".jpg").
Proof.
  unfold getExtensionFromUrl, extensions. cbn [List.find].
  destruct (includes (toLowerCase url) (lit ".jpg")) eqn:H1.
  { repeat split; try done. apply (bool_decide_unpack _). by vm_compute. }
  destruct (includes (toLowerCase url) (lit ".jpeg")) eqn:H2.
  { repeat split; try done.
    - apply (bool_decide_unpack _). by vm_compute.
    - intros H. rewrite H in H2; [done|].
      apply (bool_decide_unpack _). by vm_compute. }
  destruct (includes (toLowerCase url) (lit ".png")) eqn:H3.
  { repeat split; try done.
    - apply (bool_decide_unpack _). by vm_compute.
    - intros H. rewrite H in H3; [done|].
      apply (bool_decide_unpack _). by vm_compute. }
  destruct (includes (toLowerCase url) (lit ".gif")) eqn:H4.
  { repeat split; try done.
    - apply (bool_decide_unpack _). by vm_compute.
    - intros H. rewrite H in H4; [done|].
      apply (bool_decide_unpack _). by vm_compute. }
  destruct (includes (toLowerCase url) (lit ".webp")) eqn:H5.
  { repeat split; try done.
    - apply (bool_decide_unpack _). by vm_compute.
    - intros H. rewrite H in H5; [done|].
      apply (bool_decide_unpack _). by vm_compute. }
  repeat split; try done. apply (bool_decide_unpack _). by vm_compute.
Qed.

Lemma toLowerChar_non_alnum c :
  isAlnum c = false → isAlnum (toLowerChar c) = false.
Proof.
  destruct c as [[] [] [] [] [] [] [] []]; by vm_compute.
Qed.

Lemma replaced_non_alnum name :
  forallb (λ c, negb (isAlnum c)) name = true →
  replaced name = replicate (List.length name) "_"%char.
Proof.
  intros H. unfold replaced, re_non_alnum.
  change (lit "_") with ["_"%char]. rewrite replaceAll_class.
  unfold toLowerCase. induction name as [|c name IH]; [done|].
  simpl in H. apply andb_true_iff in H as [Hc H].
  apply negb_true_iff in Hc. simpl.
  rewrite (toLowerChar_non_alnum c Hc). f_equal. by apply IH.
Qed.

Lemma underscores_replicate n :
  underscores (replicate n "_"%char) = n.
Proof. induction n as [|n IH]; [done|]. simpl. by rewrite IH. Qed.

(** X19. A title of Latin-1 characters (code points up to U+00FF) that
    has no ASCII letter or digit (the empty title, one made of
    punctuation only, one of accented letters only) is sanitised to the
    fallback name [image].  Characters beyond Latin-1 are outside this
    statement: some of them lower-case to an ASCII letter. *)
Theorem sanitizeFilename_fallback name :
  forallb (λ c, negb (isAlnum c)) name = true →
  sanitizeFilename name = lit "image".
Proof.
  intros H. rewrite SanitizeSpec.sanitizeFilename_stages.
  unfold trimmed, collapsed. rewrite (replaced_non_alnum name H).
  destruct (List.length name) as [|n]; [done|].
  change (replicate (S n) "_"%char) with ("_"%char :: replicate n "_"%char).
  rewrite replaceAll_cons. unfold re_underscores at 1.
  change ("_"%char :: replicate n "_"%char) with (replicate (S n) "_"%char).
  rewrite underscores_replicate. cbn [Nat.pred].
  rewrite drop_ge by by rewrite length_replicate. done.
Qed.

Lemma sanitizeFilename_fallback_witness :
  sanitizeFilename (lit " -- (!) -- ") = lit "image".
Proof.
  apply (sanitizeFilename_fallback (lit " -- (!) -- ")). reflexivity.
Defined.

Lemma string_of_uint_digits d :
  forallb isDigit (lit (NilEmpty.string_of_uint d)) = true.
Proof. induction d; done. Qed.

Lemma decimal_digits n : forallb isDigit (decimal n) = true.
Proof. apply string_of_uint_digits. Qed.

Lemma decimal_inj n m : decimal n = decimal m → n = m.
Proof.
  unfold decimal. intros H.
  apply (f_equal String.string_of_list_ascii) in H.
  rewrite !String.string_of_list_ascii_of_string in H.
  apply (f_equal NilEmpty.uint_of_string) in H.
  rewrite !NilEmpty.usu in H. injection H as H.
  apply (f_equal Nat.of_uint) in H. by rewrite !Unsigned.of_to in H.
Qed.

(** Two runs of digits, each followed by something that does not begin
    with a digit, are equal when the whole strings are. *)
Lemma digit_run_inj a b x y :
  forallb isDigit a = true → forallb isDigit b = true →
  digits x = [] → x ≠ [] → digits y = [] → y ≠ [] →
  a ++ x = b ++ y → a = b.
Proof.
  revert b. induction a as [|c a IH]; intros b Ha Hb Hx Hxn Hy Hyn Heq.
  - destruct b as [|d b]; [done|]. simpl in Heq. subst x.
    simpl in Hb, Hx. apply andb_true_iff in Hb as [Hd _].
    by rewrite Hd in Hx.
  - destruct b as [|d b].
    + simpl in Heq. subst y. simpl in Ha, Hy.
      apply andb_true_iff in Ha as [Hc _]. by rewrite Hc in Hy.
    + simpl in Heq. injection Heq as -> Heq. f_equal.
      simpl in Ha, Hb. apply andb_true_iff in Ha as [_ Ha].
      apply andb_true_iff in Hb as [_ Hb]. by apply (IH b).
Qed.

Lemma extension_shape url :
  digits (getExtensionFromUrl url) = [] ∧ getExtensionFromUrl url ≠ [].
Proof.
  unfold getExtensionFromUrl, extensions. cbn [List.find].
  repeat (destruct (includes _ _); [done|]). done.
Qed.

Lemma nameOf_inj title i j u v :
  nameOf title i u = nameOf title j v → i = j.
Proof.
  unfold nameOf. intros H.
  apply app_inv_head, app_inv_head in H.
  apply decimal_inj.
  destruct (extension_shape u) as [Hu Hun], (extension_shape v) as [Hv Hvn].
  exact (digit_run_inj _ _ _ _ (decimal_digits i) (decimal_digits j)
           Hu Hun Hv Hvn H).
Qed.

Lemma wellNamed_distinct title st :
  wellNamed title st → NoDup (map Types.filename (images st)).
Proof.
  intros (_ & _ & Hnames).
  change (NoDup (Types.filename <$> images st)).
  apply NoDup_alt. intros i j name Hi Hj.
  apply list_lookup_fmap_Some in Hi as (img1 & Hn1 & Hi).
  apply list_lookup_fmap_Some in Hj as (img2 & Hn2 & Hj).
  apply Hnames in Hi, Hj. rewrite Hi in Hn1. rewrite Hj in Hn2.
  assert (S i = S j); [|lia].
  apply (nameOf_inj title _ _ (Types.url img1) (Types.url img2)).
  by rewrite <- Hn1, <- Hn2.
Qed.

(** X20. The descriptors the extraction loop produces for a page have
    pairwise distinct file names (as their URLs are distinct): no
    download overwrites another. *)
Theorem extracted_names_distinct title imgs :
  let found := images (processImages title noneFound (scanImages imgs)) in
  NoDup (map Types.filename found) ∧ NoDup (map Types.url found).
Proof.
  intros found.
  destruct (processImages_run title (scanImages imgs) noneFound)
    as [Hwell _]; [apply scanImages_nonempty|apply wellNamed_noneFound|].
  split; [by apply (wellNamed_distinct title)|].
  by destruct Hwell as (_ & Hnd & _).
Qed.

Lemma nothing_found title st :
  wellNamed title st → images st = [] → st = noneFound.
Proof.
  intros (Hseen & _) Himg. destruct st as [imgs sn]. simpl in *. subst imgs.
  unfold noneFound. f_equal. apply leibniz_equiv. intros u.
  split; [|by intros ?%elem_of_empty].
  intros Hu%Hseen. by apply elem_of_nil in Hu.
Qed.

(** X21. [extractBehanceImages] on a URL with a project id whose page
    loads: the answer is what the loop makes of the first scan when that
    is not empty; otherwise what it makes of the scan after scrolling,
    as if that had been the only scan; and the 'No images found' error
    exactly when both give nothing.  An empty list is never returned. *)
Theorem extract_two_scans load url id page :
  extractProjectId url = inr id →
  load (lit "https://www.behance.net/gallery/" ++ id) = Some page →
  let title := match ogTitle page with
               | Some (c :: t) => c :: t
               | _ => lit "behance_project"
               end in
  let first := images (processImages title noneFound (scanImages (imgs page))) in
  let second :=
    images (processImages title noneFound (scanImages (imgsAfterScroll page))) in
  extractBehanceImages load url =
    match first, second with
    | _ :: _, _ => inr first
    | [], _ :: _ => inr second
    | [], [] => inl NoImagesError
    end ∧
  extractBehanceImages load url ≠ inr [].
Proof.
  intros Hid Hload title first second.
  assert (Hres : extractBehanceImages load url =
    match first, second with
    | _ :: _, _ => inr first
    | [], _ :: _ => inr second
    | [], [] => inl NoImagesError
    end).
  { unfold extractBehanceImages. rewrite Hid, Hload. cbv zeta. fold title.
    destruct (processImages_run title (scanImages (imgs page)) noneFound)
      as [Hwell _]; [apply scanImages_nonempty|apply wellNamed_noneFound|].
    unfold first, second.
    destruct (images (processImages title noneFound (scanImages (imgs page))))
      as [|i rest] eqn:Hfirst; [|by rewrite Hfirst].
    rewrite (nothing_found title _ Hwell Hfirst).
    by destruct (images (processImages title noneFound
                           (scanImages (imgsAfterScroll page)))). }
  split; [done|]. rewrite Hres.
  destruct first as [|i rest]; [|done]. by destruct second.
Qed.

Lemma extract_two_scans_witness :
  let page :=
    {| ogTitle := Some (lit "My Project!");
       imgs := [];
       imgsAfterScroll :=
         [ {| src := lit "https://mir-s3-cdn-cf.behance.net/project_modules/200/a.png";
              data_src := None |} ] |} in
  let load := λ _ : list ascii, Some page in
  let url := lit "https://www.behance.net/gallery/123456/Project-Name?x=1" in
  let title := match ogTitle page with
               | Some (c :: t) => c :: t
               | _ => lit "behance_project"
               end in
  let first := images (processImages title noneFound (scanImages (imgs page))) in
  let second :=
    images (processImages title noneFound (scanImages (imgsAfterScroll page))) in
  extractBehanceImages load url =
    match first, second with
    | _ :: _, _ => inr first
    | [], _ :: _ => inr second
    | [], [] => inl NoImagesError
    end ∧
  extractBehanceImages load url ≠ inr [].
Proof.
  intros page load url.
  apply (extract_two_scans load url (lit "123456") page); reflexivity.
Defined.

End ExtractionMore.

(** ** The search route: the handler over the extractor *)

Module RouteMore.
Import Js JsFacts Extractor Handler Quota QuotaDefs HandlerMore.

Lemma processImage_absolute title st u :
  Forall (λ img, startsWith (Types.url img) (lit "//") = false) (images st) →
  Forall (λ img, startsWith (Types.url img) (lit "//") = false)
         (images (processImage title st u)).
Proof.
  intros H. unfold processImage.
  pose proof (UpscaleMore.upscale_head u) as Hu.
  destruct (getHighestQualityUrl u) as [|c v]; [done|].
  case_decide; [done|]. simpl.
  apply Forall_app. split; [done|]. by apply Forall_singleton.
Qed.

Lemma processImages_absolute title urls : ∀ st,
  Forall (λ img, startsWith (Types.url img) (lit "//") = false) (images st) →
  Forall (λ img, startsWith (Types.url img) (lit "//") = false)
         (images (processImages title st urls)).
Proof.
  induction urls as [|u urls IH]; intros st H; [done|].
  unfold processImages. simpl. apply IH. by apply processImage_absolute.
Qed.

Lemma extract_result load u l :
  extractBehanceImages load u = inr l →
  l ≠ [] ∧ Forall (λ img, startsWith (Types.url img) (lit "//") = false) l.
Proof.
  unfold extractBehanceImages.
  destruct (extractProjectId u) as [e|id]; [done|].
  destruct (load _) as [page|]; [|done]. cbv zeta.
  set (title := match ogTitle page with
                | Some (c :: t) => c :: t
                | _ => lit "behance_project"
                end).
  set (first := processImages title noneFound (scanImages (imgs page))).
  assert (Hfirst : Forall (λ img, startsWith (Types.url img) (lit "//") = false)
                     (images first))
    by (apply processImages_absolute; apply Forall_nil_2).
  set (found := match images first with
                | [] => processImages title first (scanImages (imgsAfterScroll page))
                | _ :: _ => first
                end).
  assert (Hfound : Forall (λ img, startsWith (Types.url img) (lit "//") = false)
                     (images found)).
  { unfold found. destruct (images first) eqn:E; [|by rewrite E].
    apply processImages_absolute. by rewrite E. }
  destruct (images found) as [|i rest]; [done|].
  intros [= <-]. done.
Qed.

Lemma scheme_map_absolute (l : list Types.BehanceImage) :
  Forall (λ img, startsWith (Types.url img) (lit "//") = false) l →
  map (λ img, {| Types.url := replaceAtStart (m_lit (lit "//")) (lit "https://")
                                (Types.url img);
                 Types.filename := Types.filename img |}) l = l.
Proof.
  induction 1 as [|img l Himg _ IH]; [done|]. cbn [map]. rewrite IH. f_equal.
  unfold replaceAtStart, m_lit. rewrite Himg. by destruct img.
Qed.

(** X22. The search route of the deployed handler, that is [handler] run
    over [extractBehanceImages]: a valid ['search'] request (the action
    may be left out) of a client with quota left (the observation returns
    a snapshot with something remaining) is always answered 200, with
    exactly the descriptors the extractor returned (the handler's own
    [//] rewrite changes none of them) or, when the extractor throws,
    with the client-side fallback.  It never reaches the final
    'Method not allowed', and the client is merely observed. *)
Theorem search_route load t req st b u info :
  method req = POST →
  body req = Some b →
  url b = Some u →
  includes u (lit "behance.net/gallery") = true →
  action b = None ∨ action b = Some "search" →
  let peek := getRateLimitInfo (checked t) (getClientIp req) st in
  peek.1 = Some info →
  0 < Types.remaining info →
  handler (extractBehanceImages load) t req st =
    (Some {| status := 200;
             payload := match extractBehanceImages load u with
                        | inr images => ImagesJson images info
                        | inl _ => ClientDownloadJson info
                        end |}, peek.2).
Proof.
  intros Hm Hb Hu Hinc Ha peek Hinfo Hrem. unfold peek in *. clear peek.
  apply peek_Some in Hinfo as [Hr ->].
  rewrite handler_cases by done. cbv zeta. rewrite Hm, Hb, Hu.
  rewrite QuotaSpec.getRateLimitInfo_readable by done. cbn [snd].
  change (<[getClientIp req := observed (checked t) (st !! getClientIp req)]> st)
    with (observation (checked t) (getClientIp req) st).2.
  destruct u as [|c u]; [discriminate|]. rewrite Hinc. cbn [negb].
  assert (Hs : default "search" (action b) = "search")
    by by destruct Ha as [-> | ->].
  rewrite Hs. rewrite decide_True by done.
  rewrite bool_decide_true by done.
  destruct (extractBehanceImages load (c :: u)) as [e|l] eqn:He; [done|].
  destruct (extract_result load (c :: u) l He) as [Hne Habs].
  destruct l as [|i rest]; [done|].
  by rewrite (scheme_map_absolute (i :: rest) Habs).
Qed.

Lemma search_route_witness :
  let page :=
    {| ogTitle := Some (lit "My Project!");
       imgs := [ {| src := [];
                    data_src := Some (lit "//mir-s3-cdn-cf.behance.net/project_modules/200/a.png") |} ];
       imgsAfterScroll := [] |} in
  let load := λ _ : list ascii, Some page in
  let u := lit "https://www.behance.net/gallery/123456/Project-Name" in
  let b := {| url := Some u; action := None |} in
  let req := {| method := POST;
                forwardedFor := Some (FwdString "203.0.113.7");
                remoteAddress := None;
                body := Some b |} in
  let t := {| checked := 5; pushed := 5; answered := 5 |} in
  let info := {| Types.used := 0; Types.limit := 20; Types.remaining := 20;
                 Types.resetTime := 3600005 |} in
  let peek := getRateLimitInfo (checked t) (getClientIp req) ∅ in
  handler (extractBehanceImages load) t req ∅ =
    (Some {| status := 200;
             payload := match extractBehanceImages load u with
                        | inr images => ImagesJson images info
                        | inl _ => ClientDownloadJson info
                        end |}, peek.2).
Proof.
  intros page load u b req t info.
  apply (search_route load t req ∅ b u info); try reflexivity.
  by left.
Defined.

End RouteMore.

(** ** More on the download orchestration *)

Module ClientMore.
Import Js JsFacts Client ClientDefs ClientSpec.

Lemma downloadWithRetry_unfold env image attempt w :
  downloadWithRetry env image attempt w =
  match attemptOnce env image w with
  | (Some blob, w1) => (Some blob, w1)
  | (None, w1) =>
      if decide (attempt < MAX_RETRIES)%nat then
        downloadWithRetry env image (S attempt)
          (sleep (RETRY_DELAY * Z.of_nat attempt)
             (emit (ConsoleError (Types.filename image) attempt) w1))
      else (None, emit (ConsoleError (Types.filename image) attempt) w1)
  end.
Proof.
  rewrite downloadWithRetry_equation_1.
  destruct (attemptOnce env image w) as [[blob|] w1]; [done|].
  rewrite downloadWithRetry_clause_1_equation_2.
  destruct (lt_dec attempt MAX_RETRIES) as [Hlt|Hge].
  - rewrite downloadWithRetry_clause_1_clause_2_equation_1.
    by rewrite decide_True.
  - rewrite downloadWithRetry_clause_1_clause_2_equation_2.
    by rewrite decide_False.
Qed.

Lemma attemptOnce_clock env image w :
  clock (attemptOnce env image w).2 = clock w.
Proof.
  unfold attemptOnce, axiosGet.
  destruct (transport env (Types.url image) (requests w)); [|done].
  unfold recordDownload. simpl.
  destruct (api env _ _ _) as [resp st]. by case_decide.
Qed.

(** X23. The retry schedule of [downloadWithRetry] as the loops call it
    (from attempt 1), whatever the transport and the API do: it makes
    one, two or three image requests, waits 1000 ms before the second and
    2000 ms before the third and never otherwise, and returns [null] only
    after the third. *)
Theorem retry_schedule env image w :
  let r := downloadWithRetry env image 1 w in
  let n := (requests r.2 - requests w)%nat in
  (1 ≤ n ≤ 3)%nat ∧
  clock r.2 = clock w + waited n ∧
  (r.1 = None → n = 3%nat).
Proof.
  intros r n. unfold n, r. clear r n.
  rewrite downloadWithRetry_unfold.
  pose proof (attemptOnce_requests env image w) as Hr1.
  pose proof (attemptOnce_clock env image w) as Hc1.
  destruct (attemptOnce env image w) as [[b1|] w1]; simpl in Hr1, Hc1.
  { simpl. rewrite Hr1, Hc1.
    replace (S (requests w) - requests w)%nat with 1%nat by lia.
    simpl. split; [lia|]. split; [lia|done]. }
  rewrite decide_True by (unfold MAX_RETRIES; lia).
  set (w2 := sleep _ _).
  assert (Hr2 : requests w2 = S (requests w)) by (by rewrite <- Hr1).
  assert (Hc2 : clock w2 = clock w + 1000) by (simpl; by rewrite Hc1).
  clearbody w2. clear Hr1 Hc1 w1.
  rewrite downloadWithRetry_unfold.
  pose proof (attemptOnce_requests env image w2) as Hr1.
  pose proof (attemptOnce_clock env image w2) as Hc1.
  destruct (attemptOnce env image w2) as [[b2|] w3]; simpl in Hr1, Hc1.
  { simpl. rewrite Hr1, Hc1, Hr2, Hc2.
    replace (S (S (requests w)) - requests w)%nat with 2%nat by lia.
    simpl. split; [lia|]. split; [lia|done]. }
  rewrite decide_True by (unfold MAX_RETRIES; lia).
  set (w4 := sleep _ _).
  assert (Hr4 : requests w4 = S (S (requests w)))
    by (unfold w4; simpl; by rewrite Hr1, Hr2).
  assert (Hc4 : clock w4 = clock w + 3000)
    by (unfold w4; simpl; rewrite Hc1, Hc2; unfold RETRY_DELAY; lia).
  clearbody w4. clear Hr1 Hc1 Hr2 Hc2 w2 w3.
  rewrite downloadWithRetry_unfold.
  pose proof (attemptOnce_requests env image w4) as Hr1.
  pose proof (attemptOnce_clock env image w4) as Hc1.
  destruct (attemptOnce env image w4) as [[b3|] w5]; simpl in Hr1, Hc1.
  { simpl. rewrite Hr1, Hc1, Hr4, Hc4.
    replace (S (S (S (requests w))) - requests w)%nat with 3%nat by lia.
    simpl. split; [lia|]. split; [lia|done]. }
  rewrite decide_False by (unfold MAX_RETRIES; lia).
  simpl. rewrite Hr1, Hc1, Hr4, Hc4.
  replace (S (S (S (requests w))) - requests w)%nat with 3%nat by lia.
  simpl. split; [lia|]. split; [lia|done].
Qed.

Lemma attemptOnce_accepted env image w :
  (∀ now st, 200 ≤ Handler.status (api env (recordRequest env) now st).1 < 300) →
  (attemptOnce env image w).1 =
  blobOf <$> transport env (Types.url image) (requests w).
Proof.
  intros Hapi. unfold attemptOnce, axiosGet.
  destruct (transport env (Types.url image) (requests w)) as [resp|]; [|done].
  unfold recordDownload. cbn [clock rateLimitStore emit].
  specialize (Hapi (clock w) (rateLimitStore w)).
  destruct (api env _ _ _) as [r st]. simpl in Hapi.
  by rewrite decide_True.
Qed.

(** X24. Against an API that accepts the record request,
    [downloadWithRetry] (from attempt 1) returns the blob of the first of
    its up to three image requests that succeeds, with the content type
    of the response or [image/jpeg] when it has none, and [null] when all
    three fail. *)
Theorem retry_returns_first_success env image w :
  (∀ now st, 200 ≤ Handler.status (api env (recordRequest env) now st).1 < 300) →
  (downloadWithRetry env image 1 w).1 =
  blobOf <$> match outcome env image w 0 with
             | Some response => Some response
             | None =>
                 match outcome env image w 1 with
                 | Some response => Some response
                 | None => outcome env image w 2
                 end
             end.
Proof.
  intros Hapi. unfold outcome.
  rewrite downloadWithRetry_unfold.
  pose proof (attemptOnce_requests env image w) as Hr1.
  pose proof (attemptOnce_accepted env image w Hapi) as Ha1.
  rewrite Nat.add_0_r.
  destruct (attemptOnce env image w) as [[b1|] w1]; simpl in Hr1, Ha1.
  { destruct (transport env (Types.url image) (requests w)); [|done].
    by simpl in *. }
  destruct (transport env (Types.url image) (requests w)); [done|].
  rewrite decide_True by (unfold MAX_RETRIES; lia).
  set (w2 := sleep _ _).
  assert (Hr2 : requests w2 = (requests w + 1)%nat)
    by (unfold w2; simpl; lia).
  clearbody w2. clear Hr1 Ha1 w1.
  rewrite downloadWithRetry_unfold.
  pose proof (attemptOnce_requests env image w2) as Hr1.
  pose proof (attemptOnce_accepted env image w2 Hapi) as Ha1.
  rewrite Hr2 in Ha1.
  destruct (attemptOnce env image w2) as [[b2|] w3]; simpl in Hr1, Ha1.
  { destruct (transport env (Types.url image) (requests w + 1)); [|done].
    by simpl in *. }
  destruct (transport env (Types.url image) (requests w + 1)); [done|].
  rewrite decide_True by (unfold MAX_RETRIES; lia).
  set (w4 := sleep _ _).
  assert (Hr4 : requests w4 = (requests w + 2)%nat)
    by (unfold w4; simpl; lia).
  clearbody w4. clear Hr1 Ha1 Hr2 w2 w3.
  rewrite downloadWithRetry_unfold.
  pose proof (attemptOnce_accepted env image w4 Hapi) as Ha1.
  rewrite Hr4 in Ha1.
  destruct (attemptOnce env image w4) as [[b3|] w5]; simpl in Ha1.
  { destruct (transport env (Types.url image) (requests w + 2)); [|done].
    by simpl in *. }
  destruct (transport env (Types.url image) (requests w + 2)); [done|].
  by rewrite decide_False by (unfold MAX_RETRIES; lia).
Qed.

Lemma retry_returns_first_success_witness :
  (downloadWithRetry lenient picture 1 (idle None)).1 =
  blobOf <$> match outcome lenient picture (idle None) 0 with
             | Some response => Some response
             | None =>
                 match outcome lenient picture (idle None) 1 with
                 | Some response => Some response
                 | None => outcome lenient picture (idle None) 2
                 end
             end.
Proof.
  apply (retry_returns_first_success lenient picture (idle None)).
  intros now st. simpl. lia.
Defined.

Lemma re_extension_inner c x ext :
  re_extension (c :: x ++ "."%char :: ext) = None.
Proof.
  unfold re_extension.
  destruct (decide (c = "."%char)) as [->|Hc].
  - destruct x as [|d x]; simpl.
    + done.
    + rewrite forallb_app. simpl.
      by rewrite !andb_false_r.
  - destruct c as [[] [] [] [] [] [] [] []]; try done.
Qed.

Lemma re_extension_free s :
  "."%char ∉ s → test re_extension s = false ∧
  replaceFirst re_extension [] s = s.
Proof.
  induction s as [|c s IH]; [done|]. intros Hs.
  apply not_elem_of_cons in Hs as [Hc Hs].
  destruct (IH Hs) as [IH1 IH2].
  assert (Hnone : re_extension (c :: s) = None).
  { unfold re_extension.
    destruct c as [[] [] [] [] [] [] [] []]; try done. }
  split.
  - cbn [test]. by rewrite Hnone.
  - rewrite replaceFirst_cons, Hnone. by rewrite IH2.
Qed.

(** X25. The extension strip of the download loops,
    [filename.replace(/\.[^/.]+$/, '')]: it removes the last extension
    of a name and nothing else, also when the name has dots before it;
    a name without dot is kept whole, as is one whose last dot ends the
    name. *)
Theorem extension_strip base ext :
  ext ≠ [] →
  Forall (λ c, c ≠ "."%char ∧ c ≠ "/"%char) ext →
  replaceFirst re_extension [] (base ++ lit "." ++ ext) = base ∧
  replaceFirst re_extension [] (base ++ lit ".") = base ++ lit "." ∧
  replaceFirst re_extension [] ext = ext.
Proof.
  intros Hne Hext.
  assert (Hall : forallb (λ x, negb (bool_decide (x = "/"%char))
                               && negb (bool_decide (x = "."%char))) ext = true).
  { apply forallb_forall. intros c Hc%list_elem_of_In.
    rewrite Forall_forall in Hext. destruct (Hext c Hc).
    by rewrite !bool_decide_eq_false_2. }
  assert (Hfree : "."%char ∉ ext).
  { intros Hin. rewrite Forall_forall in Hext. by destruct (Hext _ Hin). }
  split; [|split].
  - induction base as [|c base IH].
    + destruct ext as [|e ext]; [done|].
      cbn [app lit String.list_ascii_of_string].
      rewrite replaceFirst_cons. unfold re_extension at 1. rewrite Hall.
      by rewrite drop_all.
    + change ((c :: base) ++ lit "." ++ ext)
        with (c :: base ++ "."%char :: ext).
      rewrite replaceFirst_cons, re_extension_inner. f_equal. exact IH.
  - induction base as [|c base IH]; [done|].
    change ((c :: base) ++ lit ".") with (c :: base ++ "."%char :: []).
    rewrite replaceFirst_cons, re_extension_inner. f_equal. exact IH.
  - by apply re_extension_free.
Qed.

Lemma extension_strip_witness :
  replaceFirst re_extension [] (lit "my.project_1" ++ lit "." ++ lit "jpeg") =
    lit "my.project_1" ∧
  replaceFirst re_extension [] (lit "my.project_1" ++ lit ".") =
    lit "my.project_1" ++ lit "." ∧
  replaceFirst re_extension [] (lit "jpeg") = lit "jpeg".
Proof.
  apply (extension_strip (lit "my.project_1") (lit "jpeg")).
  - discriminate.
  - repeat constructor; discriminate.
Defined.

Lemma attemptOnce_books env image w :
  sameBooks (home w) (home (attemptOnce env image w).2).
Proof.
  unfold attemptOnce, axiosGet.
  destruct (transport env (Types.url image) (requests w)); [|done].
  unfold recordDownload. cbn [clock rateLimitStore emit].
  destruct (api env _ _ _) as [resp st]. by case_decide.
Qed.

Lemma downloadWithRetry_books env image attempt w :
  sameBooks (home w) (home (downloadWithRetry env image attempt w).2).
Proof.
  funelim (downloadWithRetry env image attempt w);
    match goal with H : attemptOnce _ _ _ = _ |- _ =>
      pose proof (attemptOnce_books env image w) as Hb;
      rewrite H in Hb; simpl in Hb
    end.
  - done.
  - destruct Hb as (H1 & H2 & H3 & H4).
    match goal with IH : sameBooks _ _ |- _ =>
      destruct IH as (I1 & I2 & I3 & I4) end.
    simpl in I1, I2, I3, I4. unfold sameBooks. by rewrite I1, I2, I3, I4.
  - done.
Qed.

Lemma downloadWithRetry_requests env image w :
  (requests w < requests (downloadWithRetry env image 1 w).2
   ≤ requests w + 3)%nat.
Proof.
  destruct (downloadWithRetry_attempts env image 1 w) as (H1 & H2 & _).
  unfold MAX_RETRIES in *. simpl in *. lia.
Qed.

Lemma zipStep_stepped env total acc image :
  stepped total acc image (zipStep env total acc image).
Proof.
  destruct acc as [run w]. unfold zipStep.
  pose proof (downloadWithRetry_books env image 1 w) as (H1 & H2 & H3 & H4).
  pose proof (downloadWithRetry_requests env image w) as Hr.
  destruct (downloadWithRetry env image 1 w) as [[b|] w1];
    simpl in *; unfold stepped; simpl.
  - repeat split; try done; try lia.
    right. split; [done|]. eexists. by rewrite H1.
  - repeat split; try done; try lia. by left.
Qed.

Lemma individualStep_stepped env total acc image :
  stepped total acc image (individualStep env total acc image).
Proof.
  destruct acc as [run w]. unfold individualStep.
  pose proof (downloadWithRetry_books env image 1 w) as (H1 & H2 & H3 & H4).
  pose proof (downloadWithRetry_requests env image w) as Hr.
  destruct (downloadWithRetry env image 1 w) as [[b|] w1];
    simpl in *; unfold stepped; simpl.
  - repeat split; try done; try lia.
    right. split; [done|]. eexists. by rewrite H1.
  - repeat split; try done; try lia. by left.
Qed.

Section Loop.
Context (total : nat) (step : Run * World → Types.BehanceImage → Run * World).
Context (Hstep : ∀ acc image, stepped total acc image (step acc image)).

Lemma loop_accounted images : ∀ acc,
  accounted total acc images (foldl step acc images).
Proof.
  induction images as [|image images IH]; intros acc.
  - unfold accounted. simpl. repeat split; try done; try lia.
    exists [], []. by rewrite !app_nil_r.
  - simpl.
    destruct (Hstep acc image) as (S1 & S2 & S3 & S4 & S5 & S6).
    destruct (IH (step acc image))
      as (A1 & A2 & A3 & A4 & A5 & f & d & A6 & A7 & A8 & A9).
    unfold accounted.
    split; [simpl; lia|]. split.
    { intros _. destruct images as [|i2 rest]; [|by apply A2].
      simpl in *. rewrite S2. f_equal. lia. }
    split; [congruence|]. split; [congruence|]. split; [simpl; lia|].
    destruct S6 as [[F D]|[F [name D]]].
    + exists (Types.filename image :: f), d.
      rewrite A6, A7, F, D, <- app_assoc. repeat split; try done.
      * simpl. by apply sublist_skip.
      * simpl. lia.
    + exists f, (name :: d).
      rewrite A6, A7, F, D, <- app_assoc. repeat split; try done.
      * simpl. by apply sublist_cons.
      * simpl. lia.
Qed.

End Loop.

Lemma posted_failures l w1 :
  failedDownloads (home w1) = [] →
  let w2 := match l with
            | [] => w1
            | _ :: _ => setHome (setFailedDownloads l) w1
            end in
  failedDownloads (home w2) = l ∧
  downloadedImages (home w2) = downloadedImages (home w1) ∧
  downloadProgress (home w2) = downloadProgress (home w1) ∧
  requests w2 = requests w1 ∧
  rateLimitStore w2 = rateLimitStore w1 ∧
  trace w2 = trace w1.
Proof. intros H. by destruct l. Qed.

(** X26. Every image of a download run is accounted for exactly once, in
    both modes and whatever the transport and the API do: when
    [downloadImages] returns, each image is either in the list of
    downloaded files or (under its own name) in the failure list, the
    failure list keeps the order of the selection, the progress stands at
    all of all, the downloading flag is off, and between one and three
    image requests were made per image. *)
Theorem every_image_accounted env images w :
  let w' := downloadImages env images w in
  (List.length (downloadedImages (home w')) +
   List.length (failedDownloads (home w')) = List.length images)%nat ∧
  sublist (failedDownloads (home w')) (map Types.filename images) ∧
  (images ≠ [] →
   downloadProgress (home w') = (List.length images, List.length images)) ∧
  isDownloading (home w') = false ∧
  (requests w + List.length images ≤ requests w'
   ≤ requests w + 3 * List.length images)%nat.
Proof.
  intros w'. unfold w', downloadImages. clear w'.
  set (w0 := setHome _ w).
  set (start := ({| zipped := []; failed := []; completed := 0 |}, w0)).
  destruct (downloadMode (home w)).
  - unfold downloadIndividually. fold start.
    destruct (loop_accounted (List.length images)
                (individualStep env (List.length images))
                (individualStep_stepped env (List.length images)) images start)
      as (A1 & A2 & A3 & A4 & A5 & f & d & A6 & A7 & A8 & A9).
    destruct (foldl _ start images) as [run w1].
    cbn [fst snd] in *.
    destruct (posted_failures (failed run) w1 A4) as (P1 & P2 & P3 & P4 & _).
    set (w2 := match failed run with [] => w1 | _ :: _ => _ end) in *.
    clearbody w2. simpl in *. subst f.
    rewrite P1, P2, P3, P4, A7.
    split; [lia|]. split; [done|]. split; [|split; [done|lia]].
    intros Hne. by rewrite (A2 Hne), A1.
  - unfold downloadAsZip. fold start.
    destruct (loop_accounted (List.length images)
                (zipStep env (List.length images))
                (zipStep_stepped env (List.length images)) images start)
      as (A1 & A2 & A3 & A4 & A5 & f & d & A6 & A7 & A8 & A9).
    destruct (foldl _ start images) as [run w1].
    cbn [fst snd] in *.
    destruct (posted_failures (failed run) w1 A4) as (P1 & P2 & P3 & P4 & _).
    set (w2 := match failed run with [] => w1 | _ :: _ => _ end) in *.
    clearbody w2. simpl in *. subst f.
    rewrite P1, P2, P3, P4, A7.
    split; [lia|]. split; [done|]. split; [|split; [done|lia]].
    intros Hne. by rewrite (A2 Hne), A1.
Qed.

Section FailingLoop.
Context (step : Run * World → Types.BehanceImage → Run * World).
Context (Hstep : ∀ acc image,
  failed (step acc image).1 = failed acc.1 ++ [Types.filename image] ∧
  zipped (step acc image).1 = zipped acc.1 ∧
  downloadedImages (home (step acc image).2) = downloadedImages (home acc.2) ∧
  failedDownloads (home (step acc image).2) = failedDownloads (home acc.2) ∧
  requests (step acc image).2 = (requests acc.2 + 3)%nat ∧
  ∀ k, sublist (QuotaDefs.events k (rateLimitStore (step acc image).2))
               (QuotaDefs.events k (rateLimitStore acc.2))).

Lemma loop_fails images : ∀ acc,
  let acc' := foldl step acc images in
  failed acc'.1 = failed acc.1 ++ map Types.filename images ∧
  zipped acc'.1 = zipped acc.1 ∧
  downloadedImages (home acc'.2) = downloadedImages (home acc.2) ∧
  failedDownloads (home acc'.2) = failedDownloads (home acc.2) ∧
  requests acc'.2 = (requests acc.2 + 3 * List.length images)%nat ∧
  ∀ k, sublist (QuotaDefs.events k (rateLimitStore acc'.2))
               (QuotaDefs.events k (rateLimitStore acc.2)).
Proof.
  induction images as [|image images IH]; intros acc.
  - simpl. rewrite app_nil_r. repeat split; try done; lia.
  - simpl. destruct (Hstep acc image) as (S1 & S2 & S3 & S4 & S5 & S6).
    destruct (IH (step acc image)) as (A1 & A2 & A3 & A4 & A5 & A6).
    rewrite A1, A2, A3, A4, A5, S1, S2, S3, S4, S5, <- app_assoc.
    repeat split; try done; try lia.
    intros k. etrans; [apply A6|apply S6].
Qed.

End FailingLoop.

Section AgainstDeployed.
Context (extract : list ascii → Extractor.Error + list Types.BehanceImage).
Context (env : Env) (Hapi : api env = deployed extract).

Lemma attemptOnce_deployed image w :
  home (attemptOnce env image w).2 = home w ∧
  ∀ k, sublist (QuotaDefs.events k (rateLimitStore (attemptOnce env image w).2))
               (QuotaDefs.events k (rateLimitStore w)).
Proof.
  unfold attemptOnce, axiosGet.
  destruct (transport env (Types.url image) (requests w)); [|done].
  rewrite (recordDownload_throws extract env Hapi). simpl.
  split; [done|]. intros k. apply QuotaMore.peek_events_sublist.
Qed.

Lemma downloadWithRetry_deployed image attempt w :
  home (downloadWithRetry env image attempt w).2 = home w ∧
  ∀ k, sublist
         (QuotaDefs.events k (rateLimitStore (downloadWithRetry env image attempt w).2))
         (QuotaDefs.events k (rateLimitStore w)).
Proof.
  funelim (downloadWithRetry env image attempt w);
    match goal with H : attemptOnce _ _ _ = _ |- _ =>
      pose proof (attemptOnce_deployed image w) as [Hh He];
      rewrite H in Hh, He; simpl in Hh, He
    end.
  - done.
  - match goal with IH : _ ∧ _ |- _ => destruct IH as [I1 I2] end.
    simpl in I1, I2. split; [congruence|].
    intros k. etrans; [apply I2|apply He].
  - done.
Qed.

Lemma downloadWithRetry_three image w :
  requests (downloadWithRetry env image 1 w).2 = (requests w + 3)%nat.
Proof.
  destruct (downloadWithRetry_attempts env image 1 w) as (H1 & H2 & H3).
  pose proof (downloadWithRetry_null extract env Hapi image 1 w) as Hnone.
  specialize (H3 Hnone). unfold MAX_RETRIES in *. simpl in *. lia.
Qed.

Lemma zipStep_deployed total acc image :
  failed (zipStep env total acc image).1 = failed acc.1 ++ [Types.filename image] ∧
  zipped (zipStep env total acc image).1 = zipped acc.1 ∧
  downloadedImages (home (zipStep env total acc image).2) =
    downloadedImages (home acc.2) ∧
  failedDownloads (home (zipStep env total acc image).2) =
    failedDownloads (home acc.2) ∧
  requests (zipStep env total acc image).2 = (requests acc.2 + 3)%nat ∧
  ∀ k, sublist (QuotaDefs.events k (rateLimitStore (zipStep env total acc image).2))
               (QuotaDefs.events k (rateLimitStore acc.2)).
Proof.
  destruct acc as [run w]. unfold zipStep.
  pose proof (downloadWithRetry_null extract env Hapi image 1 w) as Hnone.
  pose proof (downloadWithRetry_deployed image 1 w) as [Hh He].
  pose proof (downloadWithRetry_three image w) as Hr.
  destruct (downloadWithRetry env image 1 w) as [b w1]. simpl in *.
  subst b. simpl. by rewrite Hh.
Qed.

Lemma individualStep_deployed total acc image :
  failed (individualStep env total acc image).1 =
    failed acc.1 ++ [Types.filename image] ∧
  zipped (individualStep env total acc image).1 = zipped acc.1 ∧
  downloadedImages (home (individualStep env total acc image).2) =
    downloadedImages (home acc.2) ∧
  failedDownloads (home (individualStep env total acc image).2) =
    failedDownloads (home acc.2) ∧
  requests (individualStep env total acc image).2 = (requests acc.2 + 3)%nat ∧
  ∀ k, sublist
         (QuotaDefs.events k (rateLimitStore (individualStep env total acc image).2))
         (QuotaDefs.events k (rateLimitStore acc.2)).
Proof.
  destruct acc as [run w]. unfold individualStep.
  pose proof (downloadWithRetry_null extract env Hapi image 1 w) as Hnone.
  pose proof (downloadWithRetry_deployed image 1 w) as [Hh He].
  pose proof (downloadWithRetry_three image w) as Hr.
  destruct (downloadWithRetry env image 1 w) as [b w1]. simpl in *.
  subst b. simpl. by rewrite Hh.
Qed.

Lemma downloadImages_deployed images w :
  let w' := downloadImages env images w in
  downloadedImages (home w') = [] ∧
  failedDownloads (home w') = map Types.filename images ∧
  requests w' = (requests w + 3 * List.length images)%nat ∧
  (∀ k, sublist (QuotaDefs.events k (rateLimitStore w'))
                (QuotaDefs.events k (rateLimitStore w))) ∧
  (downloadMode (home w) = zip →
   ∃ name, last (trace w') = Some (SaveZip name [])).
Proof.
  intros w'. unfold w', downloadImages. clear w'.
  set (w0 := setHome _ w).
  set (start := ({| zipped := []; failed := []; completed := 0 |}, w0)).
  destruct (downloadMode (home w)).
  - unfold downloadIndividually. fold start.
    destruct (loop_fails (individualStep env (List.length images))
                (individualStep_deployed (List.length images)) images start)
      as (A1 & A2 & A3 & A4 & A5 & A6).
    destruct (foldl _ start images) as [run w1].
    cbn [fst snd] in *.
    destruct (posted_failures (failed run) w1 A4) as (P1 & P2 & _ & P4 & P5 & _).
    set (w2 := match failed run with [] => w1 | _ :: _ => _ end) in *.
    clearbody w2. simpl in *.
    rewrite P1, P2, P4, P5, A1, A3, A5. by repeat split.
  - unfold downloadAsZip. fold start.
    destruct (loop_fails (zipStep env (List.length images))
                (zipStep_deployed (List.length images)) images start)
      as (A1 & A2 & A3 & A4 & A5 & A6).
    destruct (foldl _ start images) as [run w1].
    cbn [fst snd] in *.
    destruct (posted_failures (failed run) w1 A4) as (P1 & P2 & _ & P4 & P5 & _).
    set (w2 := match failed run with [] => w1 | _ :: _ => _ end) in *.
    clearbody w2. simpl in *.
    rewrite P1, P2, P4, P5, A1, A2, A3, A5. repeat split; try done.
    intros _. eexists. by rewrite last_snoc.
Qed.

End AgainstDeployed.

(** X27. Against the route of this repository no download run ever saves
    an image.  The page's record request carries no [url], the handler
    answers it 400 (or throws, when the client key cannot be read, and
    the answer is 500), and so every attempt counts as failed: whatever the
    transport delivers, [downloadImages] makes three image requests per
    image, ends with every image in the failure list and none in the
    list of downloaded files, records no event on the server, and in
    archive mode saves an archive without any entry. *)
Theorem deployed_route_fails_every_image extract env images w :
  api env = deployed extract →
  let w' := downloadImages env images w in
  downloadedImages (home w') = [] ∧
  failedDownloads (home w') = map Types.filename images ∧
  requests w' = (requests w + 3 * List.length images)%nat ∧
  (∀ k, sublist (QuotaDefs.events k (rateLimitStore w'))
                (QuotaDefs.events k (rateLimitStore w))) ∧
  (downloadMode (home w) = zip →
   ∃ name, last (trace w') = Some (SaveZip name [])).
Proof. intros Hapi. by apply (downloadImages_deployed extract). Qed.

Lemma deployed_route_fails_every_image_witness :
  let w' := downloadImages steady five (idle None) in
  downloadedImages (home w') = [] ∧
  failedDownloads (home w') = map Types.filename five ∧
  requests w' = (requests (idle None) + 3 * List.length five)%nat ∧
  (∀ k, sublist (QuotaDefs.events k (rateLimitStore w'))
                (QuotaDefs.events k (rateLimitStore (idle None)))) ∧
  (downloadMode (home (idle None)) = zip →
   ∃ name, last (trace w') = Some (SaveZip name [])).
Proof.
  apply (deployed_route_fails_every_image
           (λ _, inl Extractor.UpstreamLoadError) steady five (idle None)).
  reflexivity.
Defined.

End ClientMore.

(** ** The preview dialog *)

Module PreviewSpec.
Import Js JsFacts Extractor ExtractionDefs ExtractionSpec Preview.

(** X28. Clicking an image twice restores the selection: [toggleImage]
    is its own inverse.  One click changes the membership of that URL and
    of no other. *)
Theorem toggleImage_involutive (url : list ascii)
    (selectedImages : gset (list ascii)) :
  toggleImage url (toggleImage url selectedImages) = selectedImages ∧
  (url ∈ toggleImage url selectedImages ↔ url ∉ selectedImages) ∧
  ∀ other, other ≠ url →
    (other ∈ toggleImage url selectedImages ↔ other ∈ selectedImages).
Proof.
  unfold toggleImage. split; [|split].
  - destruct (decide (url ∈ selectedImages)) as [Hin|Hout].
    + rewrite decide_False;
        [|rewrite elem_of_difference, elem_of_singleton; tauto].
      apply leibniz_equiv. intros x.
      rewrite elem_of_union, elem_of_difference, elem_of_singleton.
      destruct (decide (x = url)) as [->|]; tauto.
    + rewrite decide_True;
        [|rewrite elem_of_union, elem_of_singleton; tauto].
      apply leibniz_equiv. intros x.
      rewrite elem_of_difference, elem_of_union, elem_of_singleton.
      destruct (decide (x = url)) as [->|]; tauto.
  - case_decide.
    + rewrite elem_of_difference, elem_of_singleton. tauto.
    + rewrite elem_of_union, elem_of_singleton. tauto.
  - intros other Hne. case_decide.
    + rewrite elem_of_difference, elem_of_singleton. tauto.
    + rewrite elem_of_union, elem_of_singleton. tauto.
Qed.

Lemma confirmed_all (filteredImages : list Types.BehanceImage) :
  confirmed filteredImages (list_to_set (map Types.url filteredImages)) =
  filteredImages.
Proof.
  unfold confirmed.
  assert (H : ∀ l : list Types.BehanceImage,
            Forall (λ img, Types.url img ∈
                     (list_to_set (map Types.url filteredImages) : gset _)) l →
            List.filter
              (λ img, bool_decide
                 (Types.url img ∈
                    (list_to_set (map Types.url filteredImages) : gset _))) l = l).
  { induction 1 as [|img l Himg _ IH]; [done|]. simpl.
    rewrite bool_decide_eq_true_2 by done. by rewrite IH. }
  apply H. apply Forall_forall. intros img Himg.
  apply elem_of_list_to_set. apply list_elem_of_In, in_map.
  by apply list_elem_of_In.
Qed.

(** X29. When the shown images have distinct URLs and the selection does
    not already count as many entries as images are shown, 'Select All'
    selects exactly the shown images, so that confirming passes all of
    them on, and a second click clears the selection. *)
Theorem toggleAll_selects_all (filteredImages : list Types.BehanceImage)
    (selectedImages : gset (list ascii)) :
  NoDup (map Types.url filteredImages) →
  size selectedImages ≠ List.length filteredImages →
  let all := toggleAll filteredImages selectedImages in
  confirmed filteredImages all = filteredImages ∧
  size all = List.length filteredImages ∧
  toggleAll filteredImages all = ∅.
Proof.
  intros Hnd Hsize all. unfold all, toggleAll.
  rewrite decide_False by done.
  assert (Hall : size (list_to_set (map Types.url filteredImages)
                         : gset (list ascii)) = List.length filteredImages).
  { rewrite size_list_to_set by done. apply length_map. }
  split; [apply confirmed_all|]. split; [done|].
  by rewrite decide_True.
Qed.

Lemma toggleAll_selects_all_witness :
  let filteredImages := ClientDefs.five in
  let all := toggleAll filteredImages ∅ in
  confirmed filteredImages all = filteredImages ∧
  size all = List.length filteredImages ∧
  toggleAll filteredImages all = ∅.
Proof.
  apply (toggleAll_selects_all ClientDefs.five ∅).
  - apply (bool_decide_unpack _). by vm_compute.
  - rewrite size_empty. discriminate.
Defined.

Lemma folded_pattern pattern :
  pattern ∈ iconPatterns →
  map foldCase (toLowerCase pattern) = pattern.
Proof.
  intros H. unfold iconPatterns in H.
  repeat (apply elem_of_cons in H as [->|H]); try done.
  by apply elem_of_nil in H.
Qed.

Lemma includes_map (f : ascii → ascii) s p :
  includes s p = true → includes (map f s) (map f p) = true.
Proof.
  rewrite !includes_spec. intros (a & b & ->).
  exists (map f a), (map f b). by rewrite !map_app.
Qed.

Lemma includes_app_l s t p :
  includes s p = true → includes (s ++ t) p = true.
Proof.
  rewrite !includes_spec. intros (a & b & ->).
  exists a, (b ++ t). by rewrite <- !app_assoc.
Qed.

(** X30. A project whose sanitised title contains one of the icon words
    ([icon], [logo], [thumb], [svg], ...) previews nothing while the icon
    filter is on (as it is initially): the title is part of every file
    name the extractor gives, and [filterImages] drops every image whose
    file name contains such a word. *)
Theorem icon_title_hides_project filters title pattern imgs :
  skipIcons filters = true →
  pattern ∈ iconPatterns →
  includes (sanitizeFilename title) pattern = true →
  filterImages filters
    (images (processImages title noneFound (scanImages imgs))) = [].
Proof.
  intros Hskip Hpat Hinc.
  destruct (processImages_run title (scanImages imgs) noneFound)
    as [(_ & _ & Hnames) _]; [apply scanImages_nonempty|apply wellNamed_noneFound|].
  set (found := images (processImages title noneFound (scanImages imgs))) in *.
  assert (Hdrop : Forall (λ img, keeps filters img = false) found).
  { apply Forall_lookup. intros i img Hi. unfold keeps.
    rewrite Hskip. cbn [andb].
    assert (Hex : existsb
              (λ pattern0, testIgnoreCase pattern0 (toLowerCase (Types.url img))
                 || testIgnoreCase pattern0 (toLowerCase (Types.filename img)))
              iconPatterns = true); [|by rewrite Hex].
    apply existsb_exists. exists pattern. split; [by apply list_elem_of_In|].
    apply orb_true_iff. right. unfold testIgnoreCase.
    rewrite (Hnames i img Hi). unfold nameOf, toLowerCase.
    rewrite <- (folded_pattern pattern Hpat). unfold toLowerCase.
    rewrite !map_app. apply includes_app_l.
    by apply includes_map, includes_map. }
  unfold filterImages. clearbody found. clear Hnames.
  induction Hdrop as [|img l Himg _ IH]; [done|].
  simpl. by rewrite Himg.
Qed.

Lemma icon_title_hides_project_witness :
  filterImages initialFilters
    (images (processImages (lit "Logo Design") noneFound
               (scanImages
                  [ {| src := lit "https://mir-s3-cdn-cf.behance.net/project_modules/1400/a.png";
                       data_src := None |} ]))) = [].
Proof.
  apply (icon_title_hides_project initialFilters (lit "Logo Design") (lit "logo")).
  - reflexivity.
  - apply (bool_decide_unpack _). by vm_compute.
  - reflexivity.
Defined.

End PreviewSpec.
